(** * Pelikan: buffers, the RESP request codec and the slab item layer

    A shallow embedding of
    - [deps/ccommon/src/buffer/cc_dbuf.c]      (module [DBuf]),
    - [src/protocol/data/redis/parse.c]        (module [Redis]),
    - [src/protocol/data/redis/compose.c]      (module [Redis]),
    - [src/storage/slab/item.c]                (module [Item]),
    together with the properties the specification states about them.

    Conventions.  Every C integer is a [Z]; where the source computes in a
    fixed width the wrap-around is written out with [uint32] / [uint64].
    A [char *] into a buffer is an offset from the buffer's [begin]; a read
    through a pointer that leaves the allocated region has no defined result
    and makes the embedded function return [None].  Logging and metric
    counters ([log_*], [INCR], [DECR]) are left out: no function reads them. *)

From Stdlib Require Import ZArith String Ascii Lia DecimalString DecimalN DecimalFacts.
From stdpp Require Import gmap list option numbers fin_maps.

#[local] Open Scope Z_scope.

(** ** Machine integers and bytes *)

Definition uint32 (x : Z) : Z := x mod 2 ^ 32.
Definition uint64 (x : Z) : Z := x mod 2 ^ 64.
Definition UINT32_MAX : Z := 2 ^ 32 - 1.
Definition UINT64_MAX : Z := 2 ^ 64 - 1.

Definition CR : Z := 13.
Definition LF : Z := 10.
Definition CRLF : list Z := [CR; LF].
Definition CRLF_LEN : Z := 2.

(** The bytes of a string literal. *)
Definition bytes (s : string) : list Z :=
  map (fun c => Z.of_N (N_of_ascii c)) (list_ascii_of_string s).

(** [isdigit] of <ctype.h> in the C locale. *)
Definition isdigit (c : Z) : bool := (48 <=? c) && (c <=? 57).

(** The number a run of decimal digits denotes, read from the left, and the
    same continued from [acc]. *)
Definition digits_val_from (acc : Z) (ds : list Z) : Z :=
  foldl (fun a c => a * 10 + (c - 48)) acc ds.
Definition digits_val (ds : list Z) : Z := digits_val_from 0 ds.

(** [struct bstring] of cc_bstring.h: a length and a pointer.  The pointer is
    modelled by the memory that starts at it, so that [data !! i] is
    [data[i]] and a view into a buffer is a suffix of the buffer's bytes. *)
Record bstring := Bstring { len : Z; data : list Z }.

Definition bstring_init : bstring := Bstring 0 [].

(** The bytes a [bstring] denotes: [data[0 .. len)]. *)
Definition bstring_bytes (s : bstring) : list Z := take (Z.to_nat (len s)) (data s).

Definition str2bstr (s : string) : bstring :=
  Bstring (Z.of_nat (length (bytes s))) (bytes s).

(** ** struct buf (cc_buf.h)

    Modelled from the spec: cc_buf.h is not among the sources.  "A contiguous
    byte region of current capacity C; a read cursor r and write cursor w";
    "readable region is [r, w); writable region is [w, C)".  [mem] holds the
    bytes of the whole region [begin, end), also those at and after [wpos]:
    the parser looks at them. *)
Record buf := Buf { rpos : Z; wpos : Z; mem : list Z }.

Definition buf_end (b : buf) : Z := Z.of_nat (length (mem b)).
Definition buf_rsize (b : buf) : Z := uint32 (wpos b - rpos b).
Definition buf_wsize (b : buf) : Z := uint32 (buf_end b - wpos b).
Definition buf_capacity (b : buf) : Z := uint32 (buf_end b).

Definition set_rpos (b : buf) (p : Z) : buf := Buf p (wpos b) (mem b).
Definition set_wpos (b : buf) (p : Z) : buf := Buf (rpos b) p (mem b).

(** [*p] for a pointer [p] into the buffer. *)
Definition peek (b : buf) (p : Z) : option Z :=
  if p <? 0 then None else mem b !! Z.to_nat p.

(** The memory from [p] to the end of the region: what a pointer [p] sees. *)
Definition mem_from (b : buf) (p : Z) : list Z := drop (Z.to_nat p) (mem b).

(** [buf_reset]: both cursors back to [begin]. *)
Definition buf_reset (b : buf) : buf := Buf 0 0 (mem b).

(** A buffer whose region is exactly [l], all of it readable. *)
Definition buf_of (l : list Z) : buf := Buf 0 (Z.of_nat (length l)) l.

(** [memcpy(m + p, bs, |bs|)]; writing outside the region is undefined. *)
Definition store_bytes (m : list Z) (p : Z) (bs : list Z) : option (list Z) :=
  if (0 <=? p) && (p + Z.of_nat (length bs) <=? Z.of_nat (length m))
  then Some (take (Z.to_nat p) m ++ bs ++ drop (Z.to_nat p + length bs) m)
  else None.

(** Modelled from the spec: [buf_write] of cc_buf.h, which is not among the
    sources; it copies into the writable region [w, C) and moves [w].  The
    bytes are [src[0 .. count)], cut at the end of the region. *)
Definition buf_write (b : buf) (src : list Z) (count : Z) : option (Z * buf) :=
  let n := Z.min (buf_wsize b) count in
  if Z.of_nat (length src) <? n then None
  else
    m ← store_bytes (mem b) (wpos b) (take (Z.to_nat n) src);
    Some (n, Buf (rpos b) (wpos b + n) m).

(** ** Dynamic buffers (cc_dbuf.c) *)

Module DBuf.

Inductive rstatus := CC_OK | CC_ERROR | CC_ENOMEM.

#[global] Instance rstatus_eq_dec : EqDecision rstatus.
Proof. solve_decision. Defined.

Section DBuf.

(** [BUF_HDR_SIZE] is [offsetof(struct buf, begin)] and [buf_init_size] the
    global of cc_buf.c; neither file is among the sources.  [max_size] is the
    static variable of cc_dbuf.c. *)
Variable BUF_HDR_SIZE : Z.
Variable buf_init_size : Z.
Variable max_size : Z.

(** [dbuf_setup(power)]: the value it gives [max_size]. *)
Definition dbuf_setup (power : Z) : Z := uint32 (Z.shiftl buf_init_size power).

(** [buf_size(buf)]: [end - (uint8_t * )buf], header included. *)
Definition buf_size (b : buf) : Z := uint32 (BUF_HDR_SIZE + buf_end b).

(** Modelled from the spec: [buf_create] of cc_buf.c, "created with
    C = init_size"; [fresh] is what the new memory holds. *)
Definition buf_create (fresh : list Z) : buf :=
  Buf 0 0 (resize (Z.to_nat (buf_init_size - BUF_HDR_SIZE)) 0 fresh).

(** [_dbuf_resize(buf, nsize)].  [nbuf] is what [cc_realloc] answers: [None]
    for [NULL], else how far the block has moved ([d], the new address less
    the old one) and the bytes found in the part of the block that is new.
    Only [end] is adjusted ("other fields are copied by realloc"): [rpos]
    and [wpos] keep their addresses, so that as offsets from the new [begin]
    they are [d] less than they were, and they are what they were only where
    the block has stayed in its place.  A block smaller than the header does
    not hold the [end] field that is written next: undefined. *)
Definition _dbuf_resize (nbuf : option (Z * list Z)) (b : buf) (nsize : Z)
  : option (rstatus * buf) :=
  match nbuf with
  | None => Some (CC_ENOMEM, b)
  | Some (d, fresh) =>
      if nsize <? BUF_HDR_SIZE then None
      else
        let m := resize (Z.to_nat (nsize - BUF_HDR_SIZE)) 0 (mem b ++ fresh) in
        Some (CC_OK, Buf (rpos b - d) (wpos b - d) m)
  end.

(** [dbuf_double(buf)].  Its [ASSERT(buf_capacity( *buf ) <= max_size)] is
    left out: it is compiled out of a release build, and it holds of the
    buffers the properties below are about. *)
Definition dbuf_double (nbuf : option (Z * list Z)) (b : buf) : option (rstatus * buf) :=
  let nsize := uint32 (buf_size b * 2) in
  if nsize >? max_size then Some (CC_ERROR, b)
  else _dbuf_resize nbuf b nsize.

(** The [while (nsize < cap + BUF_HDR_SIZE)] loop of [dbuf_fit].  [nsize] is
    a [uint32_t]: from the 32nd doubling on it is 0 and stays 0, so a loop
    that has not stopped after 33 tests never stops; [None] is that case. *)
Fixpoint dbuf_fit_loop (fuel : nat) (nsize target : Z) : option Z :=
  match fuel with
  | O => None
  | S fuel' =>
      if nsize <? target
      then dbuf_fit_loop fuel' (uint32 (nsize * 2)) target
      else Some nsize
  end.

(** [dbuf_fit(buf, cap)]; [cap + BUF_HDR_SIZE] is computed in [size_t]. *)
Definition dbuf_fit (nbuf : option (Z * list Z)) (b : buf) (cap : Z)
  : option (rstatus * buf) :=
  let nsize := buf_init_size in
  if cap + BUF_HDR_SIZE >? max_size then Some (CC_ERROR, b)
  else
    nsize ← dbuf_fit_loop 33 nsize (cap + BUF_HDR_SIZE);
    _dbuf_resize nbuf b nsize.

(** [dbuf_shrink(buf)]. *)
Definition dbuf_shrink (nbuf : option (Z * list Z)) (b : buf) : option (rstatus * buf) :=
  _dbuf_resize nbuf b buf_init_size.

(** A call of one of the three resizing operations, with the answer its
    [cc_realloc] gets. *)
Inductive dbuf_op :=
  | Double (nbuf : option (Z * list Z))
  | Fit (cap : Z) (nbuf : option (Z * list Z))
  | Shrink (nbuf : option (Z * list Z)).

Definition dbuf_step (b : buf) (op : dbuf_op) : option (rstatus * buf) :=
  match op with
  | Double nbuf => dbuf_double nbuf b
  | Fit cap nbuf => dbuf_fit nbuf b cap
  | Shrink nbuf => dbuf_shrink nbuf b
  end.

(** The buffer after a sequence of calls. *)
Fixpoint dbuf_run (b : buf) (ops : list dbuf_op) : option buf :=
  match ops with
  | [] => Some b
  | op :: ops' => '(_, b') ← dbuf_step b op; dbuf_run b' ops'
  end.

(** The configuration the module is written for: the header fits in the
    initial allocation, [max_size] is [buf_init_size << power] without loss
    of bits, and twice [max_size] is still a [uint32_t]. *)
Definition dbuf_config_ok (power : Z) : Prop :=
  0 < buf_init_size /\ BUF_HDR_SIZE <= buf_init_size /\ 0 <= BUF_HDR_SIZE /\
  0 <= power /\ max_size = buf_init_size * 2 ^ power /\ 2 * max_size < 2 ^ 32.

(** The size is [buf_init_size] doubled some number of times. *)
Definition quantized (b : buf) : Prop :=
  exists k : Z, 0 <= k /\ buf_size b = buf_init_size * 2 ^ k.

(** The same of the size before its cast to [uint32_t], with the bound. *)
Definition dbuf_sized (b : buf) : Prop :=
  BUF_HDR_SIZE + buf_end b <= max_size /\
  exists k : Z, 0 <= k /\ BUF_HDR_SIZE + buf_end b = buf_init_size * 2 ^ k.

End DBuf.

End DBuf.

(** ** The RESP request parser (parse.c) *)

Module Redis.

Inductive parse_rstatus :=
  | PARSE_OK | PARSE_EUNFIN | PARSE_EEMPTY | PARSE_EINVALID | PARSE_EOTHER.

#[global] Instance parse_rstatus_eq_dec : EqDecision parse_rstatus.
Proof. solve_decision. Defined.

Inductive request_type :=
  | REQ_UNKNOWN | REQ_GET | REQ_MGET | REQ_SET | REQ_DELETE
  | REQ_INCR | REQ_DECR | REQ_FLUSH | REQ_QUIT.

#[global] Instance request_type_eq_dec : EqDecision request_type.
Proof. solve_decision. Defined.

Inductive request_state := REQ_PARSING | REQ_PARSED | REQ_PROCESSING | REQ_DONE.
Inductive parse_state := REQ_HDR | REQ_VAL.

#[global] Instance parse_state_eq_dec : EqDecision parse_state.
Proof. solve_decision. Defined.

(** [struct request] (request.h is not among the sources; the fields are the
    ones parse.c, compose.c and the tests use).  [keys] is the array of
    [MAX_BATCH_SIZE] preallocated [bstring]s, [length keys] its [nelem]. *)
Record request := Request {
  rstate : request_state;
  pstate : parse_state;
  type : request_type;
  keys : list bstring;
  vstr : bstring;
  vlen : Z;
  delta : Z;
  noreply : bool;
  val : bool;
  cerror : bool
}.

(** Modelled from the spec: [request_reset] of request.c, which is not among
    the sources.  A request starts in [rstate = PARSING], [pstate = HDR],
    with type [UNKNOWN] and no keys. *)
Definition request_reset : request :=
  Request REQ_PARSING REQ_HDR REQ_UNKNOWN [] bstring_init 0 0 false false false.

Definition set_type (r : request) (t : request_type) : request :=
  Request (rstate r) (pstate r) t (keys r) (vstr r) (vlen r) (delta r)
          (noreply r) (val r) (cerror r).
Definition set_keys (r : request) (k : list bstring) : request :=
  Request (rstate r) (pstate r) (type r) k (vstr r) (vlen r) (delta r)
          (noreply r) (val r) (cerror r).
Definition set_delta (r : request) (d : Z) : request :=
  Request (rstate r) (pstate r) (type r) (keys r) (vstr r) (vlen r) d
          (noreply r) (val r) (cerror r).
Definition set_pstate (r : request) (p : parse_state) : request :=
  Request (rstate r) p (type r) (keys r) (vstr r) (vlen r) (delta r)
          (noreply r) (val r) (cerror r).
Definition set_rstate (r : request) (s : request_state) : request :=
  Request s (pstate r) (type r) (keys r) (vstr r) (vlen r) (delta r)
          (noreply r) (val r) (cerror r).
Definition set_vstr (r : request) (s : bstring) : request :=
  Request (rstate r) (pstate r) (type r) (keys r) s (len s) (delta r)
          (noreply r) (val r) (cerror r).
Definition set_cerror (r : request) : request :=
  Request (rstate r) (pstate r) (type r) (keys r) (vstr r) (vlen r) (delta r)
          (noreply r) (val r) true.

(** *** Common functions *)

(** [_try_crlf(buf, p)]. *)
Definition _try_crlf (b : buf) (p : Z) : option parse_rstatus :=
  c ← peek b p;
  if negb (c =? CR) then Some PARSE_EINVALID
  else if wpos b =? p + 1 then Some PARSE_EUNFIN
  else
    d ← peek b (p + 1);
    if d =? LF then Some PARSE_OK else Some PARSE_EINVALID.

(** How the [while (isdigit( *p ))] loop of [_check_uint] is left: by one of
    its [return]s, or through its condition with [*num] and [p]. *)
Inductive uint_loop :=
  | Returned (s : parse_rstatus) (num : Z)
  | Left (num p : Z).

(** The loop of [_check_uint]; [tl] is the memory at [p].  [buf_rsize(buf)]
    does not change while it runs: [buf->rpos] is only written after it. *)
Fixpoint _check_uint_loop (b : buf) (max : Z) (tl : list Z) (num p : Z)
  : option uint_loop :=
  match tl with
  | [] => None
  | c :: tl' =>
      if isdigit c then
        if buf_rsize b =? 0 then Some (Returned PARSE_EUNFIN num)
        else if num >? max / 10 then Some (Returned PARSE_EINVALID num)
        else
          let num := uint64 (num * 10) in
          let num := uint64 (num + (c - 48)) in
          _check_uint_loop b max tl' num (p + 1)
      else Some (Left num p)
  end.

(** [_check_uint(&num, buf, max)]: the status, [*num] and the buffer. *)
Definition _check_uint (b : buf) (max : Z) : option (parse_rstatus * Z * buf) :=
  let p := rpos b in
  r ← _check_uint_loop b max (mem_from b p) 0 p;
  match r with
  | Returned s num => Some (s, num, b)
  | Left num p =>
      if p =? rpos b then Some (PARSE_EEMPTY, num, b)
      else
        s ← _try_crlf b p;
        if decide (s = PARSE_OK)
        then Some (PARSE_OK, num, set_rpos b (p + CRLF_LEN))
        else Some (PARSE_EINVALID, num, b)
  end.

(** [_parse_bulk(buf, t)]: the status, [*t] and the buffer; [t0] is [*t] on
    entry, which stays as it is on every path but the last. *)
Definition _parse_bulk (b : buf) (t0 : bstring)
  : option (parse_rstatus * bstring * buf) :=
  c ← peek b (rpos b);
  if negb (c =? 36) then Some (PARSE_EINVALID, t0, b)
  else if wpos b =? rpos b + 1 then Some (PARSE_EUNFIN, t0, b)
  else
    let b := set_rpos b (rpos b + 1) in
    '(status, bulklen, b) ← _check_uint b UINT64_MAX;
    if decide (status = PARSE_OK) then
      if buf_rsize b <? uint64 (bulklen + CRLF_LEN)
      then Some (PARSE_EUNFIN, t0, b)
      else
        let t := Bstring (uint32 bulklen) (mem_from b (rpos b)) in
        Some (PARSE_OK, t, set_rpos b (rpos b + len t + CRLF_LEN))
    else Some (status, t0, b).

(** The [for] loop of [_parse_bulk_numeric] from index [i] on, [n] rounds
    left; [inl] is a [return] from inside the loop. *)
Fixpoint _parse_bulk_numeric_loop (s : bstring) (max : Z) (n : nat) (i num : Z)
  : option (parse_rstatus * Z + Z) :=
  match n with
  | O => Some (inr num)
  | S n' =>
      c ← data s !! Z.to_nat i;
      if negb (isdigit c) then Some (inl (PARSE_EINVALID, num))
      else if num >? max / 10 then Some (inl (PARSE_EINVALID, num))
      else
        let num := uint64 (num * 10) in
        let num := uint64 (num + (c - 48)) in
        _parse_bulk_numeric_loop s max n' (uint32 (i + 1)) num
  end.

Section Parse.

(** Constants of cc_define.h and request.h, which are not among the
    sources. *)
Variable CC_UINT64_MAXLEN : Z.
Variable MAX_BATCH_SIZE : Z.

(** [_parse_bulk_numeric(buf, &num, max)]. *)
Definition _parse_bulk_numeric (b : buf) (max : Z)
  : option (parse_rstatus * Z * buf) :=
  '(status, s, b) ← _parse_bulk b bstring_init;
  if decide (status = PARSE_OK) then
    if len s >? CC_UINT64_MAXLEN then Some (PARSE_EINVALID, 0, b)
    else
      r ← _parse_bulk_numeric_loop s max (Z.to_nat (len s)) 0 0;
      match r with
      | inl (st, num) => Some (st, num, b)
      | inr num => Some (status, num, b)
      end
  else Some (status, 0, b).

(** *** Request specific functions *)

(** [strNcmp(t.data, c0, c1, ...)]: the first bytes of [t.data] are [cs]. *)
Fixpoint strcmp_at (d : list Z) (i : nat) (cs : list Z) : option bool :=
  match cs with
  | [] => Some true
  | c :: cs' =>
      x ← d !! i;
      if x =? c then strcmp_at d (S i) cs' else Some false
  end.

Definition strNcmp (d : list Z) (s : string) : option bool := strcmp_at d 0 (bytes s).

(** The [if (strNcmp(...)) { req->type = ...; break; }] lines of one [case],
    tried in their order. *)
Fixpoint first_cmd (d : list Z) (cmds : list (string * request_type))
  : option (option request_type) :=
  match cmds with
  | [] => Some None
  | (s, ty) :: cmds' =>
      m ← strNcmp d s;
      if (m : bool) then Some (Some ty) else first_cmd d cmds'
  end.

(** The [switch (t.len)] of [_check_req_type]: the type the token selects, if
    any.  With no match [req->type] is left as it is. *)
Definition req_type_of (t : bstring) : option (option request_type) :=
  if len t =? 3 then first_cmd (data t) [("get"%string, REQ_GET); ("set"%string, REQ_SET)]
  else if len t =? 4 then first_cmd (data t) [("mget"%string, REQ_MGET); ("quit"%string, REQ_QUIT)]
  else if len t =? 5 then first_cmd (data t) [("flush"%string, REQ_FLUSH)]
  else if len t =? 6 then
    first_cmd (data t)
      [("delete"%string, REQ_DELETE); ("incrby"%string, REQ_INCR); ("decrby"%string, REQ_DECR)]
  else Some None.

(** [_check_req_type(req, buf)]. *)
Definition _check_req_type (req : request) (b : buf)
  : option (parse_rstatus * request * buf) :=
  '(status, t, b) ← _parse_bulk b bstring_init;
  if decide (status = PARSE_OK) then
    ty ← req_type_of t;
    let req := match ty with Some ty => set_type req ty | None => req end in
    if decide (type req = REQ_UNKNOWN)
    then Some (PARSE_EINVALID, req, b)
    else Some (PARSE_OK, req, b)
  else Some (status, req, b).

(** [_push_key(req, t)]. *)
Definition _push_key (req : request) (t : bstring) : parse_rstatus * request :=
  if Z.of_nat (length (keys req)) >=? MAX_BATCH_SIZE
  then (PARSE_EOTHER, req)
  else (PARSE_OK, set_keys req (keys req ++ [t])).

(** [_subrequest_delete(req, buf)]. *)
Definition _subrequest_delete (req : request) (b : buf)
  : option (parse_rstatus * request * buf) :=
  '(status, t, b) ← _parse_bulk b bstring_init;
  if decide (status = PARSE_OK) then
    let '(status, req) := _push_key req t in Some (status, req, b)
  else Some (status, req, b).

(** [_subrequest_arithmetic(req, buf)]. *)
Definition _subrequest_arithmetic (req : request) (b : buf)
  : option (parse_rstatus * request * buf) :=
  '(status, t, b) ← _parse_bulk b bstring_init;
  let '(status, req) :=
    if decide (status = PARSE_OK) then _push_key req t else (status, req) in
  if decide (status = PARSE_OK) then
    '(status, delta, b) ← _parse_bulk_numeric b UINT64_MAX;
    if decide (status = PARSE_OK)
    then Some (status, set_delta req delta, b)
    else Some (status, req, b)
  else Some (status, req, b).

(** The [while (true)] loop of [_subrequest_retrieve], [fuel] rounds of it.
    The outer [None] is a read outside the buffer, the inner one the end of
    the fuel. *)
Fixpoint _subrequest_retrieve_loop (fuel : nat) (req : request) (b : buf)
  : option (option (parse_rstatus * request * buf)) :=
  match fuel with
  | O => Some None
  | S fuel' =>
      '(status, t, b) ← _parse_bulk b bstring_init;
      if decide (status = PARSE_OK) then
        let '(status, req) := _push_key req t in
        if decide (status = PARSE_OK)
        then _subrequest_retrieve_loop fuel' req b
        else Some (Some (status, req, b))
      else if decide (status = PARSE_EEMPTY) then
        if Z.of_nat (length (keys req)) =? 0
        then Some (Some (PARSE_EOTHER, req, b))
        else Some (Some (PARSE_OK, req, b))
      else Some (Some (status, req, b))
  end.

(** Every round that goes on has pushed a key, and [_push_key] refuses the
    key after [MAX_BATCH_SIZE]: so many rounds and one more is all the loop
    can make ([retrieve_fuel_enough] below). *)
Definition retrieve_fuel (req : request) : nat :=
  S (Z.to_nat (MAX_BATCH_SIZE - Z.of_nat (length (keys req)))).

(** [_subrequest_retrieve(req, buf)]. *)
Definition _subrequest_retrieve (req : request) (b : buf)
  : option (parse_rstatus * request * buf) :=
  r ← _subrequest_retrieve_loop (retrieve_fuel req) req b; r.

(** [_parse_req_hdr(req, buf)].  [NOT_REACHED()] is an assertion; with
    assertions compiled out the [default] case returns [PARSE_EOTHER]. *)
Definition _parse_req_hdr (req : request) (b : buf)
  : option (parse_rstatus * request * buf) :=
  let old_rpos := rpos b in
  '(status, req, b) ← _check_req_type req b;
  if decide (status = PARSE_OK) then
    match type req with
    | REQ_GET | REQ_MGET =>
        '(status, req, b) ← _subrequest_retrieve req b;
        if decide (status = PARSE_OK) then Some (status, req, b)
        else Some (status, req, set_rpos b old_rpos)
    | REQ_DELETE =>
        '(status, req, b) ← _subrequest_delete req b;
        if decide (status = PARSE_OK) then Some (status, req, b)
        else Some (status, req, set_rpos b old_rpos)
    | REQ_INCR | REQ_DECR =>
        '(status, req, b) ← _subrequest_arithmetic req b;
        if decide (status = PARSE_OK) then Some (status, req, b)
        else Some (status, req, set_rpos b old_rpos)
    | REQ_FLUSH | REQ_QUIT => Some (status, req, b)
    | _ => Some (PARSE_EOTHER, req, b)
    end
  else Some (status, req, b).

(** The [done:] label of [parse_req]. *)
Definition parse_req_done (status : parse_rstatus) (req : request) (b : buf)
  : parse_rstatus * request * buf :=
  if decide (status = PARSE_OK) then (status, req, b)
  else if decide (status = PARSE_EUNFIN) then (status, req, b)
  else (status, set_cerror req, b).

(** The [if (req->pstate == REQ_VAL)] block of [parse_req] and what follows
    it; [status] is the status so far. *)
Definition parse_req_val (status : parse_rstatus) (req : request) (b : buf)
  : option (parse_rstatus * request * buf) :=
  if decide (pstate req = REQ_VAL) then
    '(status, s, b) ← _parse_bulk b bstring_init;
    let req := set_vstr req s in
    if decide (status = PARSE_OK)
    then Some (parse_req_done status (set_rstate req REQ_PARSED) b)
    else Some (parse_req_done status req b)
  else Some (parse_req_done status (set_rstate req REQ_PARSED) b).

(** [parse_req(req, buf)]. *)
Definition parse_req (req : request) (b : buf)
  : option (parse_rstatus * request * buf) :=
  let status := PARSE_EUNFIN in
  if decide (pstate req = REQ_HDR) then
    '(status, req, b) ← _parse_req_hdr req b;
    if decide (status = PARSE_OK) then
      let req := if val req then set_pstate req REQ_VAL else req in
      parse_req_val status req b
    else Some (parse_req_done status req b)
  else parse_req_val status req b.

End Parse.

(** *** The request composer (compose.c) *)

(** Modelled from the spec: the table [req_strings] of request.c, which is
    not among the sources.  The command words are those the parser
    recognises: "len 3: get, set; len 4: mget, quit; len 5: flush; len 6:
    delete, incrby, decrby". *)
Definition req_strings (t : request_type) : bstring :=
  match t with
  | REQ_UNKNOWN => bstring_init
  | REQ_GET => str2bstr "get"
  | REQ_MGET => str2bstr "mget"
  | REQ_SET => str2bstr "set"
  | REQ_DELETE => str2bstr "delete"
  | REQ_INCR => str2bstr "incrby"
  | REQ_DECR => str2bstr "decrby"
  | REQ_FLUSH => str2bstr "flush"
  | REQ_QUIT => str2bstr "quit"
  end.

(** The text of ["%"PRIu64] and ["%"PRIu32] for [n >= 0], and of
    ["%"PRId64]. *)
Definition dec_u (n : Z) : list Z :=
  bytes (DecimalString.NilZero.string_of_uint (N.to_uint (Z.to_N n))).
Definition dec_i (n : Z) : list Z :=
  bytes (DecimalString.NilZero.string_of_int (Z.to_int n)).

(** [snprintf(m + p, size, ...)] where the formatted text is [text]: at most
    [size - 1] bytes of it and a NUL are stored; the result is the length of
    the whole text. *)
Definition snprintf (m : list Z) (p size : Z) (text : list Z)
  : option (Z * list Z) :=
  if size <=? 0 then Some (Z.of_nat (length text), m)
  else
    m' ← store_bytes m p (take (Z.to_nat (size - 1)) text ++ [0]);
    Some (Z.of_nat (length text), m').

Inductive compose_rstatus := COMPOSE_OK | COMPOSE_ENOMEM.

#[global] Instance compose_rstatus_eq_dec : EqDecision compose_rstatus.
Proof. solve_decision. Defined.

Section Compose.

(** Constants of cc_define.h, cc_buf.h and compose.h, the static [max_size]
    of cc_dbuf.c, and the answers of [cc_realloc] (by the buffer it is called
    on). [ENOMEM] is the [int] value of [COMPOSE_ENOMEM]. *)
Variable CC_UINT64_MAXLEN : Z.
Variable CC_UINT32_MAXLEN : Z.
Variable BUF_HDR_SIZE : Z.
Variable max_size : Z.
Variable ENOMEM : Z.
Variable cc_realloc : buf -> option (Z * list Z).

Definition CC_INT64_MAXLEN : Z := CC_UINT64_MAXLEN + 1.

(** The [while (n > buf_wsize( *buf ))] loop of [_check_buf_size], [fuel]
    rounds of it. *)
Fixpoint _check_buf_size_loop (fuel : nat) (b : buf) (n : Z)
  : option (compose_rstatus * buf) :=
  match fuel with
  | O => None
  | S fuel' =>
      if n >? buf_wsize b then
        '(st, b) ← DBuf.dbuf_double BUF_HDR_SIZE max_size (cc_realloc b) b;
        if decide (st = DBuf.CC_OK)
        then _check_buf_size_loop fuel' b n
        else Some (COMPOSE_ENOMEM, b)
      else Some (COMPOSE_OK, b)
  end.

(** [_check_buf_size(buf, n)], [n] a [uint32_t].  A round that goes on has
    doubled a [uint32_t] size, which 34 rounds cannot do. *)
Definition _check_buf_size (b : buf) (n : Z) : option (compose_rstatus * buf) :=
  _check_buf_size_loop 34 b (uint32 n).

(** [_write_number(buf, val, prefix)]: the [int] it returns and the buffer. *)
Definition _write_number (b : buf) (v : Z) (prefix : string) : option (Z * buf) :=
  '(st, b) ← _check_buf_size b (CC_INT64_MAXLEN + CRLF_LEN);
  if decide (st = COMPOSE_OK) then
    '(n, b) ← buf_write b (bytes prefix) (Z.of_nat (length (bytes prefix)));
    '(l, m) ← snprintf (mem b) (wpos b) (CC_INT64_MAXLEN + CRLF_LEN) (dec_i v ++ CRLF);
    Some (n + l, Buf (rpos b) (wpos b + l) m)
  else Some (ENOMEM, b).

Definition _write_i64 (b : buf) (v : Z) : option (Z * buf) := _write_number b v ":".
Definition _write_length (b : buf) (l : Z) : option (Z * buf) := _write_number b l "*".

(** [_write_bulk(buf, str)]. *)
Definition _write_bulk (b : buf) (str : bstring) : option (Z * buf) :=
  '(st, b) ← _check_buf_size b (1 + CC_UINT64_MAXLEN + CRLF_LEN + len str + CRLF_LEN);
  if decide (st = COMPOSE_OK) then
    '(n, m) ← snprintf (mem b) (wpos b) (1 + CC_UINT64_MAXLEN + CRLF_LEN)
                (bytes "$" ++ dec_u (len str) ++ CRLF);
    let b := Buf (rpos b) (wpos b + n) m in
    '(n1, b) ← buf_write b (data str) (len str);
    '(n2, b) ← buf_write b CRLF CRLF_LEN;
    Some (n + n1 + n2, b)
  else Some (ENOMEM, b).

(** The [for] loop that writes the keys in [compose_req]. *)
Fixpoint write_keys (b : buf) (n : Z) (ks : list bstring) : option (Z * buf) :=
  match ks with
  | [] => Some (n, b)
  | k :: ks' => '(n1, b) ← _write_bulk b k; write_keys b (n + n1) ks'
  end.

(** The [for] loop that sums the sizes of the keys in [compose_req]. *)
Definition keys_sz (ks : list bstring) : Z :=
  foldl (fun sz k => sz + (1 + CC_UINT64_MAXLEN + len k + CRLF_LEN)) 0 ks.

(** [compose_req(buf, req)]: the [int] it returns and the buffer.  [key] is
    [req->keys->data], the first slot of the array: read with no key in the
    array it is not a value of the model. *)
Definition compose_req (b : buf) (req : request) : option (Z * buf) :=
  let str := req_strings (type req) in
  let n := 0 in
  match type req with
  | REQ_FLUSH | REQ_QUIT =>
      '(st, b) ← _check_buf_size b (len str);
      if decide (st = COMPOSE_OK) then
        '(n1, b) ← _write_bulk b str; Some (n + n1, b)
      else Some (ENOMEM, b)
  | REQ_GET | REQ_MGET | REQ_DELETE =>
      let sz := keys_sz (keys req) in
      '(st, b) ← _check_buf_size b
                   (1 + CC_UINT64_MAXLEN + CRLF_LEN + 1 + CC_UINT64_MAXLEN + CRLF_LEN
                    + len str + CRLF_LEN + sz);
      if decide (st = COMPOSE_OK) then
        '(n1, b) ← _write_length b (1 + Z.of_nat (length (keys req)));
        '(n2, b) ← _write_bulk b str;
        write_keys b (n + n1 + n2) (keys req)
      else Some (ENOMEM, b)
  | REQ_INCR | REQ_DECR =>
      key ← keys req !! 0%nat;
      '(st, b) ← _check_buf_size b
                   (1 + CC_UINT32_MAXLEN + CRLF_LEN + 1 + CC_UINT64_MAXLEN + CRLF_LEN
                    + len str + CRLF_LEN + 1 + CC_UINT64_MAXLEN + CRLF_LEN
                    + len key + CRLF_LEN + 1 + CC_UINT64_MAXLEN + CRLF_LEN
                    + 1 + CC_UINT64_MAXLEN + CRLF_LEN);
      if decide (st = COMPOSE_OK) then
        '(n1, b) ← _write_length b (2 + Z.of_nat (length (keys req)));
        '(n2, b) ← _write_bulk b str;
        '(n3, b) ← _write_bulk b key;
        '(l, s) ← snprintf (replicate (Z.to_nat CC_UINT64_MAXLEN) 0) 0
                    CC_UINT64_MAXLEN (dec_u (delta req));
        '(n4, b) ← _write_bulk b (Bstring (uint32 l) s);
        Some (n + n1 + n2 + n3 + n4, b)
      else Some (ENOMEM, b)
  | REQ_SET =>
      key ← keys req !! 0%nat;
      '(st, b) ← _check_buf_size b
                   (1 + CC_UINT32_MAXLEN + CRLF_LEN + 1 + CC_UINT64_MAXLEN + CRLF_LEN
                    + len str + CRLF_LEN + 1 + CC_UINT64_MAXLEN + CRLF_LEN
                    + len key + CRLF_LEN + 1 + CC_UINT64_MAXLEN + CRLF_LEN
                    + len (vstr req) + CRLF_LEN);
      if decide (st = COMPOSE_OK) then
        '(n1, b) ← _write_length b (2 + Z.of_nat (length (keys req)));
        '(n2, b) ← _write_bulk b str;
        '(n3, b) ← _write_bulk b key;
        '(n4, b) ← _write_bulk b (vstr req);
        Some (n + n1 + n2 + n3 + n4, b)
      else Some (ENOMEM, b)
  | REQ_UNKNOWN => Some (n, b)
  end.

End Compose.

(** What the header phase of [parse_req] may change in a request: the
    type, the delta, and the keys, which only grow at their end. *)
Definition hdr_only (req req' : request) : Prop :=
  rstate req' = rstate req /\ pstate req' = pstate req /\
  vstr req' = vstr req /\ vlen req' = vlen req /\
  noreply req' = noreply req /\ val req' = val req /\
  cerror req' = cerror req /\
  keys req `prefix_of` keys req'.

(** The request types [parse_req] can answer [PARSE_OK] for. *)
Definition parsed_type (t : request_type) : bool :=
  match t with
  | REQ_GET | REQ_MGET | REQ_DELETE | REQ_INCR | REQ_DECR
  | REQ_FLUSH | REQ_QUIT => true
  | REQ_UNKNOWN | REQ_SET => false
  end.

(** [cc_realloc] leaves every block where it is. *)
Definition realloc_in_place (cc_realloc : buf -> option (Z * list Z)) : Prop :=
  forall b, cc_realloc b = None \/ exists fresh, cc_realloc b = Some (0, fresh).

(** The request types whose frame [compose_req] opens with an array header
    [*N]. *)
Definition array_framed (t : request_type) : bool :=
  match t with
  | REQ_GET | REQ_MGET | REQ_DELETE | REQ_INCR | REQ_DECR | REQ_SET => true
  | REQ_UNKNOWN | REQ_FLUSH | REQ_QUIT => false
  end.

(** The lengths in a request are those of [uint32_t] fields. *)
Definition request_lens_ok (req : request) : Prop :=
  Forall (fun k => 0 <= len k) (keys req) /\ 0 <= len (vstr req).

(** The readable part of [b] starts at [r], is not empty and has a [*] as
    its first byte. *)
Definition star_at (r : Z) (b : buf) : Prop :=
  rpos b = r /\ 0 <= r < wpos b /\ peek b r = Some 42.

(** Successive bulks: [bulks b ks b'] when [_parse_bulk], called again and
    again from [b], reads the tokens [ks] and leaves the buffer [b']. *)
Inductive bulks : buf -> list bstring -> buf -> Prop :=
  | bulks_nil b : bulks b [] b
  | bulks_cons b t b1 ks b2 :
      _parse_bulk b bstring_init = Some (PARSE_OK, t, b1) ->
      bulks b1 ks b2 -> bulks b (t :: ks) b2.

(** What the loop of [_subrequest_retrieve] returns, by the status [last]
    of its last [_parse_bulk] and the number [n] of keys it holds then. *)
Definition retrieve_status (last : parse_rstatus) (n : Z) : parse_rstatus :=
  match last with
  | PARSE_OK => PARSE_EOTHER
  | PARSE_EEMPTY => if n =? 0 then PARSE_EOTHER else PARSE_OK
  | s => s
  end.

(** *** Frames of the test suite (test/protocol/data/redis/check_redis.c) *)

(** [SERIALIZED] of [test_quit] and of [test_get]. *)
Definition frame_quit : list Z := bytes "$4" ++ CRLF ++ bytes "quit" ++ CRLF.
Definition frame_get_foo : list Z :=
  bytes "*2" ++ CRLF ++ bytes "$3" ++ CRLF ++ bytes "get" ++ CRLF
  ++ bytes "$3" ++ CRLF ++ bytes "foo" ++ CRLF.

(** The bulk that holds 2^64 in decimal, and [incrby foo 2^64] as the parser
    reads commands (the command word first). *)
Definition frame_bulk_2_64 : list Z :=
  bytes "$20" ++ CRLF ++ bytes "18446744073709551616" ++ CRLF.
Definition frame_incrby_2_64 : list Z :=
  bytes "$6" ++ CRLF ++ bytes "incrby" ++ CRLF ++ bytes "$3" ++ CRLF
  ++ bytes "foo" ++ CRLF ++ frame_bulk_2_64.

(** The request [test_get] composes. *)
Definition req_get_foo : request :=
  set_keys (set_type request_reset REQ_GET) [str2bstr "foo"].

(** A configuration to run the composer in: [CC_UINT64_MAXLEN = 21],
    [CC_UINT32_MAXLEN = 11], a 40-byte buffer header, buffers of 16 KiB that
    may grow to 4 MiB, [COMPOSE_ENOMEM = -2], and a [cc_realloc] that always
    succeeds, leaves the block in its place and gives zeroed memory. *)
Definition test_compose : buf -> request -> option (Z * buf) :=
  compose_req 21 11 40 (16384 * 2 ^ 8) (-2) (fun _ => Some (0, [])).
Definition fresh_buf : buf := DBuf.buf_create 40 16384 [].

(** The bulk that carries [payload], but for the two bytes that end it:
    [$], the length in decimal, CR LF and the payload. *)
Definition bulk_of (payload : list Z) : list Z :=
  [36] ++ dec_u (Z.of_nat (length payload)) ++ CRLF ++ payload.

(** A buffer that holds exactly the bytes [l] between its cursors, with
    whatever [junk] the rest of its memory holds. *)
Definition buf_holding (l junk : list Z) : buf :=
  Buf 0 (Z.of_nat (length l)) (l ++ junk).

End Redis.

(** ** The item layer (storage/slab/item.c) *)

Module Item.

Definition uint8 (x : Z) : Z := x mod 2 ^ 8.

Inductive item_rstatus := ITEM_OK | ITEM_EOVERSIZED | ITEM_ENOMEM.

#[global] Instance item_rstatus_eq_dec : EqDecision item_rstatus.
Proof. solve_decision. Defined.

(** [struct item] (storage/slab/item.h is not among the sources; the fields
    are those item.c uses).  Modelled from the spec: the layout, "key bytes
    immediately follow the header; value bytes follow the key when
    left-aligned, or occupy the tail of the slot when is_raligned = 1".
    [payload] holds the bytes of the slot after the header; [cas] is the
    token kept with the item. *)
Record item := MkItem {
  id : Z;
  is_linked : bool;
  in_freeq : bool;
  is_raligned : bool;
  klen : Z;
  vlen : Z;
  dataflag : Z;
  create_at : Z;
  expire_at : Z;
  cas : Z;
  payload : list Z
}.

Definition set_is_linked (it : item) (x : bool) : item :=
  MkItem (id it) x (in_freeq it) (is_raligned it) (klen it) (vlen it)
         (dataflag it) (create_at it) (expire_at it) (cas it) (payload it).
Definition set_in_freeq (it : item) (x : bool) : item :=
  MkItem (id it) (is_linked it) x (is_raligned it) (klen it) (vlen it)
         (dataflag it) (create_at it) (expire_at it) (cas it) (payload it).
Definition set_is_raligned (it : item) (x : bool) : item :=
  MkItem (id it) (is_linked it) (in_freeq it) x (klen it) (vlen it)
         (dataflag it) (create_at it) (expire_at it) (cas it) (payload it).
Definition set_klen (it : item) (x : Z) : item :=
  MkItem (id it) (is_linked it) (in_freeq it) (is_raligned it) x (vlen it)
         (dataflag it) (create_at it) (expire_at it) (cas it) (payload it).
Definition set_vlen (it : item) (x : Z) : item :=
  MkItem (id it) (is_linked it) (in_freeq it) (is_raligned it) (klen it) x
         (dataflag it) (create_at it) (expire_at it) (cas it) (payload it).
Definition set_dataflag (it : item) (x : Z) : item :=
  MkItem (id it) (is_linked it) (in_freeq it) (is_raligned it) (klen it) (vlen it)
         x (create_at it) (expire_at it) (cas it) (payload it).
Definition set_create_at (it : item) (x : Z) : item :=
  MkItem (id it) (is_linked it) (in_freeq it) (is_raligned it) (klen it) (vlen it)
         (dataflag it) x (expire_at it) (cas it) (payload it).
Definition set_expire_at (it : item) (x : Z) : item :=
  MkItem (id it) (is_linked it) (in_freeq it) (is_raligned it) (klen it) (vlen it)
         (dataflag it) (create_at it) x (cas it) (payload it).
Definition set_cas (it : item) (x : Z) : item :=
  MkItem (id it) (is_linked it) (in_freeq it) (is_raligned it) (klen it) (vlen it)
         (dataflag it) (create_at it) (expire_at it) x (payload it).
Definition set_payload (it : item) (x : list Z) : item :=
  MkItem (id it) (is_linked it) (in_freeq it) (is_raligned it) (klen it) (vlen it)
         (dataflag it) (create_at it) (expire_at it) (cas it) x.

(** [item_key(it)] and [item_data(it)] as offsets into the payload. *)
Definition item_key (it : item) : Z := 0.
Definition item_data (it : item) : Z :=
  if is_raligned it then Z.of_nat (length (payload it)) - vlen it else klen it.

(** The key and the value an item holds. *)
Definition key_of (it : item) : list Z := take (Z.to_nat (klen it)) (payload it).
Definition value_of (it : item) : list Z :=
  take (Z.to_nat (vlen it)) (drop (Z.to_nat (item_data it)) (payload it)).

(** The process-wide state: the clock of time.c, [flush_at] of item.c, the
    CAS counter, the slab memory (an [struct item *] is an address in
    [slots]), the hash table and the allocator of slab.c.

    Modelled from the spec: hashtable.c and slab.c are not among the sources.
    "Each bucket is a singly linked chain of item pointers", "chain order is
    not part of the contract": [hash_table] is the chain, newest first.  A
    class "holds a free_item_queue (reusable slots released by unlinks), the
    currently-being-carved slab and its offset cursor": [free_q], [carve] (the
    slots left in the slab being carved, by class), [pages_left] (the pages
    under [slab_maxbytes] not handed out yet) and [brk] (the next address
    never used). *)
Record store := MkStore {
  now : Z;
  flush_at : Z;
  cas_id : Z;
  slots : gmap nat item;
  hash_table : list nat;
  free_q : list nat;
  carve : gmap Z nat;
  pages_left : nat;
  brk : nat
}.

Definition set_now (s : store) (x : Z) : store :=
  MkStore x (flush_at s) (cas_id s) (slots s) (hash_table s) (free_q s)
          (carve s) (pages_left s) (brk s).
Definition set_flush_at (s : store) (x : Z) : store :=
  MkStore (now s) x (cas_id s) (slots s) (hash_table s) (free_q s)
          (carve s) (pages_left s) (brk s).
Definition set_cas_id (s : store) (x : Z) : store :=
  MkStore (now s) (flush_at s) x (slots s) (hash_table s) (free_q s)
          (carve s) (pages_left s) (brk s).
Definition set_slots (s : store) (x : gmap nat item) : store :=
  MkStore (now s) (flush_at s) (cas_id s) x (hash_table s) (free_q s)
          (carve s) (pages_left s) (brk s).
Definition set_hash_table (s : store) (x : list nat) : store :=
  MkStore (now s) (flush_at s) (cas_id s) (slots s) x (free_q s)
          (carve s) (pages_left s) (brk s).
Definition set_free_q (s : store) (x : list nat) : store :=
  MkStore (now s) (flush_at s) (cas_id s) (slots s) (hash_table s) x
          (carve s) (pages_left s) (brk s).

(** [it->field = ...] for the item at address [a]; a pointer to no slot is
    not a value of the model. *)
Definition update (s : store) (a : nat) (f : item -> item) : option store :=
  it ← slots s !! a; Some (set_slots s (<[a := f it]> (slots s))).

(** [cc_memcpy(dst_payload + p, src, n)] on the item at [a]. *)
Definition item_memcpy (s : store) (a : nat) (p : Z) (src : list Z) (n : Z)
  : option store :=
  it ← slots s !! a;
  if Z.of_nat (length src) <? n then None
  else
    m ← store_bytes (payload it) p (take (Z.to_nat n) src);
    Some (set_slots s (<[a := set_payload it m]> (slots s))).

(** [time_now()], and [time_update()] when the system clock reads [clock]. *)
Definition time_now (s : store) : Z := now s.
Definition time_update (clock : Z) (s : store) : store := set_now s clock.

(** The item at [a] is off the table's books: in the free queue, with
    [in_freeq] set and [is_linked] clear. *)
Definition unlinked (s : store) (a : nat) : Prop :=
  a ∈ free_q s /\
  exists it, slots s !! a = Some it /\ is_linked it = false /\ in_freeq it = true.

Section Item.

(** The slab configuration: the slot size of every class ([slabclass[id].size]),
    the size of the item header (with the 8 bytes of the CAS token when
    [slab_use_cas] is set), the page size and its header, and the id that
    stands for "no class". *)
Variable slabclass : list Z.
Variable ITEM_HDR_SIZE : Z.
Variable slab_size : Z.
Variable SLAB_HDR_SIZE : Z.
Variable SLABCLASS_INVALID_ID : Z.

(** Modelled from the spec: [slab_id(nbytes)], "the smallest class with
    item_size >= nbytes; returns INVALID_ID if nbytes exceeds the largest
    class". *)
Fixpoint slab_id_from (cls : list Z) (i : Z) (nbytes : Z) : Z :=
  match cls with
  | [] => SLABCLASS_INVALID_ID
  | sz :: cls' => if nbytes <=? sz then i else slab_id_from cls' (i + 1) nbytes
  end.
Definition slab_id (nbytes : Z) : Z := slab_id_from slabclass 0 nbytes.

(** Modelled from the spec: [item_ntotal], the "required slot size including
    header + optional CAS", and [item_slabid]. *)
Definition item_ntotal (klen vlen : Z) : Z := ITEM_HDR_SIZE + klen + vlen.
Definition item_slabid (klen vlen : Z) : Z := slab_id (item_ntotal klen vlen).

(** [item_hdr_init(it, offset, id)] on a slot just carved: it writes [id]
    and clears the three flags ([offset] and [magic] are not read by
    item.c and are left out).  The fields it does not write and the
    payload hold what the page held; they are taken to be 0, and
    [_item_alloc] resets the fields before the item is used. *)
Definition item_hdr_init (id : Z) : option item :=
  sz ← slabclass !! Z.to_nat id;
  Some (MkItem id false false false 0 0 0 0 0 0
               (replicate (Z.to_nat (sz - ITEM_HDR_SIZE)) 0)).

(** The slots a page gives to class [id]. *)
Definition slab_nitem (id : Z) : nat :=
  match slabclass !! Z.to_nat id with
  | Some sz => Z.to_nat ((slab_size - SLAB_HDR_SIZE) / sz)
  | None => 0
  end.

(** The first slot of class [id] in the free queue. *)
Definition freeq_find (s : store) (id : Z) : option nat :=
  list_find (fun a => Item.id <$> slots s !! a = Some id) (free_q s) ≫= fun r => Some r.2.

(** Carve the next slot of class [id] at [brk]; [rest] slots stay in the
    slab being carved. *)
Definition slab_carve (s : store) (id : Z) (rest : nat) (pages : nat)
  : option (option nat * store) :=
  it ← item_hdr_init id;
  Some (Some (brk s),
        MkStore (now s) (flush_at s) (cas_id s) (<[brk s := it]> (slots s))
                (hash_table s) (free_q s) (<[id := rest]> (carve s)) pages
                (S (brk s))).

(** Modelled from the spec: [slab_get_item(id)].  "1. If the class free queue
    is non-empty, pop and return.  2. Else if the current carve slab has
    room, carve the next slot and return.  3. Else allocate a new slab: if
    total-allocated < slab_maxbytes, obtain a fresh page; link it to the
    class; carve.  Else apply eviction policy: none: return NULL.  4. Mark
    the returned slot in_freeq = 0."  The eviction policy is [none]. *)
Definition slab_get_item (id : Z) (s : store) : option (option nat * store) :=
  match freeq_find s id with
  | Some a =>
      s ← update (set_free_q s (filter (fun b => b <> a) (free_q s))) a
                 (fun it => set_in_freeq it false);
      Some (Some a, s)
  | None =>
      match carve s !! id with
      | Some (S rest) => slab_carve s id rest (pages_left s)
      | _ =>
          match pages_left s, slab_nitem id with
          | S pages, S rest => slab_carve s id rest pages
          | _, _ => Some (None, s)
          end
      end
  end.

(** Modelled from the spec: [slab_put_item(it, id)], "push onto the class
    free queue, set in_freeq = 1". *)
Definition slab_put_item (a : nat) (s : store) : option store :=
  s ← update s a (fun it => set_in_freeq it true);
  Some (set_free_q s (a :: free_q s)).

(** Modelled from the spec: [hashtable_get], which "walks the chain with
    byte-wise key comparison". *)
Definition key_matches (s : store) (key : list Z) (a : nat) : bool :=
  match slots s !! a with
  | Some it => bool_decide (key_of it = key)
  | None => false
  end.
Definition hashtable_get (key : list Z) (s : store) : option nat :=
  list_find (fun a => key_matches s key a = true) (hash_table s) ≫= fun r => Some r.2.

(** Modelled from the spec: [hashtable_delete], which "walks and removes":
    the entry [hashtable_get] finds leaves the chain. *)
Definition hashtable_delete (key : list Z) (s : store) : store :=
  match list_find (fun a => key_matches s key a = true) (hash_table s) with
  | Some (i, _) => set_hash_table s (delete i (hash_table s))
  | None => s
  end.

(** Modelled from the spec: [hashtable_put], which "inserts at head of the
    chain and unlinks any prior entry with the same key"; "previous item is
    unlinked and returned to its free queue". *)
Definition hashtable_put (a : nat) (s : store) : option store :=
  it ← slots s !! a;
  s ← match hashtable_get (key_of it) s with
      | Some p =>
          s ← update (hashtable_delete (key_of it) s) p
                     (fun it => set_is_linked it false);
          slab_put_item p s
      | None => Some s
      end;
  Some (set_hash_table s (a :: hash_table s)).

(** Modelled from the spec: [item_set_cas], "cas = next_cas_token()" where
    the token is "a process-wide monotonically increasing 64-bit counter". *)
Definition item_set_cas (a : nat) (s : store) : option store :=
  let s := set_cas_id s (uint64 (cas_id s + 1)) in
  update s a (fun it => set_cas it (cas_id s)).

(** *** item.c *)

(** [_item_expired(it)]. *)
Definition _item_expired (s : store) (it : item) : bool :=
  ((expire_at it >? 0) && (expire_at it <? time_now s))
  || (create_at it <=? flush_at s).

(** [_copy_key(it, key)]; [it->klen] is a [uint8_t]. *)
Definition _copy_key (a : nat) (key : bstring) (s : store) : option store :=
  it ← slots s !! a;
  s ← item_memcpy s a (item_key it) (data key) (len key);
  update s a (fun it => set_klen it (uint8 (len key))).

(** [_copy_key_item(nit, oit)]. *)
Definition _copy_key_item (n o : nat) (s : store) : option store :=
  nit ← slots s !! n;
  oit ← slots s !! o;
  s ← item_memcpy s n (item_key nit) (drop (Z.to_nat (item_key oit)) (payload oit))
                  (klen oit);
  update s n (fun it => set_klen it (klen oit)).

(** [_copy_val(it, val)]. *)
Definition _copy_val (a : nat) (v : bstring) (s : store) : option store :=
  it ← slots s !! a;
  s ← item_memcpy s a (item_data it) (data v) (len v);
  update s a (fun it => set_vlen it (len v)).

(** [_item_reset(it)]. *)
Definition _item_reset (it : item) : item :=
  MkItem (id it) false false false 0 0 0 0 0 (cas it) (payload it).

(** [_item_alloc(it_p, klen, vlen)], [klen] a [uint8_t] and [vlen] a
    [uint32_t]: the status and [*it_p]. *)
Definition _item_alloc (klen vlen : Z) (s : store)
  : option (item_rstatus * option nat * store) :=
  let id := item_slabid (uint8 klen) (uint32 vlen) in
  if id =? SLABCLASS_INVALID_ID then Some (ITEM_EOVERSIZED, None, s)
  else
    '(it, s) ← slab_get_item id s;
    match it with
    | Some a => s ← update s a _item_reset; Some (ITEM_OK, Some a, s)
    | None => Some (ITEM_ENOMEM, None, s)
    end.

(** [_item_link(it)]. *)
Definition _item_link (a : nat) (s : store) : option store :=
  s ← update s a (fun it => set_is_linked it true);
  hashtable_put a s.

(** [_item_unlink(it)]. *)
Definition _item_unlink (a : nat) (s : store) : option store :=
  it ← slots s !! a;
  s ← (if is_linked it then
         s ← update s a (fun it => set_is_linked it false);
         Some (hashtable_delete (key_of it) s)
       else Some s);
  slab_put_item a s.

(** [item_get(key)]: the item found, and the state. *)
Definition item_get (key : bstring) (s : store) : option (option nat * store) :=
  match hashtable_get (bstring_bytes key) s with
  | None => Some (None, s)
  | Some a =>
      it ← slots s !! a;
      if _item_expired s it then
        s ← _item_unlink a s; Some (None, s)
      else Some (Some a, s)
  end.

(** [item_insert(key, val, dataflag, expire_at)]. *)
Definition item_insert (key v : bstring) (dataflag expire_at : Z) (s : store)
  : option (item_rstatus * store) :=
  '(status, it, s) ← _item_alloc (len key) (len v) s;
  match it with
  | Some a =>
      s ← update s a (fun it => set_expire_at it expire_at);
      s ← update s a (fun it => set_create_at it (time_now s));
      s ← update s a (fun it => set_dataflag it dataflag);
      s ← _copy_key a key s;
      s ← _copy_val a v s;
      s ← item_set_cas a s;
      s ← _item_link a s;
      Some (ITEM_OK, s)
  | None => Some (status, s)
  end.

(** The branch of [item_annex] that allocates: the new item [nit] takes the
    key, [expire_at] and [dataflag] of [oit], then the two values. *)
Definition item_annex_realloc (o : nat) (v : bstring) (append : bool)
  (ntotal : Z) (s : store) : option (item_rstatus * store) :=
  oit ← slots s !! o;
  '(status, nit, s) ← _item_alloc (klen oit) ntotal s;
  match nit with
  | None => Some (status, s)
  | Some n =>
      s ← _copy_key_item n o s;
      s ← update s n (fun it => set_expire_at it (expire_at oit));
      s ← update s n (fun it => set_create_at it (time_now s));
      s ← update s n (fun it => set_dataflag it (dataflag oit));
      s ← item_set_cas n s;
      oit ← slots s !! o;
      let odata := drop (Z.to_nat (item_data oit)) (payload oit) in
      s ← (if append then
             nit ← slots s !! n;
             s ← item_memcpy s n (item_data nit) odata (vlen oit);
             nit ← slots s !! n;
             item_memcpy s n (item_data nit + vlen oit) (data v) (len v)
           else
             s ← update s n (fun it => set_is_raligned it true);
             nit ← slots s !! n;
             s ← item_memcpy s n (item_data nit - ntotal) (data v) (len v);
             nit ← slots s !! n;
             item_memcpy s n (item_data nit - vlen oit) odata (vlen oit));
      s ← update s n (fun it => set_vlen it ntotal);
      s ← _item_unlink o s;
      s ← _item_link n s;
      Some (status, s)
  end.

(** The branch of [item_annex] that copies in place. *)
Definition item_annex_inplace (o : nat) (v : bstring) (append : bool)
  (ntotal : Z) (s : store) : option (item_rstatus * store) :=
  oit ← slots s !! o;
  s ← item_memcpy s o
        (if append then item_data oit + vlen oit else item_data oit - len v)
        (data v) (len v);
  s ← update s o (fun it => set_vlen it ntotal);
  s ← item_set_cas o s;
  Some (ITEM_OK, s).

(** [item_annex(oit, val, append)]. *)
Definition item_annex (o : nat) (v : bstring) (append : bool) (s : store)
  : option (item_rstatus * store) :=
  oit ← slots s !! o;
  let ntotal := uint32 (vlen oit + len v) in
  let id := item_slabid (klen oit) ntotal in
  if id =? SLABCLASS_INVALID_ID then Some (ITEM_EOVERSIZED, s)
  else if append then
    if (id =? Item.id oit) && negb (is_raligned oit)
    then item_annex_inplace o v append ntotal s
    else item_annex_realloc o v append ntotal s
  else
    if (id =? Item.id oit) && is_raligned oit
    then item_annex_inplace o v append ntotal s
    else item_annex_realloc o v append ntotal s.

(** [item_update(it, val)]. *)
Definition item_update (a : nat) (v : bstring) (s : store)
  : option (item_rstatus * store) :=
  s ← update s a (fun it => set_vlen it (len v));
  it ← slots s !! a;
  s ← item_memcpy s a (item_data it) (data v) (len v);
  s ← item_set_cas a s;
  Some (ITEM_OK, s).

(** [item_delete(key)]. *)
Definition item_delete (key : bstring) (s : store) : option (bool * store) :=
  '(it, s) ← item_get key s;
  match it with
  | Some a => s ← _item_unlink a s; Some (true, s)
  | None => Some (false, s)
  end.

(** [item_flush()], when the system clock reads [clock]. *)
Definition item_flush (clock : Z) (s : store) : store :=
  let s := time_update clock s in
  set_flush_at s (time_now s).

(** *** Notions used to state the properties of the item layer *)

(** The fast path of [item_annex] is open for [oit]: the class of the
    combined size is the class of [oit] and the alignment suits the
    operation. *)
Definition annex_in_place (oit : item) (v : bstring) (append : bool) : bool :=
  (item_slabid (klen oit) (uint32 (vlen oit + len v)) =? id oit)
  && (if append then negb (is_raligned oit) else is_raligned oit).

(** What [item_annex o v append] may do to [s], where [oit] is the item at
    [o]: refuse an oversized result; or, when [annex_in_place] holds, change
    the slot of [oit] alone, allocating nothing; or else allocate, which
    fails and changes nothing or gives the new item [n] that heads the table
    while [oit] is put aside. *)
Definition annex_outcome (o : nat) (oit : item) (v : bstring) (append : bool)
  (s : store) (st : item_rstatus) (s' : store) : Prop :=
  let ntotal := vlen oit + len v in
  let old_new := if append then value_of oit ++ bstring_bytes v
                 else bstring_bytes v ++ value_of oit in
  if item_slabid (klen oit) ntotal =? SLABCLASS_INVALID_ID
  then st = ITEM_EOVERSIZED /\ s' = s
  else if annex_in_place oit v append
  then st = ITEM_OK /\
       now s' = now s /\ flush_at s' = flush_at s /\
       hash_table s' = hash_table s /\ free_q s' = free_q s /\
       carve s' = carve s /\ pages_left s' = pages_left s /\ brk s' = brk s /\
       exists it',
         slots s' = <[o := it']> (slots s) /\
         id it' = id oit /\ is_raligned it' = negb append /\
         is_raligned oit = negb append /\
         vlen it' = ntotal /\ value_of it' = old_new /\
         (append = true -> key_of it' = key_of oit) /\
         klen it' = klen oit /\ create_at it' = create_at oit /\
         expire_at it' = expire_at oit /\ dataflag it' = dataflag oit
  else (st <> ITEM_OK /\ s' = s) \/
       (st = ITEM_OK /\
        exists n nit,
          n <> o /\ head (hash_table s') = Some n /\ slots s' !! n = Some nit /\
          id nit = item_slabid (klen oit) ntotal /\
          is_raligned nit = negb append /\
          vlen nit = ntotal /\ value_of nit = old_new /\
          (append = true \/
           klen oit + ntotal <= Z.of_nat (length (payload nit)) ->
           key_of nit = key_of oit) /\
          create_at nit = now s /\ expire_at nit = expire_at oit /\
          dataflag nit = dataflag oit /\
          now s' = now s /\ flush_at s' = flush_at s /\
          unlinked s' o).

(** The operations that change an item. *)
Inductive mutation :=
  | Insert (key v : bstring) (dataflag expire_at : Z)
  | Update (a : nat) (v : bstring)
  | Annex (a : nat) (v : bstring) (append : bool).

Definition mutate (m : mutation) (s : store) : option (item_rstatus * store) :=
  match m with
  | Insert key v dataflag expire_at => item_insert key v dataflag expire_at s
  | Update a v => item_update a v s
  | Annex a v append => item_annex a v append s
  end.

(** The item a mutation of [s] results in, in the state [s'] after it: the
    item itself when it is changed in place, else the item just linked. *)
Definition resulting_item (m : mutation) (s s' : store) : option nat :=
  match m with
  | Insert _ _ _ _ => head (hash_table s')
  | Update a _ => Some a
  | Annex a v append =>
      match slots s !! a with
      | Some oit =>
          if annex_in_place oit v append then Some a else head (hash_table s')
      | None => None
      end
  end.

End Item.

(** What an item is apart from its two list flags. *)
Definition core (it : item) :=
  (id it, is_raligned it, klen it, vlen it, dataflag it, create_at it,
   expire_at it, cas it, payload it).

(** [s'] has the clock, the counter and, up to the list flags, the items of
    [s]. *)
Definition same_items (s s' : store) : Prop :=
  now s' = now s /\ flush_at s' = flush_at s /\ cas_id s' = cas_id s /\
  core <$> slots s' = core <$> slots s.

(** No item of [s] was created after [t]. *)
Definition created_by (t : Z) (s : store) : Prop :=
  forall a it, slots s !! a = Some it -> create_at it <= t.

(** The hash table points at slots. *)
Definition table_ok (s : store) : Prop :=
  forall a, a ∈ hash_table s -> is_Some (slots s !! a).

(** [item_get] of the keys [ks], one after the other. *)
Fixpoint item_gets (ks : list bstring) (s : store)
  : option (list (option nat) * store) :=
  match ks with
  | [] => Some ([], s)
  | k :: ks' =>
      '(r, s) ← item_get k s;
      '(rs, s) ← item_gets ks' s;
      Some (r :: rs, s)
  end.

(** No token in [s] is ahead of the counter. *)
Definition cas_bounded (s : store) : Prop :=
  0 <= cas_id s /\ forall a it, slots s !! a = Some it -> cas it <= cas_id s.

(** From [s] to [s'] no token was assigned: the counter is the same, and
    every token in [s'] is one of [s] in the same slot, or the 0 of a slot
    just carved. *)
Definition cas_back (s s' : store) : Prop :=
  cas_id s' = cas_id s /\
  forall b it', slots s' !! b = Some it' ->
    cas it' = 0 \/ exists it, slots s !! b = Some it /\ cas it = cas it'.

(** The same, and every slot of [s] keeps its token. *)
Definition cas_keep (s s' : store) : Prop :=
  cas_back s s' /\
  forall b it, slots s !! b = Some it ->
    exists it', slots s' !! b = Some it' /\ cas it' = cas it.

(** A key or value as the item layer is given them: a length within [max]
    and at least so many bytes. *)
Definition bstring_ok (max : Z) (b : bstring) : Prop :=
  0 <= len b <= max /\ len b <= Z.of_nat (length (data b)).

(** An item whose key and value lie in its slot. *)
Definition item_ok (it : item) : Prop :=
  0 <= klen it <= 255 /\ 0 <= vlen it /\
  klen it + vlen it <= Z.of_nat (length (payload it)).

(** The allocator and the table do not share slots: what is in the free
    queue is not in the table, and both lie below [brk]. *)
Definition alloc_ok (s : store) : Prop :=
  forall a, (a ∈ free_q s -> a ∉ hash_table s) /\
            (a ∈ free_q s \/ a ∈ hash_table s -> (a < brk s)%nat).

(** *** A small configuration to run the item layer in

    Three classes of 64, 96 and 128 bytes, a 40-byte item header, pages of
    1 KiB with a 32-byte header, 255 for "no class"; a store just set up,
    its clock at 2, nothing flushed, four pages to carve from. *)
Definition test_insert : bstring -> bstring -> Z -> Z -> store -> option (item_rstatus * store) :=
  item_insert [64; 96; 128] 40 1024 32 255.
Definition test_annex : nat -> bstring -> bool -> store -> option (item_rstatus * store) :=
  item_annex [64; 96; 128] 40 1024 32 255.
Definition test_store : store := MkStore 2 0 0 ∅ [] [] ∅ 4 0.

(** The item that [insert("k", "v1", 0, 0)] makes in [test_store], with its
    key and value at the start of its 24 bytes, and the store it leaves. *)
Definition test_item : item :=
  MkItem 0 true false false 1 2 0 2 0 1 (bytes "kv1" ++ replicate 21 0).
Definition test_store_k : store :=
  MkStore 2 0 1 {[ 0%nat := test_item ]} [0%nat] [] {[ 0 := 14%nat ]} 3 1.

End Item.

(** * Memory copies *)

(** Step through [x ← e; k = Some r] in a hypothesis. *)
Ltac bind_inv H E :=
  match type of H with
  | mbind _ ?e = Some _ =>
      destruct e eqn:E; cbn [mbind option_bind] in H; [|discriminate H]
  end.

(** The same, naming the value. *)
Ltac bind_inv_as H E x :=
  match type of H with
  | mbind _ ?e = Some _ =>
      destruct e as [x|] eqn:E; cbn [mbind option_bind] in H; [|discriminate H]
  end.

(** The same through [bind_Some], which leaves the terms as they are:
    [x] is an intro pattern for the value. *)
Tactic Notation "bind_some" hyp(H) "as" simple_intropattern(x) ident(E) :=
  apply bind_Some in H as (x & E & H); cbv beta iota in H.

Module MemFacts.

Lemma store_bytes_spec m p bs m' :
  store_bytes m p bs = Some m' ->
  0 <= p /\ p + Z.of_nat (length bs) <= Z.of_nat (length m) /\
  m' = take (Z.to_nat p) m ++ bs ++ drop (Z.to_nat p + length bs) m.
Proof.
  unfold store_bytes.
  destruct (Z.leb_spec 0 p); simpl; [|discriminate].
  destruct (Z.leb_spec (p + Z.of_nat (length bs)) (Z.of_nat (length m))); [|discriminate].
  intros [= <-]. auto.
Qed.

Lemma store_bytes_length m p bs m' :
  store_bytes m p bs = Some m' -> length m' = length m.
Proof.
  intros H. apply store_bytes_spec in H as (H0 & H1 & ->).
  rewrite !length_app, length_take, length_drop. lia.
Qed.

(** What was stored is read back. *)
Lemma store_bytes_read m p bs m' :
  store_bytes m p bs = Some m' ->
  take (length bs) (drop (Z.to_nat p) m') = bs.
Proof.
  intros H. apply store_bytes_spec in H as (H0 & H1 & ->).
  rewrite drop_app_length' by (rewrite length_take; lia).
  rewrite take_app_length. reflexivity.
Qed.

(** The bytes before the place stored to stay. *)
Lemma store_bytes_before m p bs m' q :
  store_bytes m p bs = Some m' -> (q <= Z.to_nat p)%nat ->
  take q m' = take q m.
Proof.
  intros H Hq. apply store_bytes_spec in H as (H0 & H1 & ->).
  rewrite take_app_le by (rewrite length_take; lia).
  rewrite take_take. f_equal. lia.
Qed.

(** The bytes after the place stored to stay. *)
Lemma store_bytes_after m p bs m' q :
  store_bytes m p bs = Some m' -> (Z.to_nat p + length bs <= q)%nat ->
  drop q m' = drop q m.
Proof.
  intros H Hq. apply store_bytes_spec in H as (H0 & H1 & ->).
  rewrite drop_app_ge by (rewrite length_take; lia).
  rewrite length_take, Nat.min_l by lia.
  rewrite drop_app_ge by lia. rewrite drop_drop. f_equal. lia.
Qed.

(** What lies at the place stored to, and behind it. *)
Lemma store_bytes_drop m p bs m' :
  store_bytes m p bs = Some m' ->
  drop (Z.to_nat p) m' = bs ++ drop (Z.to_nat p + length bs) m.
Proof.
  intros H. apply store_bytes_spec in H as (H0 & H1 & ->).
  rewrite drop_app_length' by (rewrite length_take; lia). reflexivity.
Qed.

Lemma take_add {A} (m : list A) a k :
  take (a + k) m = take a m ++ take k (drop a m).
Proof.
  revert m. induction a as [|a IH]; intros m; [reflexivity|].
  destruct m as [|x m]; [cbn; rewrite take_nil; reflexivity|].
  cbn. f_equal. apply IH.
Qed.

(** Storing [bs] behind a part of the memory that is known: the part stays
    and [bs] follows it. *)
Lemma store_bytes_append m p bs m' q known :
  store_bytes m p bs = Some m' -> 0 <= q <= p ->
  take (Z.to_nat (p - q)) (drop (Z.to_nat q) m) = known ->
  take (Z.to_nat (p - q) + length bs) (drop (Z.to_nat q) m') = known ++ bs.
Proof.
  intros H Hq Hk. rewrite take_add, drop_drop.
  replace (Z.to_nat q + Z.to_nat (p - q))%nat with (Z.to_nat p) by lia.
  rewrite (store_bytes_drop _ _ _ _ H), take_app_length. f_equal.
  rewrite <- Hk.
  pose proof (store_bytes_spec _ _ _ _ H) as (H0 & H1 & ->).
  apply list_eq. intros i. rewrite !lookup_take, !lookup_drop.
  destruct (decide (i < Z.to_nat (p - q))%nat); [|reflexivity].
  rewrite lookup_app_l by (rewrite length_take; lia).
  apply lookup_take_lt. lia.
Qed.

End MemFacts.

(** * Properties of the request parser *)

Module RedisFacts.
Import Redis.

Section ParseFacts.

Variable CC_UINT64_MAXLEN : Z.
Variable MAX_BATCH_SIZE : Z.

#[local] Abbreviation parse_req := (parse_req CC_UINT64_MAXLEN MAX_BATCH_SIZE).
#[local] Abbreviation _parse_req_hdr := (_parse_req_hdr CC_UINT64_MAXLEN MAX_BATCH_SIZE).
#[local] Abbreviation _subrequest_retrieve := (_subrequest_retrieve MAX_BATCH_SIZE).
#[local] Abbreviation _subrequest_retrieve_loop := (_subrequest_retrieve_loop MAX_BATCH_SIZE).
#[local] Abbreviation _push_key := (_push_key MAX_BATCH_SIZE).
#[local] Abbreviation retrieve_fuel := (retrieve_fuel MAX_BATCH_SIZE).
#[local] Abbreviation nelem r := (Z.of_nat (length (keys r))).

(** [_push_key] either refuses, on a full array, or appends. *)
Lemma push_key_cases req t :
  (MAX_BATCH_SIZE <= nelem req /\ _push_key req t = (PARSE_EOTHER, req)) \/
  (nelem req < MAX_BATCH_SIZE /\
   _push_key req t = (PARSE_OK, set_keys req (keys req ++ [t]))).
Proof.
  unfold Redis._push_key.
  destruct (Z.geb_spec (nelem req) MAX_BATCH_SIZE); [left | right]; split; auto; lia.
Qed.

Lemma retrieve_fuel_push req t :
  nelem req < MAX_BATCH_SIZE ->
  retrieve_fuel req = S (retrieve_fuel (set_keys req (keys req ++ [t]))).
Proof.
  intros H. unfold Redis.retrieve_fuel. simpl. rewrite length_app. simpl.
  f_equal. lia.
Qed.

(** Fuel beyond [retrieve_fuel] is never used. *)
Lemma retrieve_loop_fuel f1 : forall f2 req b,
  (retrieve_fuel req <= f1)%nat -> (retrieve_fuel req <= f2)%nat ->
  _subrequest_retrieve_loop f1 req b = _subrequest_retrieve_loop f2 req b.
Proof.
  induction f1 as [|f1 IH]; intros f2 req b H1 H2.
  - unfold Redis.retrieve_fuel in H1. lia.
  - destruct f2 as [|f2]; [unfold Redis.retrieve_fuel in H2; lia|].
    simpl. destruct (_parse_bulk b bstring_init) as [[[st t] b1]|]; simpl; [|reflexivity].
    destruct (decide (st = PARSE_OK)); [|reflexivity].
    destruct (push_key_cases req t) as [[_ ->]|[Hlt ->]]; simpl; [reflexivity|].
    rewrite (retrieve_fuel_push req t Hlt) in H1, H2.
    apply IH; lia.
Qed.

(** The loop never runs out of the fuel [_subrequest_retrieve] gives it. *)
Lemma retrieve_fuel_enough f : forall req b,
  (retrieve_fuel req <= f)%nat -> _subrequest_retrieve_loop f req b <> Some None.
Proof.
  induction f as [|f IH]; intros req b H.
  - unfold Redis.retrieve_fuel in H. lia.
  - simpl. destruct (_parse_bulk b bstring_init) as [[[st t] b1]|]; simpl; [|discriminate].
    destruct (decide (st = PARSE_OK)).
    + destruct (push_key_cases req t) as [[_ ->]|[Hlt ->]]; simpl; [discriminate|].
      rewrite (retrieve_fuel_push req t Hlt) in H. apply IH. lia.
    + destruct (decide (st = PARSE_EEMPTY)); [|discriminate].
      destruct (nelem req =? 0); discriminate.
Qed.

(** One round of the loop of [_subrequest_retrieve]. *)
Lemma retrieve_unfold req b :
  _subrequest_retrieve req b =
  '(status, t, b1) ← _parse_bulk b bstring_init;
  if decide (status = PARSE_OK) then
    let '(status, req1) := _push_key req t in
    if decide (status = PARSE_OK) then _subrequest_retrieve req1 b1
    else Some (status, req1, b1)
  else if decide (status = PARSE_EEMPTY) then
    if nelem req =? 0 then Some (PARSE_EOTHER, req, b1)
    else Some (PARSE_OK, req, b1)
  else Some (status, req, b1).
Proof.
  unfold Redis._subrequest_retrieve at 1.
  unfold Redis.retrieve_fuel at 1. simpl.
  destruct (_parse_bulk b bstring_init) as [[[st t] b1]|]; simpl; [|reflexivity].
  destruct (decide (st = PARSE_OK)).
  - destruct (push_key_cases req t) as [[_ ->]|[Hlt ->]]; simpl; [reflexivity|].
    unfold Redis._subrequest_retrieve. f_equal.
    apply retrieve_loop_fuel; [|lia].
    pose proof (retrieve_fuel_push req t Hlt) as E.
    unfold Redis.retrieve_fuel in E |- *. lia.
  - destruct (decide (st = PARSE_EEMPTY)); [|reflexivity].
    destruct (nelem req =? 0); reflexivity.
Qed.

Lemma retrieve_loop_spec f : forall req b st req' b',
  nelem req <= MAX_BATCH_SIZE ->
  _subrequest_retrieve_loop f req b = Some (Some (st, req', b')) ->
  exists ks b_last st_last t,
    bulks b ks b_last /\
    req' = set_keys req (keys req ++ ks) /\
    nelem req' <= MAX_BATCH_SIZE /\
    _parse_bulk b_last bstring_init = Some (st_last, t, b') /\
    st = retrieve_status st_last (nelem req') /\
    (st_last = PARSE_OK -> nelem req' = MAX_BATCH_SIZE).
Proof.
  assert (Hid : forall r, set_keys r (keys r ++ []) = r)
    by (intros []; unfold set_keys; simpl; rewrite app_nil_r; reflexivity).
  induction f as [|f IH]; intros req b st req' b' Hn H; [discriminate|].
  simpl in H.
  destruct (_parse_bulk b bstring_init) as [[[st1 t] b1]|] eqn:E; simpl in H; [|discriminate].
  destruct (decide (st1 = PARSE_OK)) as [->|Hne].
  - destruct (push_key_cases req t) as [[Hge Hp]|[Hlt Hp]]; rewrite Hp in H; simpl in H.
    + inversion H; subst. exists [], b, PARSE_OK, t.
      rewrite Hid. repeat split; auto using bulks_nil. lia.
    + apply IH in H; [|simpl; rewrite length_app; simpl; lia].
      destruct H as (ks & bl & sl & t' & Hb & Hr & Hle & Hp' & Hs & Hm).
      exists (t :: ks), bl, sl, t'. repeat split; auto.
      * eapply bulks_cons; eauto.
      * rewrite Hr. unfold set_keys. simpl. rewrite <- app_assoc. reflexivity.
  - destruct (decide (st1 = PARSE_EEMPTY)) as [->|Hne'].
    + exists [], b, PARSE_EEMPTY, t. rewrite Hid.
      destruct (nelem req =? 0) eqn:Ez; inversion H; subst;
        simpl; rewrite ?Ez; repeat split; auto using bulks_nil; discriminate.
    + inversion H; subst. exists [], b, st, t. rewrite Hid.
      repeat split; auto using bulks_nil; [|contradiction].
      destruct st; simpl; congruence.
Qed.

(** [_push_key] keeps the keys within the array. *)
Lemma push_key_bounded r t s r' :
  _push_key r t = (s, r') -> nelem r <= MAX_BATCH_SIZE -> nelem r' <= MAX_BATCH_SIZE.
Proof.
  intros E Hr.
  destruct (push_key_cases r t) as [[_ Hp]|[Hlt Hp]]; rewrite Hp in E;
    inversion E; subst; auto. simpl. rewrite length_app. simpl. lia.
Qed.

Lemma check_req_type_keys req b s r bb :
  _check_req_type req b = Some (s, r, bb) -> keys r = keys req.
Proof.
  unfold _check_req_type. intros H.
  destruct (_parse_bulk b bstring_init) as [[[s1 t1] b1]|]; simpl in H; [|discriminate].
  case_decide; [|congruence].
  destruct (req_type_of t1) as [[ty|]|]; simpl in H; [| |discriminate];
    case_decide; inversion H; reflexivity.
Qed.

Lemma subrequest_retrieve_bounded req b s r bb :
  nelem req <= MAX_BATCH_SIZE ->
  _subrequest_retrieve req b = Some (s, r, bb) -> nelem r <= MAX_BATCH_SIZE.
Proof.
  intros Hn E. unfold Redis._subrequest_retrieve in E.
  destruct (_subrequest_retrieve_loop (retrieve_fuel req) req b) as [[x|]|] eqn:E';
    simpl in E; try discriminate. injection E as ->.
  apply retrieve_loop_spec in E'; [|exact Hn].
  destruct E' as (? & ? & ? & ? & _ & _ & Hle & _). exact Hle.
Qed.

Lemma subrequest_delete_bounded req b s r bb :
  nelem req <= MAX_BATCH_SIZE ->
  Redis._subrequest_delete MAX_BATCH_SIZE req b = Some (s, r, bb) ->
  nelem r <= MAX_BATCH_SIZE.
Proof.
  intros Hn H. unfold Redis._subrequest_delete in H.
  destruct (_parse_bulk b bstring_init) as [[[s2 t2] b2]|]; simpl in H; [|discriminate].
  case_decide.
  - destruct (_push_key req t2) as [s3 r3] eqn:Ep.
    apply push_key_bounded in Ep; [|exact Hn]. inversion H; subst. exact Ep.
  - inversion H; subst. exact Hn.
Qed.

Lemma subrequest_arithmetic_bounded req b s r bb :
  nelem req <= MAX_BATCH_SIZE ->
  Redis._subrequest_arithmetic CC_UINT64_MAXLEN MAX_BATCH_SIZE req b = Some (s, r, bb) ->
  nelem r <= MAX_BATCH_SIZE.
Proof.
  intros Hn H. unfold Redis._subrequest_arithmetic in H.
  destruct (_parse_bulk b bstring_init) as [[[s2 t2] b2]|]; simpl in H; [|discriminate].
  destruct (if decide (s2 = PARSE_OK) then _push_key req t2 else (s2, req))
    as [s3 r3] eqn:Ep.
  assert (Hr3 : nelem r3 <= MAX_BATCH_SIZE).
  { destruct (decide (s2 = PARSE_OK));
      [apply push_key_bounded in Ep; [exact Ep|exact Hn]|].
    inversion Ep; subst. exact Hn. }
  case_decide.
  - destruct (Redis._parse_bulk_numeric CC_UINT64_MAXLEN b2 UINT64_MAX)
      as [[[s4 d4] b4]|]; simpl in H; [|discriminate].
    case_decide; inversion H; subst; exact Hr3.
  - inversion H; subst; exact Hr3.
Qed.

Lemma parse_req_hdr_bounded req b s r bb :
  nelem req <= MAX_BATCH_SIZE ->
  _parse_req_hdr req b = Some (s, r, bb) -> nelem r <= MAX_BATCH_SIZE.
Proof.
  intros Hn H. unfold Redis._parse_req_hdr in H.
  destruct (_check_req_type req b) as [[[s1 r1] b1]|] eqn:E; simpl in H; [|discriminate].
  apply check_req_type_keys in E.
  assert (Hr1 : nelem r1 <= MAX_BATCH_SIZE) by (rewrite E; exact Hn).
  case_decide; [|inversion H; subst; exact Hr1].
  destruct (type r1).
  - inversion H; subst; exact Hr1.
  - destruct (_subrequest_retrieve r1 b1) as [[[s2 r2] b2]|] eqn:E2; simpl in H; [|discriminate].
    apply subrequest_retrieve_bounded in E2; [|exact Hr1].
    case_decide; inversion H; subst; exact E2.
  - destruct (_subrequest_retrieve r1 b1) as [[[s2 r2] b2]|] eqn:E2; simpl in H; [|discriminate].
    apply subrequest_retrieve_bounded in E2; [|exact Hr1].
    case_decide; inversion H; subst; exact E2.
  - inversion H; subst; exact Hr1.
  - destruct (Redis._subrequest_delete MAX_BATCH_SIZE r1 b1) as [[[s2 r2] b2]|] eqn:E2;
      simpl in H; [|discriminate].
    apply subrequest_delete_bounded in E2; [|exact Hr1].
    case_decide; inversion H; subst; exact E2.
  - destruct (Redis._subrequest_arithmetic CC_UINT64_MAXLEN MAX_BATCH_SIZE r1 b1)
      as [[[s2 r2] b2]|] eqn:E2; simpl in H; [|discriminate].
    apply subrequest_arithmetic_bounded in E2; [|exact Hr1].
    case_decide; inversion H; subst; exact E2.
  - destruct (Redis._subrequest_arithmetic CC_UINT64_MAXLEN MAX_BATCH_SIZE r1 b1)
      as [[[s2 r2] b2]|] eqn:E2; simpl in H; [|discriminate].
    apply subrequest_arithmetic_bounded in E2; [|exact Hr1].
    case_decide; inversion H; subst; exact E2.
  - inversion H; subst; exact Hr1.
  - inversion H; subst; exact Hr1.
Qed.

Lemma parse_req_done_keys s r bb s' r' bb' :
  parse_req_done s r bb = (s', r', bb') -> keys r' = keys r.
Proof.
  unfold parse_req_done. repeat case_decide; intros [= <- <- <-]; reflexivity.
Qed.

Lemma parse_req_val_keys s r bb s' r' bb' :
  parse_req_val s r bb = Some (s', r', bb') -> keys r' = keys r.
Proof.
  unfold parse_req_val. intros H. case_decide.
  - destruct (_parse_bulk bb bstring_init) as [[[s1 t1] b1]|]; simpl in H; [|discriminate].
    case_decide; inversion H as [E]; apply parse_req_done_keys in E; exact E.
  - inversion H as [E]; apply parse_req_done_keys in E; exact E.
Qed.

(** Whatever [parse_req] does, the keys stay within the array. *)
Lemma parse_req_keys_bounded req b st req' b' :
  nelem req <= MAX_BATCH_SIZE ->
  parse_req req b = Some (st, req', b') ->
  nelem req' <= MAX_BATCH_SIZE.
Proof.
  intros Hn H. unfold Redis.parse_req in H.
  case_decide.
  - destruct (_parse_req_hdr req b) as [[[s1 r1] b1]|] eqn:E; simpl in H; [|discriminate].
    apply parse_req_hdr_bounded in E; [|exact Hn].
    case_decide.
    + apply parse_req_val_keys in H. rewrite H. destruct (val r1); exact E.
    + inversion H as [H']. apply parse_req_done_keys in H'. rewrite H'. exact E.
  - apply parse_req_val_keys in H. rewrite H. exact Hn.
Qed.

(** C8 (amended).  [_subrequest_retrieve] reads one key bulk per round and
    always comes to an end.  It returns by the last token: on an Empty token
    [PARSE_OK] if the request holds a key and [PARSE_EOTHER] (not
    [PARSE_EINVALID]) if it holds none; on a key that finds the array full,
    [PARSE_EOTHER] with the [MAX_BATCH_SIZE] keys kept; on any other status,
    that status.  The keys read are appended in order, and neither here nor
    anywhere in [parse_req] do the keys outgrow [MAX_BATCH_SIZE]. *)
Theorem subrequest_retrieve_keys req b :
  nelem req <= MAX_BATCH_SIZE ->
  _subrequest_retrieve_loop (retrieve_fuel req) req b <> Some None /\
  (forall st req' b',
     _subrequest_retrieve req b = Some (st, req', b') ->
     exists ks b_last st_last t,
       bulks b ks b_last /\
       req' = set_keys req (keys req ++ ks) /\
       nelem req' <= MAX_BATCH_SIZE /\
       _parse_bulk b_last bstring_init = Some (st_last, t, b') /\
       st = retrieve_status st_last (nelem req') /\
       (st_last = PARSE_OK -> nelem req' = MAX_BATCH_SIZE)) /\
  (forall st req' b',
     parse_req req b = Some (st, req', b') -> nelem req' <= MAX_BATCH_SIZE).
Proof.
  intros Hn. split; [|split].
  - apply retrieve_fuel_enough. lia.
  - intros st req' b' E. unfold Redis._subrequest_retrieve in E.
    destruct (_subrequest_retrieve_loop (retrieve_fuel req) req b) as [[x|]|] eqn:E';
      simpl in E; try discriminate. injection E as ->.
    eapply retrieve_loop_spec; eauto.
  - intros st req' b'. apply parse_req_keys_bounded. exact Hn.
Qed.

(** C4.  The frame of [test_get], 22 bytes long, is refused: [_parse_bulk]
    wants a [$] where the frame has its [*].  The status is
    [PARSE_EINVALID], no key is read and the cursor stays at the start. *)
Theorem parse_req_get_frame junk :
  length frame_get_foo = 22%nat /\
  parse_req request_reset (buf_holding frame_get_foo junk)
  = Some (PARSE_EINVALID, set_cerror request_reset, buf_holding frame_get_foo junk).
Proof. split; reflexivity. Qed.

(** C2.  [frame_quit] is a frame [parse_req] accepts and consumes whole.  On
    its first 3 bytes [parse_req] returns [PARSE_EINVALID], not
    [PARSE_EUNFIN], and leaves the cursor past the [$]; on its first 7 bytes
    it returns [PARSE_EUNFIN] and leaves the cursor past the length line. *)
Theorem parse_req_quit_prefixes junk :
  parse_req request_reset (buf_holding frame_quit junk)
  = Some (PARSE_OK, set_rstate (set_type request_reset REQ_QUIT) REQ_PARSED,
          set_rpos (buf_holding frame_quit junk) 10) /\
  parse_req request_reset (buf_holding (take 3 frame_quit) junk)
  = Some (PARSE_EINVALID, set_cerror request_reset,
          set_rpos (buf_holding (take 3 frame_quit) junk) 1) /\
  parse_req request_reset (buf_holding (take 7 frame_quit) junk)
  = Some (PARSE_EUNFIN, request_reset,
          set_rpos (buf_holding (take 7 frame_quit) junk) 4).
Proof. repeat split; reflexivity. Qed.

(** C5.  The guard [*num > max / 10] lets through the numbers whose last
    digit is the one that overflows.  With [max = UINT64_MAX], [_check_uint]
    reads 2^64 as 0; with [max = 100] it reads 109; [_parse_bulk_numeric]
    reads the bulk 2^64 as 0; and [parse_req] takes [incrby foo 2^64] as a
    request with [delta = 0].  Each time the status is [PARSE_OK]. *)
Theorem uint_overflow_accepted junk :
  20 <= CC_UINT64_MAXLEN -> 0 < MAX_BATCH_SIZE ->
  _check_uint (buf_holding (bytes "18446744073709551616" ++ CRLF) junk) UINT64_MAX
  = Some (PARSE_OK, 0,
          set_rpos (buf_holding (bytes "18446744073709551616" ++ CRLF) junk) 22) /\
  _check_uint (buf_holding (bytes "109" ++ CRLF) junk) 100
  = Some (PARSE_OK, 109, set_rpos (buf_holding (bytes "109" ++ CRLF) junk) 5) /\
  (exists b, Redis._parse_bulk_numeric CC_UINT64_MAXLEN
               (buf_holding frame_bulk_2_64 junk) UINT64_MAX
             = Some (PARSE_OK, 0, b) /\ rpos b = wpos b) /\
  (exists req b, parse_req request_reset (buf_holding frame_incrby_2_64 junk)
                 = Some (PARSE_OK, req, b) /\
                 type req = REQ_INCR /\ delta req = 0 /\ rpos b = wpos b).
Proof.
  intros Hcc Hmax.
  assert (Hgt : forall (A : Type) (x y : A), (if 20 >? CC_UINT64_MAXLEN then x else y) = y).
  { intros. destruct (Z.gtb_spec 20 CC_UINT64_MAXLEN); [lia|reflexivity]. }
  assert (Hge : forall (A : Type) (x y : A), (if 0 >=? MAX_BATCH_SIZE then x else y) = y).
  { intros. destruct (Z.geb_spec 0 MAX_BATCH_SIZE); [lia|reflexivity]. }
  split; [reflexivity|]. split; [reflexivity|]. split.
  - eexists. unfold Redis._parse_bulk_numeric.
    change (_parse_bulk (buf_holding frame_bulk_2_64 junk) bstring_init)
      with (Some (PARSE_OK,
                  Bstring 20 (bytes "18446744073709551616" ++ CRLF ++ junk),
                  set_rpos (buf_holding frame_bulk_2_64 junk) 27)).
    cbn [mbind option_bind len]. rewrite Hgt.
    split; reflexivity.
  - assert (Hbulk : Redis._parse_bulk_numeric CC_UINT64_MAXLEN
                      (set_rpos (buf_holding frame_incrby_2_64 junk) 21) UINT64_MAX
                    = Some (PARSE_OK, 0, set_rpos (buf_holding frame_incrby_2_64 junk) 48)).
    { unfold Redis._parse_bulk_numeric.
      change (_parse_bulk (set_rpos (buf_holding frame_incrby_2_64 junk) 21) bstring_init)
        with (Some (PARSE_OK,
                    Bstring 20 (bytes "18446744073709551616" ++ CRLF ++ junk),
                    set_rpos (buf_holding frame_incrby_2_64 junk) 48)).
      cbn [mbind option_bind len]. rewrite Hgt. reflexivity. }
    assert (Harith : Redis._subrequest_arithmetic CC_UINT64_MAXLEN MAX_BATCH_SIZE
                       (set_type request_reset REQ_INCR)
                       (set_rpos (buf_holding frame_incrby_2_64 junk) 12)
                     = Some (PARSE_OK,
                             set_delta (set_keys (set_type request_reset REQ_INCR)
                                          [Bstring 3 (bytes "foo" ++ CRLF
                                                      ++ frame_bulk_2_64 ++ junk)]) 0,
                             set_rpos (buf_holding frame_incrby_2_64 junk) 48)).
    { unfold Redis._subrequest_arithmetic.
      change (_parse_bulk (set_rpos (buf_holding frame_incrby_2_64 junk) 12) bstring_init)
        with (Some (PARSE_OK,
                    Bstring 3 (bytes "foo" ++ CRLF ++ frame_bulk_2_64 ++ junk),
                    set_rpos (buf_holding frame_incrby_2_64 junk) 21)).
      cbn [mbind option_bind]. unfold Redis._push_key.
      change (Z.of_nat (length (keys (set_type request_reset REQ_INCR)))) with 0.
      rewrite Hge. cbn [decide parse_rstatus_eq_dec]. 
      destruct (decide (PARSE_OK = PARSE_OK)); [|congruence].
      rewrite Hbulk. reflexivity. }
    eexists _, _. unfold Redis.parse_req, Redis._parse_req_hdr.
    change (_check_req_type request_reset (buf_holding frame_incrby_2_64 junk))
      with (Some (PARSE_OK, set_type request_reset REQ_INCR,
                  set_rpos (buf_holding frame_incrby_2_64 junk) 12)).
    cbn [mbind option_bind]. cbn [decide type set_type request_reset].
    destruct (decide (PARSE_OK = PARSE_OK)); [|congruence].
    destruct (decide (REQ_HDR = REQ_HDR)); [|congruence].
    rewrite Harith. repeat split; reflexivity.
Qed.

End ParseFacts.

(** Witness of [subrequest_retrieve_keys]: one key and the Empty token. *)
Lemma subrequest_retrieve_keys_witness :
  Z.of_nat (length (keys request_reset)) <= 50 /\
  _subrequest_retrieve 50 request_reset
    (buf_holding (bytes "$3" ++ CRLF ++ bytes "foo" ++ CRLF ++ bytes "$" ++ CRLF) [])
  = Some (PARSE_OK, set_keys request_reset [Bstring 3 (bytes "foo" ++ CRLF ++ bytes "$" ++ CRLF)],
          Buf 10 12 (bytes "$3" ++ CRLF ++ bytes "foo" ++ CRLF ++ bytes "$" ++ CRLF)) /\
  forall st req' b',
    parse_req 21 50 request_reset (buf_holding (bytes "$" ++ CRLF) []) = Some (st, req', b') ->
    Z.of_nat (length (keys req')) <= 50.
Proof.
  split; [vm_compute; discriminate|].
  split; [reflexivity|].
  apply (subrequest_retrieve_keys 21 50 request_reset (buf_holding (bytes "$" ++ CRLF) [])).
  vm_compute; discriminate.
Defined.

(** Counterexample to C8 as stated: [get] followed by the Empty token [$]
    and no key.  The status is [PARSE_EOTHER], not [PARSE_EINVALID]. *)
Lemma retrieve_without_key_is_other :
  _parse_bulk (Buf 9 12 (bytes "$3" ++ CRLF ++ bytes "get" ++ CRLF ++ bytes "$" ++ CRLF))
              bstring_init
  = Some (PARSE_EEMPTY, bstring_init,
          Buf 10 12 (bytes "$3" ++ CRLF ++ bytes "get" ++ CRLF ++ bytes "$" ++ CRLF)) /\
  parse_req 21 50 request_reset
    (buf_holding (bytes "$3" ++ CRLF ++ bytes "get" ++ CRLF ++ bytes "$" ++ CRLF) [])
  = Some (PARSE_EOTHER, set_cerror (set_type request_reset REQ_GET),
          buf_holding (bytes "$3" ++ CRLF ++ bytes "get" ++ CRLF ++ bytes "$" ++ CRLF) []) /\
  PARSE_EOTHER <> PARSE_EINVALID.
Proof. repeat split; try reflexivity. discriminate. Qed.

(** Witness of [uint_overflow_accepted], at [CC_UINT64_MAXLEN = 21] and
    [MAX_BATCH_SIZE = 50]. *)
Lemma uint_overflow_accepted_witness :
  20 <= 21 /\ 0 < 50 /\
  exists req b,
    parse_req 21 50 request_reset (buf_holding frame_incrby_2_64 [])
    = Some (PARSE_OK, req, b) /\
    type req = REQ_INCR /\ delta req = 0 /\ rpos b = wpos b.
Proof.
  split; [lia|]. split; [lia|].
  apply (uint_overflow_accepted 21 50 []); lia.
Defined.

(** C1.  [compose_req] turns the request of [test_get] into [frame_get_foo],
    and [parse_req] refuses what it wrote: the round trip the test asks for
    fails.  ([fresh_buf] is a buffer as [buf_create] makes it, 16 KiB with
    its header of 40 bytes.) *)
Theorem compose_parse_get_fails :
  exists b,
    test_compose fresh_buf req_get_foo = Some (22, b) /\
    rpos b = 0 /\ wpos b = 22 /\ take 22 (mem b) = frame_get_foo /\
    parse_req 21 50 request_reset b = Some (PARSE_EINVALID, set_cerror request_reset, b).
Proof.
  eexists. split; [vm_compute; reflexivity|].
  repeat split; vm_compute; reflexivity.
Qed.

End RedisFacts.

(** * Properties of the dynamic buffer *)

Module DBufFacts.
Import DBuf.

Section DBufFacts.

Variable BUF_HDR_SIZE : Z.
Variable buf_init_size : Z.
Variable max_size : Z.

#[local] Abbreviation buf_size := (buf_size BUF_HDR_SIZE).
#[local] Abbreviation buf_create := (buf_create BUF_HDR_SIZE buf_init_size).
#[local] Abbreviation _dbuf_resize := (_dbuf_resize BUF_HDR_SIZE).
#[local] Abbreviation dbuf_double := (dbuf_double BUF_HDR_SIZE max_size).
#[local] Abbreviation dbuf_fit := (dbuf_fit BUF_HDR_SIZE buf_init_size max_size).
#[local] Abbreviation dbuf_shrink := (dbuf_shrink BUF_HDR_SIZE buf_init_size).
#[local] Abbreviation dbuf_step := (dbuf_step BUF_HDR_SIZE buf_init_size max_size).
#[local] Abbreviation dbuf_run := (dbuf_run BUF_HDR_SIZE buf_init_size max_size).
#[local] Abbreviation dbuf_config_ok := (dbuf_config_ok BUF_HDR_SIZE buf_init_size max_size).
#[local] Abbreviation dbuf_sized := (dbuf_sized BUF_HDR_SIZE buf_init_size max_size).
#[local] Abbreviation quantized := (quantized BUF_HDR_SIZE buf_init_size).

Lemma pow2_pos k : 0 < 2 ^ k \/ k < 0.
Proof. destruct (Z_lt_le_dec k 0); [right; lia|left; apply Z.pow_pos_nonneg; lia]. Qed.

(** Under a sound configuration doubling orders the sizes as the exponents. *)
Lemma scaled_lt_exp j k :
  0 < buf_init_size -> 0 <= j -> 0 <= k ->
  buf_init_size * 2 ^ j < buf_init_size * 2 ^ k -> j < k.
Proof.
  intros Hi Hj Hk H. destruct (Z_lt_le_dec j k) as [|Hle]; [assumption|].
  assert (2 ^ k <= 2 ^ j) by (apply Z.pow_le_mono_r; lia). nia.
Qed.

Lemma scaled_double k :
  0 <= k -> buf_init_size * 2 ^ k * 2 = buf_init_size * 2 ^ (k + 1).
Proof. intros Hk. rewrite Z.pow_add_r by lia. lia. Qed.

(** A sized buffer has the size it has before the cast. *)
Lemma sized_size power b :
  dbuf_config_ok power -> dbuf_sized b ->
  buf_size b = BUF_HDR_SIZE + buf_end b /\ 0 < buf_size b <= max_size.
Proof.
  intros (Hi & Hh & Hh0 & Hp & Hm & H32) (Hle & k & Hk & E).
  assert (0 < BUF_HDR_SIZE + buf_end b).
  { rewrite E. destruct (pow2_pos k); [nia|lia]. }
  unfold DBuf.buf_size, uint32. rewrite Z.mod_small by lia. lia.
Qed.

Lemma sized_quantized power b :
  dbuf_config_ok power -> dbuf_sized b -> quantized b.
Proof.
  intros Hc Hs. destruct (sized_size power b Hc Hs) as [E _].
  destruct Hs as (_ & k & Hk & E'). exists k. split; [assumption|]. congruence.
Qed.

(** [_dbuf_resize] to a size that holds the header gives that size and keeps
    the content; the cursors keep their addresses. *)
Lemma dbuf_resize_ok d fresh b nsize :
  BUF_HDR_SIZE <= nsize ->
  exists b', _dbuf_resize (Some (d, fresh)) b nsize = Some (CC_OK, b') /\
             BUF_HDR_SIZE + buf_end b' = nsize /\
             rpos b' = rpos b - d /\ wpos b' = wpos b - d /\
             (BUF_HDR_SIZE + buf_end b <= nsize ->
              take (length (mem b)) (mem b') = mem b).
Proof.
  intros H. unfold DBuf._dbuf_resize.
  destruct (Z.ltb_spec nsize BUF_HDR_SIZE); [lia|].
  eexists. split; [reflexivity|]. unfold buf_end. simpl.
  rewrite length_resize. repeat split; [lia|].
  intros Hle. rewrite take_resize_le by (unfold buf_end in Hle; lia).
  rewrite resize_le by (rewrite length_app; lia).
  rewrite take_app_le by lia. apply firstn_all.
Qed.

(** [dbuf_double] on a sized buffer. *)
Lemma dbuf_double_spec power b d fresh :
  dbuf_config_ok power -> dbuf_sized b ->
  if 2 * buf_size b >? max_size
  then forall nbuf, dbuf_double nbuf b = Some (CC_ERROR, b)
  else dbuf_double None b = Some (CC_ENOMEM, b) /\
       exists b', dbuf_double (Some (d, fresh)) b = Some (CC_OK, b') /\
                  buf_size b' = 2 * buf_size b /\ dbuf_sized b' /\
                  rpos b' = rpos b - d /\ wpos b' = wpos b - d /\
                  take (length (mem b)) (mem b') = mem b.
Proof.
  intros Hc Hs. destruct (sized_size power b Hc Hs) as [E Hr].
  pose proof Hc as (Hi & Hh & Hh0 & Hp & Hm & H32).
  pose proof Hs as (Hle & k & Hk & Ek).
  assert (0 <= buf_end b) by (unfold buf_end; lia).
  assert (En : uint32 (buf_size b * 2) = 2 * buf_size b).
  { unfold uint32. rewrite Z.mod_small; lia. }
  unfold DBuf.dbuf_double. rewrite En.
  destruct (Z.gtb_spec (2 * buf_size b) max_size) as [Hgt|Hle2]; [reflexivity|].
  split; [reflexivity|].
  destruct (dbuf_resize_ok d fresh b (2 * buf_size b)) as (b' & R & Ee & Er & Ew & Et); [lia|].
  exists b'. rewrite R. split; [reflexivity|].
  assert (Es : dbuf_sized b').
  { split; [lia|]. exists (k + 1). split; [lia|].
    rewrite Ee, E, Ek, <- scaled_double by lia. lia. }
  destruct (sized_size power b' Hc Es) as [E' _].
  split; [lia|]. split; [exact Es|]. split; [exact Er|]. split; [exact Ew|].
  apply Et; lia.
Qed.

(** The loop of [dbuf_fit] stops at the first doubling that reaches the
    target. *)
Lemma dbuf_fit_loop_spec power target fuel : forall k,
  0 < buf_init_size -> max_size = buf_init_size * 2 ^ power -> 2 * max_size < 2 ^ 32 ->
  target <= max_size -> 0 <= k <= power -> power - k < Z.of_nat fuel ->
  (forall j, 0 <= j < k -> buf_init_size * 2 ^ j < target) ->
  exists k', k <= k' <= power /\
    dbuf_fit_loop fuel (buf_init_size * 2 ^ k) target = Some (buf_init_size * 2 ^ k') /\
    target <= buf_init_size * 2 ^ k' /\
    (forall j, 0 <= j < k' -> buf_init_size * 2 ^ j < target).
Proof.
  induction fuel as [|fuel IH]; intros k Hi Hm H32 Ht Hk Hf Hmin; [lia|].
  simpl. destruct (Z.ltb_spec (buf_init_size * 2 ^ k) target) as [Hlt|Hge].
  - assert (k < power).
    { apply scaled_lt_exp; try lia. }
    assert (Hle : buf_init_size * 2 ^ (k + 1) <= max_size).
    { rewrite Hm. assert (2 ^ (k + 1) <= 2 ^ power) by (apply Z.pow_le_mono_r; lia). nia. }
    assert (0 < buf_init_size * 2 ^ (k + 1)).
    { destruct (pow2_pos (k + 1)); [nia|lia]. }
    rewrite scaled_double by lia. unfold uint32. rewrite Z.mod_small by lia.
    destruct (IH (k + 1)) as (k' & Hk' & E & Hr & Hmin'); try lia.
    + intros j Hj. destruct (Z.eq_dec j k) as [->|]; [assumption|apply Hmin; lia].
    + exists k'. repeat split; auto; lia.
  - exists k. repeat split; auto; lia.
Qed.

(** [dbuf_fit] on a sized buffer. *)
Lemma dbuf_fit_spec power b d fresh cap :
  dbuf_config_ok power -> dbuf_sized b ->
  if cap + BUF_HDR_SIZE >? max_size
  then forall nbuf, dbuf_fit nbuf b cap = Some (CC_ERROR, b)
  else dbuf_fit None b cap = Some (CC_ENOMEM, b) /\
       exists b' k, dbuf_fit (Some (d, fresh)) b cap = Some (CC_OK, b') /\
                    dbuf_sized b' /\
                    0 <= k /\ buf_size b' = buf_init_size * 2 ^ k /\
                    cap + BUF_HDR_SIZE <= buf_size b' /\
                    (forall j, 0 <= j -> cap + BUF_HDR_SIZE <= buf_init_size * 2 ^ j -> k <= j) /\
                    rpos b' = rpos b - d /\ wpos b' = wpos b - d.
Proof.
  intros Hc Hs.
  pose proof Hc as (Hi & Hh & Hh0 & Hp & Hm & H32).
  unfold DBuf.dbuf_fit.
  destruct (Z.gtb_spec (cap + BUF_HDR_SIZE) max_size) as [Hgt|Hle]; [reflexivity|].
  assert (Hpow : power < 31).
  { destruct (Z_lt_le_dec power 31); [assumption|].
    assert (2 ^ 31 <= 2 ^ power) by (apply Z.pow_le_mono_r; lia).
    change (2 ^ 32) with (2 * 2 ^ 31) in H32. nia. }
  destruct (dbuf_fit_loop_spec power (cap + BUF_HDR_SIZE) 33 0)
    as (k & Hk & E & Hr & Hmin); try lia.
  rewrite Z.pow_0_r, Z.mul_1_r in E. rewrite E. cbn [mbind option_bind].
  split; [reflexivity|].
  assert (Hkm : buf_init_size * 2 ^ k <= max_size).
  { rewrite Hm. assert (2 ^ k <= 2 ^ power) by (apply Z.pow_le_mono_r; lia). nia. }
  assert (buf_init_size <= buf_init_size * 2 ^ k).
  { assert (2 ^ 0 <= 2 ^ k) by (apply Z.pow_le_mono_r; lia).
    change (2 ^ 0) with 1 in *. nia. }
  destruct (dbuf_resize_ok d fresh b (buf_init_size * 2 ^ k)) as (b' & R & Ee & Er & Ew & _);
    [lia|].
  exists b', k. rewrite R.
  assert (Es : dbuf_sized b').
  { split; [lia|]. exists k. split; [lia|]. assumption. }
  destruct (sized_size power b' Hc Es) as [E' _].
  split; [reflexivity|]. split; [exact Es|]. split; [lia|]. split; [lia|].
  split; [lia|]. split; [|split; assumption].
  intros j Hj Hcap. destruct (Z_lt_le_dec j k) as [Hjk|]; [|lia].
  specialize (Hmin j ltac:(lia)). lia.
Qed.

(** [dbuf_shrink] on a sized buffer. *)
Lemma dbuf_shrink_spec power b d fresh :
  dbuf_config_ok power -> dbuf_sized b ->
  dbuf_shrink None b = Some (CC_ENOMEM, b) /\
  exists b', dbuf_shrink (Some (d, fresh)) b = Some (CC_OK, b') /\
             dbuf_sized b' /\ buf_size b' = buf_init_size.
Proof.
  intros Hc Hs. pose proof Hc as (Hi & Hh & Hh0 & Hp & Hm & H32).
  split; [reflexivity|]. unfold DBuf.dbuf_shrink.
  destruct (dbuf_resize_ok d fresh b buf_init_size) as (b' & R & Ee & _); [lia|].
  exists b'. rewrite R.
  assert (Es : dbuf_sized b').
  { split.
    - rewrite Ee, Hm. assert (2 ^ 0 <= 2 ^ power) by (apply Z.pow_le_mono_r; lia).
      change (2 ^ 0) with 1 in *. nia.
    - exists 0. rewrite Z.pow_0_r. split; lia. }
  destruct (sized_size power b' Hc Es) as [E' _].
  split; [reflexivity|]. split; [exact Es|]. lia.
Qed.

(** Every call keeps a sized buffer sized, whatever [cc_realloc] answers. *)
Lemma dbuf_step_sized power b op :
  dbuf_config_ok power -> dbuf_sized b ->
  exists st b', dbuf_step b op = Some (st, b') /\ dbuf_sized b'.
Proof.
  intros Hc Hs. destruct op as [[[d fresh]|]|cap [[d fresh]|]|[[d fresh]|]]; cbn [DBuf.dbuf_step].
  - pose proof (dbuf_double_spec power b d fresh Hc Hs) as H.
    destruct (2 * buf_size b >? max_size).
    + rewrite H. eauto.
    + destruct H as (_ & b' & -> & _ & Hs' & _). eauto.
  - pose proof (dbuf_double_spec power b 0 [] Hc Hs) as H.
    destruct (2 * buf_size b >? max_size).
    + rewrite H. eauto.
    + destruct H as (-> & _). eauto.
  - pose proof (dbuf_fit_spec power b d fresh cap Hc Hs) as H.
    destruct (cap + BUF_HDR_SIZE >? max_size).
    + rewrite H. eauto.
    + destruct H as (_ & b' & k & -> & Hs' & _). eauto.
  - pose proof (dbuf_fit_spec power b 0 [] cap Hc Hs) as H.
    destruct (cap + BUF_HDR_SIZE >? max_size).
    + rewrite H. eauto.
    + destruct H as (-> & _). eauto.
  - destruct (dbuf_shrink_spec power b d fresh Hc Hs) as (_ & b' & -> & Hs' & _). eauto.
  - destruct (dbuf_shrink_spec power b 0 [] Hc Hs) as (-> & _). eauto.
Qed.

Lemma dbuf_run_sized power ops : forall b,
  dbuf_config_ok power -> dbuf_sized b ->
  exists b', dbuf_run b ops = Some b' /\ dbuf_sized b'.
Proof.
  induction ops as [|op ops IH]; intros b Hc Hs; cbn [DBuf.dbuf_run]; [eauto|].
  destruct (dbuf_step_sized power b op Hc Hs) as (st & b1 & -> & Hs1).
  cbn [mbind option_bind].
  apply IH; assumption.
Qed.

Lemma buf_create_sized power fresh :
  dbuf_config_ok power -> dbuf_sized (buf_create fresh).
Proof.
  intros (Hi & Hh & Hh0 & Hp & Hm & H32). unfold DBuf.dbuf_sized, DBuf.buf_create, buf_end.
  simpl. rewrite length_resize.
  replace (BUF_HDR_SIZE + Z.of_nat (Z.to_nat (buf_init_size - BUF_HDR_SIZE)))
    with buf_init_size by lia.
  split.
  - rewrite Hm. assert (2 ^ 0 <= 2 ^ power) by (apply Z.pow_le_mono_r; lia).
    change (2 ^ 0) with 1 in *. nia.
  - exists 0. rewrite Z.pow_0_r. split; lia.
Qed.


End DBufFacts.


End DBufFacts.

(** * Decimal numbers as the composer prints and the parser reads them *)

Module DecFacts.
Import Redis.

Lemma digits_val_from_app acc ds es :
  digits_val_from acc (ds ++ es) = digits_val_from (digits_val_from acc ds) es.
Proof. unfold digits_val_from. apply foldl_app. Qed.

Lemma digits_val_from_mono ds : forall acc,
  0 <= acc -> Forall (fun c => isdigit c = true) ds ->
  acc <= digits_val_from acc ds.
Proof.
  induction ds as [|c ds IH]; intros acc Ha Hd; [reflexivity|].
  inversion Hd as [|? ? Hc Hd']; subst. cbn [digits_val_from foldl].
  unfold isdigit in Hc. apply andb_prop in Hc as [H1 H2].
  apply Z.leb_le in H1, H2.
  specialize (IH (acc * 10 + (c - 48)) ltac:(lia) Hd').
  unfold digits_val_from in IH. lia.
Qed.

(** With [k] digits more the number is at least [10 ^ k] times as much. *)
Lemma digits_val_from_scale ds : forall acc,
  0 <= acc -> Forall (fun c => isdigit c = true) ds ->
  acc * 10 ^ Z.of_nat (length ds) <= digits_val_from acc ds.
Proof.
  induction ds as [|c ds IH]; intros acc Ha Hd; [cbn; lia|].
  inversion Hd as [|? ? Hc Hd']; subst. cbn [digits_val_from foldl length].
  unfold isdigit in Hc. apply andb_prop in Hc as [H1 H2].
  apply Z.leb_le in H1, H2.
  specialize (IH (acc * 10 + (c - 48)) ltac:(lia) Hd').
  unfold digits_val_from in IH.
  rewrite Nat2Z.inj_succ, Z.pow_succ_r by lia.
  assert (0 <= 10 ^ Z.of_nat (length ds)) by (apply Z.pow_nonneg; lia).
  nia.
Qed.

(** The digits of a [Decimal.uint], as bytes. *)
Lemma uint_bytes_digits d :
  Forall (fun c => isdigit c = true) (bytes (NilEmpty.string_of_uint d)).
Proof. induction d; cbn; constructor; (reflexivity || assumption). Qed.

Lemma uint_bytes_acc d : forall acc,
  digits_val_from (Z.pos acc) (bytes (NilEmpty.string_of_uint d))
  = Z.pos (Pos.of_uint_acc d acc).
Proof.
  induction d; intros acc; [reflexivity| ..];
    cbn [NilEmpty.string_of_uint Pos.of_uint_acc];
    (etransitivity; [|apply IHd]); cbn; f_equal; lia.
Qed.

Lemma uint_bytes_val d :
  digits_val (bytes (NilEmpty.string_of_uint d)) = Z.of_N (Pos.of_uint d).
Proof.
  unfold digits_val. induction d; [reflexivity|exact IHd| ..];
    cbn [NilEmpty.string_of_uint Pos.of_uint];
    (etransitivity; [|apply uint_bytes_acc]); reflexivity.
Qed.

Lemma to_uint_nonnil m : N.to_uint m <> Decimal.Nil.
Proof.
  rewrite <- (DecimalN.Unsigned.of_to m) at 1.
  rewrite DecimalN.Unsigned.to_of. apply DecimalFacts.unorm_nonnil.
Qed.

Lemma dec_u_eq n :
  dec_u n = bytes (NilEmpty.string_of_uint (N.to_uint (Z.to_N n))).
Proof.
  unfold dec_u, NilZero.string_of_uint.
  pose proof (to_uint_nonnil (Z.to_N n)).
  destruct (N.to_uint (Z.to_N n)); (contradiction || reflexivity).
Qed.

(** What [%u] prints is a run of digits, not empty, that denotes the
    number. *)
Lemma dec_u_digits n : Forall (fun c => isdigit c = true) (dec_u n).
Proof. rewrite dec_u_eq. apply uint_bytes_digits. Qed.

Lemma dec_u_val n : 0 <= n -> digits_val (dec_u n) = n.
Proof.
  intros Hn. rewrite dec_u_eq, uint_bytes_val.
  change (Pos.of_uint (N.to_uint (Z.to_N n))) with (N.of_uint (N.to_uint (Z.to_N n))).
  rewrite DecimalN.Unsigned.of_to. lia.
Qed.

Lemma dec_u_nonempty n : dec_u n <> [].
Proof.
  rewrite dec_u_eq. pose proof (to_uint_nonnil (Z.to_N n)).
  destruct (N.to_uint (Z.to_N n)); (contradiction || discriminate).
Qed.

Lemma nzhead_no_zero d :
  match Decimal.nzhead d with Decimal.D0 _ => False | _ => True end.
Proof. induction d; cbn; auto. Qed.

(** A number is printed without leading zeros: the text is [0], or starts
    with a digit other than [0]. *)
Lemma dec_u_head n :
  dec_u n = [48] \/ exists c rest, dec_u n = c :: rest /\ 49 <= c <= 57.
Proof.
  rewrite dec_u_eq.
  assert (E : N.to_uint (Z.to_N n) = Decimal.unorm (N.to_uint (Z.to_N n))).
  { rewrite <- (DecimalN.Unsigned.of_to (Z.to_N n)) at 1.
    apply DecimalN.Unsigned.to_of. }
  rewrite E. unfold Decimal.unorm.
  pose proof (nzhead_no_zero (N.to_uint (Z.to_N n))) as H.
  destruct (Decimal.nzhead (N.to_uint (Z.to_N n))); [left; reflexivity|contradiction| ..];
    right; cbn; eexists _, _; (split; [reflexivity|lia]).
Qed.

(** A number below [10 ^ k] is printed with [k] digits at most. *)
Lemma dec_u_length n k :
  0 <= n < 10 ^ k -> 1 <= k -> Z.of_nat (length (dec_u n)) <= k.
Proof.
  intros Hn Hk. destruct (dec_u_head n) as [E|(c & rest & E & Hc)].
  - rewrite E. cbn. lia.
  - pose proof (dec_u_val n ltac:(lia)) as Hv.
    pose proof (dec_u_digits n) as Hd. rewrite E in Hv, Hd.
    apply Forall_cons in Hd as [_ Hd'].
    unfold digits_val in Hv. cbn [digits_val_from foldl] in Hv.
    pose proof (digits_val_from_scale rest (c - 48) ltac:(lia) Hd') as Hs.
    unfold digits_val_from in Hs.
    replace (0 * 10 + (c - 48)) with (c - 48) in Hv by lia. rewrite Hv in Hs.
    rewrite E. cbn [length]. rewrite Nat2Z.inj_succ.
    destruct (Z_lt_le_dec (Z.of_nat (length rest)) k) as [|Hge]; [lia|].
    assert (10 ^ k <= 10 ^ Z.of_nat (length rest)) by (apply Z.pow_le_mono_r; lia).
    assert (0 < 10 ^ k) by (apply Z.pow_pos_nonneg; lia).
    assert (1 * 10 ^ Z.of_nat (length rest) <= (c - 48) * 10 ^ Z.of_nat (length rest))
      by (apply Z.mul_le_mono_nonneg_r; lia).
    lia.
Qed.

End DecFacts.

(** * The integer reader of the parser *)

Module UintFacts.
Import Redis.
Import DecFacts.

Lemma uint64_small x : 0 <= x < 2 ^ 64 -> uint64 x = x.
Proof. intros H. unfold uint64. apply Z.mod_small. exact H. Qed.

Lemma uint64_range x : 0 <= uint64 x < 2 ^ 64.
Proof. unfold uint64. apply Z.mod_pos_bound. lia. Qed.

Lemma uint64_le x : 0 <= x -> uint64 x <= x.
Proof. intros H. unfold uint64. apply Z.mod_le; lia. Qed.

(** One round of the loop computes modulo 2^64. *)
Lemma uint64_step num c :
  uint64 (uint64 (num * 10) + (c - 48)) = uint64 (num * 10 + (c - 48)).
Proof. unfold uint64. apply Z.add_mod_idemp_l. lia. Qed.

Lemma digits_val_from_mod ds : forall x y,
  uint64 x = uint64 y ->
  uint64 (digits_val_from x ds) = uint64 (digits_val_from y ds).
Proof.
  induction ds as [|c ds IH]; intros x y H; [exact H|].
  cbn [digits_val_from foldl]. apply IH. unfold uint64 in *.
  rewrite <- (Z.add_mod_idemp_l (x * 10)), <- (Z.add_mod_idemp_l (y * 10)) by lia.
  rewrite <- (Z.mul_mod_idemp_l x), <- (Z.mul_mod_idemp_l y) by lia.
  rewrite H. reflexivity.
Qed.

(** The loop of [_check_uint] left through its condition: it has read a run
    of digits up to a byte that is none, and holds their number modulo 2^64,
    which the guard keeps below [max / 10 * 10 + 10]. *)
Lemma check_uint_loop_left b max tl : forall num p num' p',
  0 <= max -> 0 <= num ->
  _check_uint_loop b max tl num p = Some (Left num' p') ->
  exists ds c rest,
    tl = ds ++ c :: rest /\ Forall (fun c => isdigit c = true) ds /\
    isdigit c = false /\ p' = p + Z.of_nat (length ds) /\
    (ds = [] -> num' = num) /\
    (ds <> [] -> num' = uint64 (digits_val_from num ds) /\
                 0 <= num' <= max / 10 * 10 + 9 /\ buf_rsize b <> 0).
Proof.
  induction tl as [|c tl IH]; intros num p num' p' Hm Hn H; [discriminate|].
  cbn [_check_uint_loop] in H. destruct (isdigit c) eqn:Ec.
  - destruct (Z.eqb_spec (buf_rsize b) 0) as [|Hr]; [discriminate|].
    destruct (Z.gtb_spec num (max / 10)) as [|Hg]; [discriminate|].
    rewrite uint64_step in H.
    assert (Hb : 0 <= num * 10 + (c - 48) <= max / 10 * 10 + 9).
    { unfold isdigit in Ec. apply andb_prop in Ec as [H1 H2].
      apply Z.leb_le in H1, H2. lia. }
    pose proof (uint64_range (num * 10 + (c - 48))) as Hu.
    pose proof (uint64_le (num * 10 + (c - 48)) ltac:(lia)) as Hle.
    destruct (IH (uint64 (num * 10 + (c - 48))) (p + 1) num' p' Hm ltac:(lia) H) as (ds & c' & rest & -> & Hd & Hc & -> & H0 & H1).
    exists (c :: ds), c', rest. split; [reflexivity|]. split; [constructor; assumption|].
    split; [exact Hc|]. split; [cbn [length]; lia|]. split; [discriminate|].
    intros _. cbn [digits_val_from foldl].
    destruct ds as [|d ds].
    + rewrite (H0 eq_refl). cbn [foldl]. split; [reflexivity|]. split; [lia|exact Hr].
    + destruct (H1 ltac:(discriminate)) as (E & Hb' & _).
      split; [|split; [exact Hb'|exact Hr]].
      rewrite E. apply digits_val_from_mod. unfold uint64. apply Z.mod_mod. lia.
  - injection H as <- <-. exists [], c, tl. split; [reflexivity|]. split; [constructor|].
    split; [exact Ec|]. split; [cbn; lia|]. split; [reflexivity|]. intros []. reflexivity.
Qed.

(** A run of digits whose number is at most [max] is read to its end. *)
Lemma check_uint_loop_reads b max ds : forall num p c rest,
  Forall (fun c => isdigit c = true) ds -> isdigit c = false ->
  0 <= num -> digits_val_from num ds <= max -> max < 2 ^ 64 ->
  (ds <> [] -> buf_rsize b <> 0) ->
  _check_uint_loop b max (ds ++ c :: rest) num p
  = Some (Left (digits_val_from num ds) (p + Z.of_nat (length ds))).
Proof.
  induction ds as [|d ds IH]; intros num p c rest Hd Hc Hn Hv Hm Hr.
  - cbn. rewrite Hc. rewrite Z.add_0_r. reflexivity.
  - apply Forall_cons in Hd as [Hd0 Hd].
    cbn [app _check_uint_loop]. rewrite Hd0.
    destruct (Z.eqb_spec (buf_rsize b) 0) as [E|_]; [exfalso; apply Hr; [discriminate|exact E]|].
    cbn [digits_val_from foldl] in Hv |- *.
    assert (Hb : 0 <= d - 48 <= 9).
    { unfold isdigit in Hd0. apply andb_prop in Hd0 as [H1 H2].
      apply Z.leb_le in H1, H2. lia. }
    pose proof (digits_val_from_mono ds (num * 10 + (d - 48)) ltac:(lia) Hd) as Hmono.
    unfold digits_val_from in Hmono.
    assert (num <= max / 10) by (apply Z.div_le_lower_bound; lia).
    destruct (Z.gtb_spec num (max / 10)); [lia|].
    rewrite uint64_step.
    rewrite (uint64_small (num * 10 + (d - 48))) by lia.
    rewrite (IH (num * 10 + (d - 48)) (p + 1) c rest Hd Hc ltac:(lia) Hv Hm ltac:(intros _; apply Hr; discriminate)).
    cbn [length]. do 2 f_equal. lia.
Qed.

Lemma check_uint_loop_returned b max tl : forall num p s n,
  _check_uint_loop b max tl num p = Some (Returned s n) -> s <> PARSE_OK.
Proof.
  induction tl as [|c tl IH]; intros num p s n H; [discriminate|].
  cbn [_check_uint_loop] in H. destruct (isdigit c); [|discriminate].
  destruct (buf_rsize b =? 0); [injection H as <- _; discriminate|].
  destruct (num >? max / 10); [injection H as <- _; discriminate|].
  eapply IH; exact H.
Qed.

(** A pointer [i] bytes into what [mem_from] shows. *)
Lemma peek_mem_from b p i :
  0 <= p -> peek b (p + Z.of_nat i) = mem_from b p !! i.
Proof.
  intros Hp. unfold peek, mem_from.
  destruct (Z.ltb_spec (p + Z.of_nat i) 0); [lia|].
  rewrite lookup_drop. f_equal. lia.
Qed.

(** X5.  What [_check_uint] has read when it answers [PARSE_OK]: a run of
    digits, not empty, with CR LF behind it, and the cursor is moved behind
    the LF.  The number it gives is the number of the digits modulo 2^64,
    and it is at most [max / 10 * 10 + 9]: the guard [*num > max / 10] lets
    a number pass that is above [max], but by no more than 9. *)
Theorem check_uint_accepts b max num b' :
  0 <= rpos b -> 0 <= max ->
  _check_uint b max = Some (PARSE_OK, num, b') ->
  exists ds rest,
    mem_from b (rpos b) = ds ++ CRLF ++ rest /\
    ds <> [] /\ Forall (fun c => isdigit c = true) ds /\
    num = uint64 (digits_val ds) /\ 0 <= num <= max / 10 * 10 + 9 /\
    b' = set_rpos b (rpos b + Z.of_nat (length ds) + CRLF_LEN) /\
    buf_rsize b <> 0 /\ wpos b <> rpos b + Z.of_nat (length ds) + 1.
Proof.
  intros Hr Hm H. unfold _check_uint in H.
  destruct (_check_uint_loop b max (mem_from b (rpos b)) 0 (rpos b)) as [[s n|n p']|] eqn:E;
    cbn [mbind option_bind] in H; [| |discriminate].
  { injection H as -> _ _. apply check_uint_loop_returned in E. contradiction. }
  destruct (check_uint_loop_left b max _ 0 (rpos b) n p' Hm ltac:(lia) E)
    as (ds & c & rest & Em & Hd & Hc & -> & H0 & H1).
  destruct (Z.eqb_spec (rpos b + Z.of_nat (length ds)) (rpos b)) as [|Hne];
    [discriminate|].
  assert (Hds : ds <> []) by (intros ->; cbn in Hne; lia).
  destruct (H1 Hds) as (En & Hb & Hrs).
  unfold _try_crlf in H.
  rewrite (peek_mem_from b (rpos b) (length ds) Hr), Em in H.
  rewrite lookup_app_r, Nat.sub_diag in H by lia. cbn [lookup list_lookup mbind option_bind] in H.
  destruct (Z.eqb_spec c CR) as [->|]; cbn [negb] in H;
    [|cbn in H; destruct (decide (PARSE_EINVALID = PARSE_OK)); discriminate].
  destruct (Z.eqb_spec (wpos b) (rpos b + Z.of_nat (length ds) + 1)) as [|Hw];
    [cbn in H; destruct (decide (PARSE_EUNFIN = PARSE_OK)); discriminate|].
  replace (rpos b + Z.of_nat (length ds) + 1)
    with (rpos b + Z.of_nat (S (length ds))) in H by lia.
  rewrite (peek_mem_from b (rpos b) (S (length ds)) Hr), Em in H.
  rewrite lookup_app_r in H by lia.
  replace (S (length ds) - length ds)%nat with 1%nat in H by lia.
  destruct rest as [|d rest]; [discriminate|].
  cbn [lookup list_lookup mbind option_bind] in H.
  destruct (Z.eqb_spec d LF) as [->|]; cbn in H;
    [|destruct (decide (PARSE_EINVALID = PARSE_OK)); discriminate].
  destruct (decide (PARSE_OK = PARSE_OK)); [|contradiction].
  injection H as <- <-. exists ds, rest.
  split; [exact Em|]. split; [exact Hds|]. split; [exact Hd|].
  split; [exact En|]. split; [exact Hb|]. split; [reflexivity|]. split; assumption.
Qed.

(** X6.  [_check_uint] reads every number in range.  When the bytes at the
    cursor are a run of digits, not empty, whose number is at most [max],
    with CR LF behind them, and the buffer says it has something to read and
    does not end between the CR and the LF, the answer is [PARSE_OK] with
    that number, leading zeros or not, and the cursor behind the LF. *)
Theorem check_uint_reads b max ds rest :
  0 <= rpos b -> mem_from b (rpos b) = ds ++ CRLF ++ rest ->
  ds <> [] -> Forall (fun c => isdigit c = true) ds ->
  digits_val ds <= max -> max < 2 ^ 64 ->
  buf_rsize b <> 0 -> wpos b <> rpos b + Z.of_nat (length ds) + 1 ->
  _check_uint b max
  = Some (PARSE_OK, digits_val ds,
          set_rpos b (rpos b + Z.of_nat (length ds) + CRLF_LEN)).
Proof.
  intros Hr Em Hds Hd Hv Hm Hrs Hw. unfold _check_uint. rewrite Em.
  change (ds ++ CRLF ++ rest) with (ds ++ CR :: LF :: rest).
  rewrite (check_uint_loop_reads b max ds 0 (rpos b) CR (LF :: rest) Hd eq_refl
             ltac:(lia) Hv Hm ltac:(auto)).
  cbn [mbind option_bind].
  destruct (Z.eqb_spec (rpos b + Z.of_nat (length ds)) (rpos b)) as [E|_].
  { destruct ds; [contradiction|cbn [length] in E; lia]. }
  unfold _try_crlf.
  rewrite (peek_mem_from b (rpos b) (length ds) Hr), Em.
  rewrite lookup_app_r, Nat.sub_diag by lia. cbn [lookup list_lookup mbind option_bind].
  change (CRLF ++ rest) with (CR :: LF :: rest). cbn [lookup list_lookup mbind option_bind].
  rewrite Z.eqb_refl. cbn [negb].
  destruct (Z.eqb_spec (wpos b) (rpos b + Z.of_nat (length ds) + 1)); [contradiction|].
  replace (rpos b + Z.of_nat (length ds) + 1)
    with (rpos b + Z.of_nat (S (length ds))) by lia.
  rewrite (peek_mem_from b (rpos b) (S (length ds)) Hr), Em.
  rewrite lookup_app_r by lia.
  replace (S (length ds) - length ds)%nat with 1%nat by lia.
  cbn. reflexivity.
Qed.

(** Witness of [check_uint_accepts]: 109 read with [max = 100]. *)
Lemma check_uint_accepts_witness :
  0 <= rpos (buf_holding (bytes "109" ++ CRLF) []) /\ 0 <= 100 /\
  _check_uint (buf_holding (bytes "109" ++ CRLF) []) 100
  = Some (PARSE_OK, 109, set_rpos (buf_holding (bytes "109" ++ CRLF) []) 5) /\
  exists ds rest,
    mem_from (buf_holding (bytes "109" ++ CRLF) []) 0 = ds ++ CRLF ++ rest /\
    109 = uint64 (digits_val ds) /\ 0 <= 109 <= 100 / 10 * 10 + 9.
Proof.
  split; [cbn; lia|]. split; [lia|]. split; [reflexivity|].
  destruct (check_uint_accepts (buf_holding (bytes "109" ++ CRLF) []) 100 109 _
              ltac:(cbn; lia) ltac:(lia) eq_refl)
    as (ds & rest & Em & _ & _ & En & Hb & _).
  exists ds, rest. split; [exact Em|]. split; [exact En|exact Hb].
Defined.

(** Witness of [check_uint_reads]: 007 read as 7. *)
Lemma check_uint_reads_witness :
  _check_uint (buf_holding (bytes "007" ++ CRLF) []) 10
  = Some (PARSE_OK, 7, set_rpos (buf_holding (bytes "007" ++ CRLF) []) 5).
Proof.
  apply (check_uint_reads (buf_holding (bytes "007" ++ CRLF) []) 10 (bytes "007") []).
  - cbn. lia.
  - reflexivity.
  - discriminate.
  - repeat constructor.
  - vm_compute. discriminate.
  - reflexivity.
  - vm_compute. discriminate.
  - vm_compute. discriminate.
Defined.

End UintFacts.

(** * Bulk strings *)

Module BulkFacts.
Import Redis.
Import DecFacts.
Import UintFacts.

Lemma uint32_small x : 0 <= x < 2 ^ 32 -> uint32 x = x.
Proof. intros H. unfold uint32. apply Z.mod_small. exact H. Qed.

Lemma mem_from_app b p l1 l2 :
  0 <= p -> mem_from b p = l1 ++ l2 -> mem_from b (p + Z.of_nat (length l1)) = l2.
Proof.
  unfold mem_from. intros Hp H.
  replace (Z.to_nat (p + Z.of_nat (length l1))) with (Z.to_nat p + length l1)%nat by lia.
  rewrite <- drop_drop, H. apply drop_app_length.
Qed.

Lemma mem_from_cons b p c l :
  0 <= p -> mem_from b p = c :: l -> mem_from b (p + 1) = l.
Proof. intros Hp H. apply (mem_from_app b p [c] l Hp H). Qed.

(** [_parse_bulk] on memory that holds a bulk at the cursor: [$], the
    length in digits, CR LF, as many bytes, and two bytes more.  The
    conditions on [wpos] are the tests the code makes. *)
Lemma parse_bulk_reads b t0 ds payload x y rest :
  0 <= rpos b < 2 ^ 31 -> 0 <= wpos b < 2 ^ 31 ->
  mem_from b (rpos b) = [36] ++ ds ++ CRLF ++ payload ++ [x; y] ++ rest ->
  ds <> [] -> Forall (fun c => isdigit c = true) ds ->
  digits_val ds = Z.of_nat (length payload) ->
  Z.of_nat (length payload) + 2 < 2 ^ 32 ->
  wpos b <> rpos b + 1 -> wpos b <> rpos b + 1 + Z.of_nat (length ds) + 1 ->
  Z.of_nat (length payload) + 2
  <= uint32 (wpos b - (rpos b + 1 + Z.of_nat (length ds) + 2)) ->
  _parse_bulk b t0
  = Some (PARSE_OK,
          Bstring (Z.of_nat (length payload)) (payload ++ [x; y] ++ rest),
          set_rpos b (rpos b + 1 + Z.of_nat (length ds) + 2
                      + Z.of_nat (length payload) + 2)).
Proof.
  intros Hr Hw Em Hds Hd Hv Hlen Hw1 Hw2 Hroom.
  unfold _parse_bulk.
  pose proof (peek_mem_from b (rpos b) 0 ltac:(lia)) as Hp.
  rewrite Z.add_0_r, Em in Hp. cbn [app lookup list_lookup] in Hp.
  rewrite Hp. cbn [mbind option_bind]. cbn [Z.eqb Pos.eqb negb].
  destruct (Z.eqb_spec (wpos b) (rpos b + 1)); [contradiction|].
  set (b1 := set_rpos b (rpos b + 1)).
  assert (Em1 : mem_from b1 (rpos b1)
                = ds ++ CRLF ++ payload ++ [x; y] ++ rest).
  { apply (mem_from_cons b (rpos b) 36); [lia|exact Em]. }
  assert (Hrs : buf_rsize b1 <> 0).
  { unfold buf_rsize, b1, uint32. cbn [rpos wpos set_rpos]. intros E.
    apply Z.mod_divide in E; [|lia]. destruct E as [k E].
    change (2 ^ 32) with 4294967296 in *. change (2 ^ 31) with 2147483648 in *.
    lia. }
  rewrite (check_uint_reads b1 UINT64_MAX ds (payload ++ [x; y] ++ rest)
             ltac:(cbn; lia) Em1 Hds Hd
             ltac:(rewrite Hv; unfold UINT64_MAX; lia)
             ltac:(unfold UINT64_MAX; lia) Hrs
             ltac:(cbn [b1 rpos wpos set_rpos]; lia)).
  cbn [mbind option_bind].
  destruct (decide (PARSE_OK = PARSE_OK)); [|contradiction].
  rewrite Hv.
  set (b2 := set_rpos b1 (rpos b1 + Z.of_nat (length ds) + CRLF_LEN)).
  assert (E2 : buf_rsize b2
               = uint32 (wpos b - (rpos b + 1 + Z.of_nat (length ds) + 2))).
  { unfold buf_rsize, b2, b1, CRLF_LEN. cbn [rpos wpos set_rpos]. reflexivity. }
  rewrite E2.
  rewrite (uint64_small (Z.of_nat (length payload) + CRLF_LEN))
    by (unfold CRLF_LEN; lia).
  destruct (Z.ltb_spec (uint32 (wpos b - (rpos b + 1 + Z.of_nat (length ds) + 2)))
              (Z.of_nat (length payload) + CRLF_LEN)); [unfold CRLF_LEN in *; lia|].
  rewrite uint32_small by lia.
  assert (Em2 : mem_from b2 (rpos b2) = payload ++ [x; y] ++ rest).
  { unfold b2. cbn [rpos set_rpos]. unfold CRLF_LEN.
    replace (rpos b1 + Z.of_nat (length ds) + 2)
      with (rpos b1 + Z.of_nat (length (ds ++ CRLF)))
      by (rewrite length_app; cbn; lia).
    apply (mem_from_app b1 (rpos b1) (ds ++ CRLF)); [cbn; lia|].
    rewrite <- app_assoc. exact Em1. }
  rewrite Em2. unfold b2, b1, CRLF_LEN, set_rpos. cbn [rpos wpos len mem].
  reflexivity.
Qed.

Lemma bulk_of_length payload :
  Z.of_nat (length (bulk_of payload))
  = 1 + Z.of_nat (length (dec_u (Z.of_nat (length payload)))) + 2
    + Z.of_nat (length payload).
Proof. unfold bulk_of. rewrite !length_app. cbn [length CRLF]. lia. Qed.

Lemma bulk_app_length payload tl :
  Z.of_nat (length (bulk_of payload ++ tl))
  = 1 + Z.of_nat (length (dec_u (Z.of_nat (length payload)))) + 2
    + Z.of_nat (length payload) + Z.of_nat (length tl).
Proof. rewrite length_app, Nat2Z.inj_add, bulk_of_length. reflexivity. Qed.

(** X7.  [_parse_bulk] reads a whole bulk and does not look at the two
    bytes that end it: whatever bytes [x] and [y] follow the payload, CR LF
    or not, it answers [PARSE_OK] with the payload as token and moves the
    cursor behind them. *)
Theorem parse_bulk_terminator payload x y junk t0 :
  Z.of_nat (length (bulk_of payload ++ [x; y])) < 2 ^ 31 ->
  exists t,
    _parse_bulk (buf_holding (bulk_of payload ++ [x; y]) junk) t0
    = Some (PARSE_OK, t,
            set_rpos (buf_holding (bulk_of payload ++ [x; y]) junk)
                     (Z.of_nat (length (bulk_of payload ++ [x; y])))) /\
    len t = Z.of_nat (length payload) /\ bstring_bytes t = payload.
Proof.
  intros Hlen. rewrite bulk_app_length in Hlen. cbn [length] in Hlen.
  set (ds := dec_u (Z.of_nat (length payload))) in *.
  exists (Bstring (Z.of_nat (length payload)) (payload ++ [x; y] ++ junk)).
  split; [|split; [reflexivity|]].
  - rewrite (parse_bulk_reads (buf_holding (bulk_of payload ++ [x; y]) junk) t0
               ds payload x y junk).
    + unfold set_rpos, buf_holding. cbn [rpos wpos mem]. do 3 f_equal.
      rewrite bulk_app_length. cbn [length]. fold ds. lia.
    + cbn. change (2 ^ 31) with 2147483648. lia.
    + unfold buf_holding. cbn [wpos]. rewrite bulk_app_length.
      fold ds. cbn [length]. lia.
    + unfold mem_from, buf_holding, bulk_of. cbn [rpos mem Z.to_nat drop].
      fold ds. rewrite <- !app_assoc. reflexivity.
    + apply dec_u_nonempty.
    + apply dec_u_digits.
    + apply dec_u_val. lia.
    + change (2 ^ 32) with 4294967296. change (2 ^ 31) with 2147483648 in Hlen. lia.
    + unfold buf_holding. cbn [rpos wpos]. rewrite bulk_app_length.
      fold ds. cbn [length]. lia.
    + unfold buf_holding. cbn [rpos wpos]. rewrite bulk_app_length.
      fold ds. cbn [length]. lia.
    + unfold buf_holding. cbn [rpos wpos]. rewrite bulk_app_length.
      fold ds. cbn [length]. rewrite uint32_small.
      * lia.
      * change (2 ^ 32) with 4294967296. change (2 ^ 31) with 2147483648 in Hlen. lia.
  - unfold bstring_bytes. cbn [len data]. rewrite Nat2Z.id. apply take_app_length.
Qed.

(** X8.  [_parse_bulk] reads on behind [wpos].  Let the memory hold a
    whole bulk at the cursor, of which the buffer says that nothing ([k = 0])
    or only the [$] and some or all of the digits of the length
    ([2 <= k <= 1 + digits]) have been received.  Then the answer is not
    [PARSE_EUNFIN] but [PARSE_OK], with the token taken from the bytes that
    were not received, and the cursor is left behind [wpos]. *)
Theorem parse_bulk_overread payload junk t0 k :
  Z.of_nat (length (bulk_of payload ++ CRLF)) < 2 ^ 31 ->
  k = 0 \/ 2 <= k <= 1 + Z.of_nat (length (dec_u (Z.of_nat (length payload)))) ->
  exists t b',
    _parse_bulk (Buf 0 k (bulk_of payload ++ CRLF ++ junk)) t0
    = Some (PARSE_OK, t, b') /\
    bstring_bytes t = payload /\
    wpos b' = k /\ rpos b' = Z.of_nat (length (bulk_of payload ++ CRLF)) /\
    wpos b' < rpos b'.
Proof.
  intros Hlen Hk. rewrite bulk_app_length in Hlen. cbn [length CRLF] in Hlen.
  set (ds := dec_u (Z.of_nat (length payload))) in *.
  change (2 ^ 31) with 2147483648 in Hlen.
  assert (Hds : 0 < Z.of_nat (length ds)).
  { pose proof (dec_u_nonempty (Z.of_nat (length payload))). fold ds in H.
    destruct ds; [contradiction|cbn; lia]. }
  eexists _, _. split.
  - apply (parse_bulk_reads (Buf 0 k (bulk_of payload ++ CRLF ++ junk)) t0
             ds payload CR LF junk).
    + cbn. change (2 ^ 31) with 2147483648. lia.
    + cbn [wpos]. change (2 ^ 31) with 2147483648. lia.
    + unfold mem_from, bulk_of. cbn [rpos mem Z.to_nat drop].
      fold ds. rewrite <- !app_assoc. reflexivity.
    + apply dec_u_nonempty.
    + apply dec_u_digits.
    + apply dec_u_val. lia.
    + change (2 ^ 32) with 4294967296. lia.
    + cbn [rpos wpos]. lia.
    + cbn [rpos wpos]. lia.
    + cbn [rpos wpos]. unfold uint32.
      replace (k - (0 + 1 + Z.of_nat (length ds) + 2))
        with ((k - Z.of_nat (length ds) - 3 + 2 ^ 32) + (-1) * 2 ^ 32) by lia.
      rewrite Z.mod_add by lia. change (2 ^ 32) with 4294967296.
      rewrite Z.mod_small by lia. lia.
  - split; [unfold bstring_bytes; cbn [len data]; rewrite Nat2Z.id; apply take_app_length|].
    cbn [wpos rpos set_rpos]. split; [reflexivity|].
    rewrite bulk_app_length. fold ds. cbn [length CRLF]. split; lia.
Qed.

(** Witness of [parse_bulk_terminator]: the bulk [foo] with [XY] where
    CR LF should be. *)
Lemma parse_bulk_terminator_witness :
  Z.of_nat (length (bulk_of (bytes "foo") ++ bytes "XY")) < 2 ^ 31 /\
  bulk_of (bytes "foo") ++ bytes "XY" = bytes "$3" ++ CRLF ++ bytes "fooXY" /\
  exists t,
    _parse_bulk (buf_holding (bulk_of (bytes "foo") ++ bytes "XY") []) bstring_init
    = Some (PARSE_OK, t,
            set_rpos (buf_holding (bulk_of (bytes "foo") ++ bytes "XY") []) 9) /\
    bstring_bytes t = bytes "foo".
Proof.
  split; [vm_compute; reflexivity|]. split; [reflexivity|].
  destruct (parse_bulk_terminator (bytes "foo") 88 89 [] bstring_init
              ltac:(vm_compute; reflexivity)) as (t & E & _ & Hb).
  exists t. split; [exact E|exact Hb].
Defined.

(** Witness of [parse_bulk_overread]: of [$3 CR LF foo CR LF] only [$3] has
    been received. *)
Lemma parse_bulk_overread_witness :
  exists t b',
    _parse_bulk (Buf 0 2 (bytes "$3" ++ CRLF ++ bytes "foo" ++ CRLF)) bstring_init
    = Some (PARSE_OK, t, b') /\
    bstring_bytes t = bytes "foo" /\ wpos b' = 2 /\ rpos b' = 9.
Proof.
  destruct (parse_bulk_overread (bytes "foo") [] bstring_init 2
              ltac:(vm_compute; reflexivity) ltac:(right; vm_compute; intuition discriminate))
    as (t & b' & E & Hb & Hw & Hr & _).
  exists t, b'. split; [|split; [exact Hb|split; [exact Hw|exact Hr]]].
  rewrite <- E. reflexivity.
Defined.

End BulkFacts.

(** * More on the request parser *)

Module ParseMore.
Import Redis.

Section ParseMore.

Variable CC_UINT64_MAXLEN : Z.
Variable MAX_BATCH_SIZE : Z.

#[local] Abbreviation parse_req := (parse_req CC_UINT64_MAXLEN MAX_BATCH_SIZE).
#[local] Abbreviation _parse_req_hdr := (_parse_req_hdr CC_UINT64_MAXLEN MAX_BATCH_SIZE).
#[local] Abbreviation _parse_bulk_numeric := (_parse_bulk_numeric CC_UINT64_MAXLEN).
#[local] Abbreviation _subrequest_retrieve := (_subrequest_retrieve MAX_BATCH_SIZE).
#[local] Abbreviation _subrequest_retrieve_loop := (_subrequest_retrieve_loop MAX_BATCH_SIZE).
#[local] Abbreviation _subrequest_delete := (_subrequest_delete MAX_BATCH_SIZE).
#[local] Abbreviation _subrequest_arithmetic :=
  (_subrequest_arithmetic CC_UINT64_MAXLEN MAX_BATCH_SIZE).
#[local] Abbreviation _push_key := (_push_key MAX_BATCH_SIZE).

(** ** What the header phase touches *)

Lemma hdr_only_refl req : hdr_only req req.
Proof. unfold hdr_only. repeat split; reflexivity. Qed.

Lemma hdr_only_trans r1 r2 r3 : hdr_only r1 r2 -> hdr_only r2 r3 -> hdr_only r1 r3.
Proof.
  unfold hdr_only. intros (?&?&?&?&?&?&?&?) (?&?&?&?&?&?&?&?).
  repeat split; try congruence. etransitivity; eassumption.
Qed.

Lemma hdr_only_set_type req t : hdr_only req (set_type req t).
Proof. unfold hdr_only. repeat split; reflexivity. Qed.

Lemma hdr_only_set_delta req d : hdr_only req (set_delta req d).
Proof. unfold hdr_only. repeat split; reflexivity. Qed.

Lemma push_key_only req t st req' :
  _push_key req t = (st, req') -> hdr_only req req' /\ type req' = type req.
Proof.
  unfold Redis._push_key. destruct (_ >=? _); intros [= <- <-].
  - split; [apply hdr_only_refl|reflexivity].
  - split; [|reflexivity]. unfold hdr_only. repeat split; try reflexivity.
    cbn [keys set_keys]. apply prefix_app_r. reflexivity.
Qed.

Lemma check_req_type_only req b st req' b' :
  _check_req_type req b = Some (st, req', b') ->
  hdr_only req req' /\ (st = PARSE_OK -> type req' <> REQ_UNKNOWN).
Proof.
  unfold _check_req_type. intros H.
  destruct (_parse_bulk b bstring_init) as [[[s1 t1] b1]|]; simpl in H; [|discriminate].
  destruct (decide (s1 = PARSE_OK)).
  - destruct (req_type_of t1) as [[ty|]|]; simpl in H; [| |discriminate].
    + case_decide; injection H as <- <- <-;
        (split; [apply hdr_only_set_type|]); [discriminate|auto].
    + case_decide; injection H as <- <- <-;
        (split; [apply hdr_only_refl|]); [discriminate|auto].
  - injection H as <- <- <-. split; [apply hdr_only_refl|contradiction].
Qed.

Lemma subrequest_delete_only req b st req' b' :
  _subrequest_delete req b = Some (st, req', b') ->
  hdr_only req req' /\ type req' = type req.
Proof.
  unfold Redis._subrequest_delete. intros H.
  destruct (_parse_bulk b bstring_init) as [[[s1 t1] b1]|]; simpl in H; [|discriminate].
  destruct (decide (s1 = PARSE_OK)).
  - destruct (_push_key req t1) as [s2 r2] eqn:E. injection H as <- <- <-.
    eapply push_key_only; exact E.
  - injection H as <- <- <-. split; [apply hdr_only_refl|reflexivity].
Qed.

Lemma subrequest_arithmetic_only req b st req' b' :
  _subrequest_arithmetic req b = Some (st, req', b') ->
  hdr_only req req' /\ type req' = type req.
Proof.
  unfold Redis._subrequest_arithmetic. intros H.
  destruct (_parse_bulk b bstring_init) as [[[s1 t1] b1]|]; simpl in H; [|discriminate].
  assert (Hp : forall s2 r2,
            (if decide (s1 = PARSE_OK) then _push_key req t1 else (s1, req)) = (s2, r2) ->
            hdr_only req r2 /\ type r2 = type req).
  { intros s2 r2. destruct (decide (s1 = PARSE_OK)).
    - apply push_key_only.
    - intros [= <- <-]. split; [apply hdr_only_refl|reflexivity]. }
  destruct (if decide (s1 = PARSE_OK) then _push_key req t1 else (s1, req)) as [s2 r2].
  destruct (Hp s2 r2 eq_refl) as [Ho Ht].
  destruct (decide (s2 = PARSE_OK)).
  - destruct (_parse_bulk_numeric b1 UINT64_MAX) as [[[s3 d] b3]|]; simpl in H;
      [|discriminate].
    destruct (decide (s3 = PARSE_OK)); injection H as <- <- <-.
    + split; [|exact Ht]. eapply hdr_only_trans; [exact Ho|apply hdr_only_set_delta].
    + auto.
  - injection H as <- <- <-. auto.
Qed.

Lemma retrieve_loop_only f : forall req b st req' b',
  _subrequest_retrieve_loop f req b = Some (Some (st, req', b')) ->
  hdr_only req req' /\ type req' = type req.
Proof.
  induction f as [|f IH]; intros req b st req' b' H; [discriminate|].
  simpl in H.
  destruct (_parse_bulk b bstring_init) as [[[s1 t1] b1]|]; simpl in H; [|discriminate].
  destruct (decide (s1 = PARSE_OK)).
  - destruct (_push_key req t1) as [s2 r2] eqn:E.
    destruct (push_key_only _ _ _ _ E) as [Ho Ht].
    destruct (decide (s2 = PARSE_OK)).
    + destruct (IH _ _ _ _ _ H) as [Ho' Ht'].
      split; [eapply hdr_only_trans; eassumption|congruence].
    + injection H as <- <- <-. auto.
  - destruct (decide (s1 = PARSE_EEMPTY)).
    + destruct (_ =? 0); injection H as <- <- <-;
        (split; [apply hdr_only_refl|reflexivity]).
    + injection H as <- <- <-. split; [apply hdr_only_refl|reflexivity].
Qed.

Lemma subrequest_retrieve_only req b st req' b' :
  _subrequest_retrieve req b = Some (st, req', b') ->
  hdr_only req req' /\ type req' = type req.
Proof.
  unfold Redis._subrequest_retrieve. intros H.
  destruct (_subrequest_retrieve_loop _ req b) as [[x|]|] eqn:E; simpl in H;
    try discriminate.
  injection H as ->. eapply retrieve_loop_only; exact E.
Qed.

(** The header phase answers [PARSE_OK] only for the types it has a case
    for. *)
Lemma parse_req_hdr_only req b st req' b' :
  _parse_req_hdr req b = Some (st, req', b') ->
  hdr_only req req' /\ (st = PARSE_OK -> parsed_type (type req') = true).
Proof.
  unfold Redis._parse_req_hdr. intros H.
  destruct (_check_req_type req b) as [[[s1 r1] b1]|] eqn:E; simpl in H; [|discriminate].
  destruct (check_req_type_only _ _ _ _ _ E) as [Ho Hu].
  destruct (decide (s1 = PARSE_OK)) as [->|];
    [|injection H as <- <- <-; split; [exact Ho|contradiction]].
  assert (Hsub : forall (sub : request -> buf -> option (parse_rstatus * request * buf)),
            (forall r b s r' b', sub r b = Some (s, r', b') ->
                                 hdr_only r r' /\ type r' = type r) ->
            parsed_type (type r1) = true ->
            ('(status, req, b2) ← sub r1 b1;
             if decide (status = PARSE_OK) then Some (status, req, b2)
             else Some (status, req, set_rpos b2 (rpos b)))
            = Some (st, req', b') ->
            hdr_only req req' /\ (st = PARSE_OK -> parsed_type (type req') = true)).
  { intros sub Hs Hty H'.
    destruct (sub r1 b1) as [[[s2 r2] b2]|] eqn:E2; simpl in H'; [|discriminate].
    destruct (Hs _ _ _ _ _ E2) as [Ho2 Ht2].
    destruct (decide (s2 = PARSE_OK)); injection H' as <- <- <-;
      (split; [eapply hdr_only_trans; eassumption|intros _; rewrite Ht2; exact Hty]). }
  destruct (type r1) eqn:Et.
  - injection H as <- <- <-. split; [exact Ho|discriminate].
  - eapply (Hsub _subrequest_retrieve); [apply subrequest_retrieve_only|reflexivity|exact H].
  - eapply (Hsub _subrequest_retrieve); [apply subrequest_retrieve_only|reflexivity|exact H].
  - injection H as <- <- <-. split; [exact Ho|discriminate].
  - eapply (Hsub _subrequest_delete); [apply subrequest_delete_only|reflexivity|exact H].
  - eapply (Hsub _subrequest_arithmetic);
      [apply subrequest_arithmetic_only|reflexivity|exact H].
  - eapply (Hsub _subrequest_arithmetic);
      [apply subrequest_arithmetic_only|reflexivity|exact H].
  - injection H as <- <- <-. split; [exact Ho|intros _; rewrite Et; reflexivity].
  - injection H as <- <- <-. split; [exact Ho|intros _; rewrite Et; reflexivity].
Qed.

(** [strNcmp] finds the word it is given, and fails at a first byte that
    differs. *)
Lemma strcmp_at_take cs : forall d i,
  take (length cs) (drop i d) = cs -> strcmp_at d i cs = Some true.
Proof.
  induction cs as [|c cs IH]; intros d i H; [reflexivity|].
  cbn [strcmp_at]. 
  assert (Hc : d !! i = Some c).
  { rewrite <- (Nat.add_0_r i), <- lookup_drop.
    rewrite <- (lookup_take_lt _ (length (c :: cs))) by (simpl; lia).
    rewrite H. reflexivity. }
  rewrite Hc. cbn [mbind option_bind]. rewrite Z.eqb_refl.
  apply IH. rewrite (drop_S _ _ _ Hc) in H. cbn in H. congruence.
Qed.

Lemma strcmp_at_differs d i x c cs :
  d !! i = Some x -> x <> c -> strcmp_at d i (c :: cs) = Some false.
Proof.
  intros H Hne. cbn [strcmp_at]. rewrite H. cbn [mbind option_bind].
  destruct (Z.eqb_spec x c); [contradiction|reflexivity].
Qed.

(** A frame that is the command word alone, for the two commands that
    have no more to them. *)
Lemma parse_req_plain req b t b1 ty :
  pstate req = REQ_HDR -> val req = false ->
  _parse_bulk b bstring_init = Some (PARSE_OK, t, b1) ->
  req_type_of t = Some (Some ty) -> ty = REQ_QUIT \/ ty = REQ_FLUSH ->
  parse_req req b
  = Some (PARSE_OK, set_rstate (set_type req ty) REQ_PARSED, b1).
Proof.
  intros Hp Hv Hb Ht Hty.
  unfold Redis.parse_req, Redis._parse_req_hdr, Redis._check_req_type.
  rewrite Hp, Hb. cbn [mbind option_bind]. rewrite Ht. cbn [mbind option_bind].
  destruct (decide (REQ_HDR = REQ_HDR)); [|contradiction].
  destruct (decide (PARSE_OK = PARSE_OK)); [|contradiction].
  destruct Hty as [-> | ->]; cbn [type set_type];
    (destruct (decide (_ = REQ_UNKNOWN)); [discriminate|]);
    cbn [mbind option_bind type set_type];
    (destruct (decide (PARSE_OK = PARSE_OK)); [|contradiction]);
    cbn [mbind option_bind val set_type]; rewrite Hv;
    unfold Redis.parse_req_val; cbn [pstate set_type]; rewrite Hp;
    (destruct (decide (REQ_HDR = REQ_VAL)); [discriminate|]);
    unfold parse_req_done;
    (destruct (decide (PARSE_OK = PARSE_OK)); [|contradiction]); reflexivity.
Qed.

(** X2.  What [parse_req] leaves in a request that is in its header phase
    and has no value to come ([val] clear, as [request_reset] leaves it).
    The request stays in the header phase and its value is not touched;
    the keys it had are kept, in front of those read now, also when the
    call fails.  [rstate] becomes [REQ_PARSED] exactly when the status is
    [PARSE_OK], and then the type is one of GET, MGET, DELETE, INCR, DECR,
    FLUSH and QUIT, never SET or UNKNOWN.  [cerror] is set on every status
    but [PARSE_OK] and [PARSE_EUNFIN], which leave it as it was. *)
Theorem parse_req_outcome req b st req' b' :
  pstate req = REQ_HDR -> val req = false ->
  parse_req req b = Some (st, req', b') ->
  pstate req' = REQ_HDR /\ vstr req' = vstr req /\ vlen req' = vlen req /\
  keys req `prefix_of` keys req' /\
  match st with
  | PARSE_OK =>
      rstate req' = REQ_PARSED /\ cerror req' = cerror req /\
      parsed_type (type req') = true
  | PARSE_EUNFIN => rstate req' = rstate req /\ cerror req' = cerror req
  | _ => rstate req' = rstate req /\ cerror req' = true
  end.
Proof.
  intros Hp Hv H. unfold Redis.parse_req in H. rewrite Hp in H.
  destruct (decide (REQ_HDR = REQ_HDR)); [|contradiction].
  destruct (_parse_req_hdr req b) as [[[s1 r1] b1]|] eqn:E; simpl in H; [|discriminate].
  destruct (parse_req_hdr_only _ _ _ _ _ E) as [(Hrs & Hps & Hvs & Hvl & _ & Hva & Hce & Hk) Hty].
  destruct (decide (s1 = PARSE_OK)) as [->|Hne].
  - rewrite Hva, Hv in H. unfold Redis.parse_req_val in H. rewrite Hps, Hp in H.
    destruct (decide (REQ_HDR = REQ_VAL)); [discriminate|].
    injection H as <- <- <-. cbn.
    repeat split; try congruence; auto.
  - unfold Redis.parse_req_done in H.
    destruct (decide (s1 = PARSE_OK)); [contradiction|].
    destruct (decide (s1 = PARSE_EUNFIN)) as [->|]; injection H as <- <- <-.
    + repeat split; try congruence; auto.
    + cbn. destruct s1; try contradiction; repeat split; try congruence; auto.
Qed.

(** X3.  A frame whose command word is [set] is never parsed: the switch of
    [_parse_req_hdr] has no case for [REQ_SET].  Whatever follows the word,
    [parse_req] returns [PARSE_EOTHER] and sets [cerror], with the type set
    and with the cursor left behind the command word, not where it was. *)
Theorem parse_req_set req b t b1 :
  pstate req = REQ_HDR ->
  _parse_bulk b bstring_init = Some (PARSE_OK, t, b1) ->
  len t = 3 -> take 3 (data t) = bytes "set" ->
  parse_req req b = Some (PARSE_EOTHER, set_cerror (set_type req REQ_SET), b1).
Proof.
  intros Hp Hb Hl Hd.
  assert (H0 : data t !! 0%nat = Some 115).
  { rewrite <- (lookup_take_lt (data t) 3 0) by lia. rewrite Hd. reflexivity. }
  unfold Redis.parse_req, Redis._parse_req_hdr, Redis._check_req_type.
  rewrite Hp, Hb. cbn [mbind option_bind].
  destruct (decide (REQ_HDR = REQ_HDR)); [|contradiction].
  destruct (decide (PARSE_OK = PARSE_OK)); [|contradiction].
  unfold req_type_of. rewrite Hl. cbn [Z.eqb Pos.eqb].
  cbn [first_cmd]. unfold strNcmp.
  change (bytes "get") with (103 :: [101; 116]).
  rewrite (strcmp_at_differs (data t) 0 115 103) by (assumption || discriminate).
  cbn [mbind option_bind].
  rewrite (strcmp_at_take (bytes "set") (data t) 0) by exact Hd.
  cbn. reflexivity.
Qed.

(** X4.  [parse_req] looks at the byte at the read cursor before it asks
    whether a byte has been received.  Whenever that byte is not [$], and
    so too on a buffer with nothing to read ([rpos = wpos]), where the byte
    is one of an earlier frame or was never written, the answer is
    [PARSE_EINVALID] with [cerror] set and nothing consumed, not
    [PARSE_EUNFIN]. *)
Theorem parse_req_first_byte req b c :
  pstate req = REQ_HDR -> peek b (rpos b) = Some c -> c <> 36 ->
  parse_req req b = Some (PARSE_EINVALID, set_cerror req, b) /\
  (rpos b = wpos b -> buf_rsize b = 0).
Proof.
  intros Hp Hc Hne. split.
  - unfold Redis.parse_req, Redis._parse_req_hdr, Redis._check_req_type,
      Redis._parse_bulk.
    rewrite Hp, Hc. cbn [mbind option_bind].
    destruct (Z.eqb_spec c 36); [contradiction|].
    cbn. reflexivity.
  - intros E. unfold buf_rsize. rewrite E, Z.sub_diag. reflexivity.
Qed.

End ParseMore.

(** Witness of [parse_req_outcome]: the frame of [test_quit]. *)
Lemma parse_req_outcome_witness :
  pstate request_reset = REQ_HDR /\ val request_reset = false /\
  exists req' b',
    parse_req 21 50 request_reset (buf_holding frame_quit [])
    = Some (PARSE_OK, req', b') /\
    pstate req' = REQ_HDR /\ rstate req' = REQ_PARSED /\
    cerror req' = false /\ parsed_type (type req') = true.
Proof.
  split; [reflexivity|]. split; [reflexivity|].
  eexists _, _. split; [reflexivity|].
  destruct (parse_req_outcome 21 50 request_reset (buf_holding frame_quit [])
              PARSE_OK _ _ eq_refl eq_refl eq_refl) as (H1 & _ & _ & _ & H2 & H3 & H4).
  split; [exact H1|]. split; [exact H2|]. split; [exact H3|exact H4].
Defined.

(** Witness of [parse_req_set]: the frame of [test_set] without its array
    header. *)
Lemma parse_req_set_witness :
  exists b1,
    _parse_bulk (buf_holding (bytes "$3" ++ CRLF ++ bytes "set" ++ CRLF
                              ++ bytes "$3" ++ CRLF ++ bytes "foo" ++ CRLF
                              ++ bytes "$3" ++ CRLF ++ bytes "XYZ" ++ CRLF) [])
                bstring_init
    = Some (PARSE_OK,
            Bstring 3 (bytes "set" ++ CRLF ++ bytes "$3" ++ CRLF ++ bytes "foo" ++ CRLF
                       ++ bytes "$3" ++ CRLF ++ bytes "XYZ" ++ CRLF), b1) /\
    rpos b1 = 9 /\
    parse_req 21 50 request_reset
      (buf_holding (bytes "$3" ++ CRLF ++ bytes "set" ++ CRLF
                    ++ bytes "$3" ++ CRLF ++ bytes "foo" ++ CRLF
                    ++ bytes "$3" ++ CRLF ++ bytes "XYZ" ++ CRLF) [])
    = Some (PARSE_EOTHER, set_cerror (set_type request_reset REQ_SET), b1).
Proof.
  set (b := buf_holding (bytes "$3" ++ CRLF ++ bytes "set" ++ CRLF
                          ++ bytes "$3" ++ CRLF ++ bytes "foo" ++ CRLF
                          ++ bytes "$3" ++ CRLF ++ bytes "XYZ" ++ CRLF) []).
  exists (set_rpos b 9). split; [reflexivity|]. split; [reflexivity|].
  apply (parse_req_set 21 50 request_reset b
           (Bstring 3 (bytes "set" ++ CRLF ++ bytes "$3" ++ CRLF ++ bytes "foo" ++ CRLF
                       ++ bytes "$3" ++ CRLF ++ bytes "XYZ" ++ CRLF))
           (set_rpos b 9) eq_refl eq_refl eq_refl eq_refl).
Defined.

(** Witness of [parse_req_first_byte]: a buffer with nothing to read, whose
    memory still holds the frame of [test_get]. *)
Lemma parse_req_first_byte_witness :
  pstate request_reset = REQ_HDR /\
  peek (Buf 0 0 frame_get_foo) 0 = Some 42 /\
  parse_req 21 50 request_reset (Buf 0 0 frame_get_foo)
  = Some (PARSE_EINVALID, set_cerror request_reset, Buf 0 0 frame_get_foo) /\
  buf_rsize (Buf 0 0 frame_get_foo) = 0.
Proof.
  split; [reflexivity|]. split; [reflexivity|].
  destruct (parse_req_first_byte 21 50 request_reset (Buf 0 0 frame_get_foo) 42
              eq_refl eq_refl ltac:(discriminate)) as [H1 H2].
  split; [exact H1|apply H2; reflexivity].
Defined.

End ParseMore.

(** * The composer against the parser *)

Module ComposeFacts.
Import DBuf.
Import Redis.
Import MemFacts.
Import DecFacts.
Import BulkFacts.

Section ComposeFacts.

Variable CC_UINT64_MAXLEN : Z.
Variable CC_UINT32_MAXLEN : Z.
Variable MAX_BATCH_SIZE : Z.
Variable BUF_HDR_SIZE : Z.
Variable buf_init_size : Z.
Variable max_size : Z.
Variable ENOMEM : Z.
Variable cc_realloc : buf -> option (Z * list Z).
Variable power : Z.

#[local] Abbreviation dbuf_config_ok := (dbuf_config_ok BUF_HDR_SIZE buf_init_size max_size).
#[local] Abbreviation dbuf_sized := (dbuf_sized BUF_HDR_SIZE buf_init_size max_size).
#[local] Abbreviation _check_buf_size_loop :=
  (_check_buf_size_loop BUF_HDR_SIZE max_size cc_realloc).
#[local] Abbreviation _check_buf_size := (_check_buf_size BUF_HDR_SIZE max_size cc_realloc).
#[local] Abbreviation _write_number :=
  (_write_number CC_UINT64_MAXLEN BUF_HDR_SIZE max_size ENOMEM cc_realloc).
#[local] Abbreviation _write_length :=
  (_write_length CC_UINT64_MAXLEN BUF_HDR_SIZE max_size ENOMEM cc_realloc).
#[local] Abbreviation _write_bulk :=
  (_write_bulk CC_UINT64_MAXLEN BUF_HDR_SIZE max_size ENOMEM cc_realloc).
#[local] Abbreviation write_keys :=
  (write_keys CC_UINT64_MAXLEN BUF_HDR_SIZE max_size ENOMEM cc_realloc).
#[local] Abbreviation compose_req :=
  (compose_req CC_UINT64_MAXLEN CC_UINT32_MAXLEN BUF_HDR_SIZE max_size ENOMEM cc_realloc).
#[local] Abbreviation parse_req := (parse_req CC_UINT64_MAXLEN MAX_BATCH_SIZE).

Hypothesis Hconfig : dbuf_config_ok power.
Hypothesis Hrealloc : realloc_in_place cc_realloc.

(** A frame that starts with a byte other than [$] is refused with the
    cursor left where it was. *)
Lemma parse_req_not_bulk req b c :
  pstate req = REQ_HDR -> peek b (rpos b) = Some c -> c <> 36 ->
  parse_req req b = Some (PARSE_EINVALID, set_cerror req, b).
Proof.
  intros Hp Hc Hne. unfold Redis.parse_req, Redis._parse_req_hdr, Redis._check_req_type,
    Redis._parse_bulk.
  rewrite Hp, Hc. cbn [mbind option_bind].
  destruct (Z.eqb_spec c 36); [contradiction|].
  cbn. reflexivity.
Qed.

(** The bounds of a sized buffer. *)
Lemma sized_end b :
  dbuf_sized b -> 0 <= buf_end b /\ buf_end b < 2 ^ 32.
Proof.
  intros Hs. destruct (DBufFacts.sized_size _ _ _ power b Hconfig Hs) as [E Hr].
  destruct Hconfig as (Hi & Hh & Hh0 & Hp & Hm & H32).
  unfold buf_end in *. lia.
Qed.

Lemma sized_wsize b :
  dbuf_sized b -> 0 <= wpos b <= buf_end b -> buf_wsize b = buf_end b - wpos b.
Proof.
  intros Hs Hw. destruct (sized_end b Hs). unfold buf_wsize, uint32.
  rewrite Z.mod_small; lia.
Qed.

Lemma uint32_fits x : 0 <= x < 2 ^ 32 -> uint32 x = x.
Proof. intros H. unfold uint32. apply Z.mod_small. exact H. Qed.

Lemma buf_end_grows b b1 :
  take (length (mem b)) (mem b1) = mem b -> buf_end b <= buf_end b1.
Proof. intros H. unfold buf_end. rewrite <- H at 1. rewrite length_take. lia. Qed.

(** [_check_buf_size] keeps a sized buffer sized, keeps the cursors and
    keeps the content, whether it succeeds or not. *)
Lemma check_buf_size_loop_spec fuel : forall b n st b',
  dbuf_sized b ->
  _check_buf_size_loop fuel b n = Some (st, b') ->
  dbuf_sized b' /\ rpos b' = rpos b /\ wpos b' = wpos b /\
  take (length (mem b)) (mem b') = mem b.
Proof.
  induction fuel as [|fuel IH]; intros b n st b' Hs H; [discriminate|].
  cbn [Redis._check_buf_size_loop] in H.
  destruct (n >? buf_wsize b).
  - pose proof (DBufFacts.dbuf_double_spec _ _ _ power b 0 [] Hconfig Hs) as Hn.
    destruct (Hrealloc b) as [E|[fresh E]]; rewrite E in H.
    + assert (exists st0, dbuf_double BUF_HDR_SIZE max_size None b = Some (st0, b)
                          /\ st0 <> CC_OK) as (st0 & E0 & Hst).
      { destruct (2 * buf_size BUF_HDR_SIZE b >? max_size).
        - exists CC_ERROR. split; [apply Hn|discriminate].
        - exists CC_ENOMEM. split; [apply Hn|discriminate]. }
      rewrite E0 in H. cbn [mbind option_bind] in H.
      destruct (decide (st0 = CC_OK)); [contradiction|].
      injection H as <- <-. rewrite firstn_all. auto.
    + pose proof (DBufFacts.dbuf_double_spec _ _ _ power b 0 fresh Hconfig Hs) as Hd.
      destruct (2 * buf_size BUF_HDR_SIZE b >? max_size).
      * rewrite Hd in H. cbn [mbind option_bind] in H.
        destruct (decide (CC_ERROR = CC_OK)); [discriminate|].
        injection H as <- <-. rewrite firstn_all. auto.
      * destruct Hd as (_ & b1 & E1 & _ & Hs1 & Hr1 & Hw1 & Ht1).
        rewrite E1 in H. cbn [mbind option_bind] in H.
        destruct (decide (CC_OK = CC_OK)); [|contradiction].
        destruct (IH b1 n st b' Hs1 H) as (Hs' & Hr' & Hw' & Ht').
        split; [exact Hs'|]. split; [lia|]. split; [lia|].
        assert (Hle : (length (mem b) <= length (mem b1))%nat).
        { rewrite <- Ht1 at 1. rewrite length_take. lia. }
        rewrite <- Ht1 at 2. rewrite <- Ht'.
        rewrite take_take. f_equal. lia.
  - injection H as <- <-. rewrite firstn_all. auto.
Qed.

Lemma check_buf_size_spec b n st b' :
  dbuf_sized b ->
  _check_buf_size b n = Some (st, b') ->
  dbuf_sized b' /\ rpos b' = rpos b /\ wpos b' = wpos b /\
  take (length (mem b)) (mem b') = mem b.
Proof. intros Hs H. exact (check_buf_size_loop_spec 34 b (uint32 n) st b' Hs H). Qed.

(** With room enough nothing is done. *)
Lemma check_buf_size_room b n :
  uint32 n <= buf_wsize b -> _check_buf_size b n = Some (COMPOSE_OK, b).
Proof.
  intros H. unfold Redis._check_buf_size. cbn [Redis._check_buf_size_loop].
  destruct (Z.gtb_spec (uint32 n) (buf_wsize b)); [lia|reflexivity].
Qed.

(** The content kept, a byte read before is read again. *)
Lemma peek_take b b' r c :
  peek b r = Some c -> take (length (mem b)) (mem b') = mem b -> peek b' r = Some c.
Proof.
  unfold peek. destruct (r <? 0); [discriminate|]. intros H Ht.
  rewrite <- Ht in H. rewrite lookup_take_Some in H. tauto.
Qed.

Lemma peek_store m p bs m' r c rp wp rp' wp' :
  store_bytes m p bs = Some m' -> 0 <= r < p ->
  peek (Buf rp wp m) r = Some c -> peek (Buf rp' wp' m') r = Some c.
Proof.
  unfold peek. cbn [mem]. intros H Hr.
  destruct (Z.ltb_spec r 0); [lia|]. intros Hc.
  pose proof (store_bytes_before _ _ _ _ (S (Z.to_nat r)) H ltac:(lia)) as Ht.
  rewrite <- (lookup_take_lt _ (S (Z.to_nat r))) by lia.
  rewrite Ht. rewrite lookup_take_lt by lia. exact Hc.
Qed.

Lemma sized_length b b' :
  length (mem b') = length (mem b) -> dbuf_sized b -> dbuf_sized b'.
Proof. unfold DBuf.dbuf_sized, buf_end. intros ->. auto. Qed.

Lemma buf_wsize_nonneg b : 0 <= buf_wsize b.
Proof. unfold buf_wsize, uint32. apply Z.mod_pos_bound. lia. Qed.

(** The writes that follow the [*] leave it where it is. *)
Lemma buf_write_star r b src count n b' :
  star_at r b -> 0 <= count -> buf_write b src count = Some (n, b') ->
  star_at r b' /\ length (mem b') = length (mem b).
Proof.
  intros (Hr & Hw & Hp) Hc H. unfold buf_write in H.
  pose proof (buf_wsize_nonneg b).
  destruct (Z.of_nat (length src) <? Z.min (buf_wsize b) count); [discriminate|].
  bind_inv H E. injection H as <- <-.
  split; [|eapply store_bytes_length; exact E].
  split; [exact Hr|]. split; [cbn [wpos]; lia|].
  destruct b as [rp wp m]. cbn [rpos wpos mem] in *.
  eapply peek_store; [exact E|lia|exact Hp].
Qed.

Lemma snprintf_len m p size text l m' :
  snprintf m p size text = Some (l, m') -> 0 <= l.
Proof.
  unfold snprintf. destruct (size <=? 0).
  - intros [= <- _]. lia.
  - destruct (store_bytes _ _ _); [|discriminate]. intros [= <- _]. lia.
Qed.

Lemma snprintf_star r rp wp m p size text l m' wp' :
  star_at r (Buf rp wp m) -> r < p -> r < wp' ->
  snprintf m p size text = Some (l, m') ->
  star_at r (Buf rp wp' m') /\ length m' = length m /\ 0 <= l.
Proof.
  intros (Hr & Hw & Hp) Hlt Hlt' H. unfold snprintf in H.
  destruct (size <=? 0).
  - injection H as <- <-. split; [|split; [reflexivity|lia]].
    split; [exact Hr|]. split; [cbn [wpos]; lia|exact Hp].
  - bind_inv H E. injection H as <- <-.
    split; [|split; [eapply store_bytes_length; exact E|lia]].
    split; [exact Hr|]. split; [cbn [wpos]; lia|].
    eapply peek_store; [exact E|lia|exact Hp].
Qed.

Lemma check_buf_size_star r b n st b' :
  star_at r b -> dbuf_sized b -> _check_buf_size b n = Some (st, b') ->
  star_at r b' /\ dbuf_sized b'.
Proof.
  intros (Hr & Hw & Hp) Hs H.
  destruct (check_buf_size_spec _ _ _ _ Hs H) as (Hs' & Hr' & Hw' & Ht).
  split; [|exact Hs']. split; [lia|]. split; [lia|].
  eapply peek_take; eassumption.
Qed.

Lemma write_bulk_star r b str n b' :
  star_at r b -> dbuf_sized b -> 0 <= len str ->
  _write_bulk b str = Some (n, b') ->
  star_at r b' /\ dbuf_sized b'.
Proof.
  intros Hst Hs Hl H. unfold Redis._write_bulk in H.
  bind_inv H E. destruct p as [st b1].
  destruct (check_buf_size_star _ _ _ _ _ Hst Hs E) as [Hst1 Hs1].
  destruct (decide (st = COMPOSE_OK)); [|injection H as <- <-; auto].
  bind_inv H E1. destruct p as [l m].
  destruct b1 as [rp wp m1]. cbn [rpos wpos mem] in *.
  pose proof (snprintf_len _ _ _ _ _ _ E1) as Hl0.
  assert (Hrw : r < wp) by (destruct Hst1 as (_ & ? & _); cbn [wpos] in *; lia).
  destruct (snprintf_star r rp wp m1 wp _ _ l m (wp + l) Hst1 Hrw ltac:(lia) E1)
    as (Hst2 & Hlen2 & _).
  bind_inv H E2. destruct p as [n1 b2].
  destruct (buf_write_star _ _ _ _ _ _ Hst2 Hl E2) as [Hst3 Hlen3].
  bind_inv H E3. destruct p as [n2 b3].
  destruct (buf_write_star r b2 CRLF CRLF_LEN n2 b3 Hst3 ltac:(unfold CRLF_LEN; lia) E3)
    as [Hst4 Hlen4].
  injection H as <- <-. split; [exact Hst4|].
  eapply (sized_length (Buf rp wp m1)); [|exact Hs1].
  cbn [mem] in *. congruence.
Qed.

Lemma write_keys_star r ks : forall b n0 n b',
  star_at r b -> dbuf_sized b -> Forall (fun k => 0 <= len k) ks ->
  write_keys b n0 ks = Some (n, b') ->
  star_at r b' /\ dbuf_sized b'.
Proof.
  induction ks as [|k ks IH]; intros b n0 n b' Hst Hs Hks H.
  - injection H as <- <-. auto.
  - cbn [Redis.write_keys] in H. bind_inv H E. destruct p as [n1 b1].
    inversion Hks as [|? ? Hk Hks']; subst.
    destruct (write_bulk_star _ _ _ _ _ Hst Hs Hk E) as [Hst1 Hs1].
    eapply IH; eassumption.
Qed.

(** The array header, written into a buffer with no byte to read and room
    for the line, puts a [*] where the readable part starts. *)
Lemma write_length_first b v n b' :
  dbuf_sized b -> 0 <= rpos b -> rpos b = wpos b ->
  0 <= CC_UINT64_MAXLEN -> CC_UINT64_MAXLEN + 3 <= buf_wsize b ->
  _write_length b v = Some (n, b') ->
  star_at (rpos b) b' /\ dbuf_sized b'.
Proof.
  intros Hs Hr0 Hrw Hcc Hroom H.
  unfold Redis._write_length, Redis._write_number in H.
  rewrite check_buf_size_room in H.
  2:{ unfold Redis.CC_INT64_MAXLEN, CRLF_LEN, uint32.
      pose proof (Z.mod_le (CC_UINT64_MAXLEN + 1 + 2) (2 ^ 32)). lia. }
  cbn [mbind option_bind] in H.
  destruct (decide (COMPOSE_OK = COMPOSE_OK)); [|contradiction].
  bind_inv H E. destruct p as [n1 b1].
  unfold buf_write in E.
  change (Z.of_nat (length (bytes "*"))) with 1 in E.
  rewrite Z.min_r in E by lia.
  change (1 <? 1) with false in E. cbn iota in E.
  change (take (Z.to_nat 1) (bytes "*")) with [42] in E.
  bind_inv_as E E0 m0. injection E as <- <-.
  bind_inv H E1. destruct p as [l m'].
  injection H as <- <-. cbn [rpos wpos mem] in *.
  pose proof (snprintf_len _ _ _ _ _ _ E1) as Hl0.
  assert (Hst : star_at (rpos b) (Buf (rpos b) (wpos b + 1) m0)).
  { split; [reflexivity|]. split; [cbn [wpos]; lia|].
    unfold peek. cbn [mem]. destruct (Z.ltb_spec (rpos b) 0); [lia|].
    pose proof (store_bytes_read _ _ _ _ E0) as Hrd.
    rewrite Hrw.
    assert (Hlk : take (length [42]) (drop (Z.to_nat (wpos b)) m0) !! 0%nat = Some 42)
      by (rewrite Hrd; reflexivity).
    rewrite lookup_take_lt in Hlk by (simpl; lia).
    rewrite lookup_drop in Hlk. rewrite Nat.add_0_r in Hlk. exact Hlk. }
  destruct (snprintf_star (rpos b) (rpos b) (wpos b + 1) m0 (wpos b + 1) _ _ l m'
              (wpos b + 1 + l) Hst ltac:(lia) ltac:(lia) E1) as (Hst' & Hlen & _).
  split; [exact Hst'|].
  eapply (sized_length b); [|exact Hs]. cbn [mem].
  rewrite Hlen. eapply store_bytes_length; exact E0.
Qed.

Lemma req_strings_len t : 0 <= len (req_strings t).
Proof. destruct t; vm_compute; discriminate. Qed.

(** After the size check that opens a case of [compose_req], the array
    header is written as into the buffer the call was made on. *)
Lemma check_then_write_length b n0 st b1 v n b' :
  dbuf_sized b -> 0 <= rpos b -> rpos b = wpos b -> wpos b <= buf_end b ->
  0 <= CC_UINT64_MAXLEN -> CC_UINT64_MAXLEN + 3 <= buf_wsize b ->
  _check_buf_size b n0 = Some (st, b1) ->
  rpos b1 = rpos b /\ wpos b1 = wpos b /\
  (_write_length b1 v = Some (n, b') -> star_at (rpos b) b' /\ dbuf_sized b').
Proof.
  intros Hs Hr0 Hrw Hwe Hcc Hroom E.
  destruct (check_buf_size_spec _ _ _ _ Hs E) as (Hs1 & Hr1 & Hw1 & Ht1).
  split; [exact Hr1|]. split; [exact Hw1|]. intros H.
  assert (Hle : buf_end b <= buf_end b1).
  { unfold buf_end. rewrite <- Ht1 at 1. rewrite length_take. lia. }
  rewrite <- Hr1. eapply write_length_first; try exact H; try assumption; try lia.
  rewrite sized_wsize by (assumption || lia).
  rewrite sized_wsize in Hroom by (assumption || lia). lia.
Qed.


(** ** What a bulk write leaves in the buffer *)

Lemma check_buf_size_loop_ok fuel : forall b n b1,
  _check_buf_size_loop fuel b n = Some (COMPOSE_OK, b1) -> n <= buf_wsize b1.
Proof.
  induction fuel as [|fuel IH]; intros b n b1 H; [discriminate|].
  cbn [Redis._check_buf_size_loop] in H.
  destruct (Z.gtb_spec n (buf_wsize b)).
  - bind_inv H E. destruct p as [st b2].
    destruct (decide (st = CC_OK)); [|discriminate]. eapply IH; exact H.
  - injection H as <-. assumption.
Qed.

(** [_check_buf_size] answers [COMPOSE_OK] only with the room asked for. *)
Lemma check_buf_size_ok b n b1 :
  _check_buf_size b n = Some (COMPOSE_OK, b1) -> uint32 n <= buf_wsize b1.
Proof. apply check_buf_size_loop_ok. Qed.

Lemma bstring_bytes_length str :
  0 <= len str <= Z.of_nat (length (data str)) ->
  Z.of_nat (length (bstring_bytes str)) = len str.
Proof. intros H. unfold bstring_bytes. rewrite length_take. lia. Qed.

(** [_write_bulk] that does not fail for want of memory appends the bulk
    and nothing else. *)
Lemma write_bulk_writes b str n b' :
  dbuf_sized b -> 0 <= wpos b <= buf_end b ->
  0 <= len str <= Z.of_nat (length (data str)) ->
  11 <= CC_UINT64_MAXLEN -> CC_UINT64_MAXLEN + len str + 5 < 2 ^ 32 ->
  ENOMEM < 0 ->
  _write_bulk b str = Some (n, b') -> 0 <= n ->
  n = Z.of_nat (length (bulk_of (bstring_bytes str) ++ CRLF)) /\
  rpos b' = rpos b /\ wpos b' = wpos b + n /\ wpos b' <= buf_end b' /\
  dbuf_sized b' /\
  take (Z.to_nat (wpos b)) (mem b') = take (Z.to_nat (wpos b)) (mem b) /\
  take (Z.to_nat n) (mem_from b' (wpos b)) = bulk_of (bstring_bytes str) ++ CRLF.
Proof.
  intros Hs Hw Hl Hcc Hfit Hneg H Hn.
  pose proof (bstring_bytes_length str Hl) as Hpl.
  unfold Redis._write_bulk in H.
  bind_some H as [st b1] E.
  destruct (check_buf_size_spec _ _ _ _ Hs E) as (Hs1 & Hr1 & Hw1 & Ht1).
  destruct (decide (st = COMPOSE_OK)) as [->|]; [|injection H as <- _; lia].
  apply check_buf_size_ok in E.
  rewrite uint32_fits in E by (unfold CRLF_LEN; lia).
  assert (He : buf_end b <= buf_end b1) by (apply (buf_end_grows b b1 Ht1)).
  rewrite (sized_wsize b1 Hs1) in E by lia.
  destruct (sized_end b1 Hs1) as [_ He32].
  set (w := wpos b) in *.
  remember (bytes "$" ++ dec_u (len str) ++ CRLF) as text eqn:Htext.
  assert (Htl : Z.of_nat (length text) <= 13).
  { rewrite Htext. rewrite !length_app. cbn [length bytes CRLF].
    pose proof (dec_u_length (len str) 10 ltac:(change (10 ^ 10) with 10000000000;
      change (2 ^ 32) with 4294967296 in Hfit; lia) ltac:(lia)).
    cbn. lia. }
  bind_inv H E1. destruct p as [l m1].
  unfold snprintf in E1.
  destruct (Z.leb_spec (1 + CC_UINT64_MAXLEN + CRLF_LEN) 0); [unfold CRLF_LEN in *; lia|].
  bind_inv_as E1 S1 m1'. injection E1 as <- <-.
  rewrite take_ge in S1 by (unfold CRLF_LEN; lia).
  rewrite Hw1 in S1. fold w in S1.
  bind_inv H E2. destruct p as [n1 b2].
  unfold buf_write in E2. cbn [wpos rpos mem] in E2. rewrite Hw1 in E2. fold w in E2.
  assert (Hws2 : buf_wsize (Buf (rpos b1) (w + Z.of_nat (length text)) m1')
                 = buf_end b1 - w - Z.of_nat (length text)).
  { unfold buf_wsize, buf_end. cbn [wpos mem].
    rewrite (store_bytes_length _ _ _ _ S1). unfold buf_end in *.
    unfold uint32. rewrite Z.mod_small; unfold CRLF_LEN in *; lia. }
  rewrite Hws2 in E2. rewrite Z.min_r in E2 by (unfold CRLF_LEN in *; lia).
  destruct (Z.ltb_spec (Z.of_nat (length (data str))) (len str)); [lia|].
  bind_inv_as E2 S2 m2. injection E2 as <- <-.
  change (take (Z.to_nat (len str)) (data str)) with (bstring_bytes str) in S2.
  bind_inv H E3. destruct p as [n2 b3].
  unfold buf_write in E3. cbn [wpos rpos mem] in E3.
  assert (Hws3 : buf_wsize (Buf (rpos b1) (w + Z.of_nat (length text) + len str) m2)
                 = buf_end b1 - w - Z.of_nat (length text) - len str).
  { unfold buf_wsize, buf_end. cbn [wpos mem].
    rewrite (store_bytes_length _ _ _ _ S2), (store_bytes_length _ _ _ _ S1).
    unfold buf_end in *. unfold uint32.
    rewrite Z.mod_small; unfold CRLF_LEN in *; lia. }
  rewrite Hws3 in E3. rewrite Z.min_r in E3 by (unfold CRLF_LEN in *; lia).
  change (Z.of_nat (length CRLF) <? CRLF_LEN) with false in E3. cbn iota in E3.
  change (take (Z.to_nat CRLF_LEN) CRLF) with CRLF in E3.
  bind_inv_as E3 S3 m3. injection E3 as <- <-.
  injection H as <- <-. cbn [rpos wpos mem].
  assert (Hlen3 : length m3 = length (mem b1)).
  { rewrite (store_bytes_length _ _ _ _ S3), (store_bytes_length _ _ _ _ S2).
    apply (store_bytes_length _ _ _ _ S1). }
  assert (Hbl : Z.of_nat (length (bulk_of (bstring_bytes str) ++ CRLF))
                = Z.of_nat (length text) + len str + CRLF_LEN).
  { rewrite bulk_app_length, Hpl. rewrite Htext. rewrite !length_app.
    cbn [length bytes CRLF]. unfold CRLF_LEN. cbn. lia. }
  split; [lia|]. split; [exact Hr1|]. split; [lia|].
  split; [unfold buf_end; cbn [mem]; rewrite Hlen3; unfold buf_end, CRLF_LEN in *; lia|].
  split; [apply (sized_length b1); [exact Hlen3|exact Hs1]|].
  split.
  - rewrite (store_bytes_before _ _ _ _ (Z.to_nat w) S3) by lia.
    rewrite (store_bytes_before _ _ _ _ (Z.to_nat w) S2) by lia.
    rewrite (store_bytes_before _ _ _ _ (Z.to_nat w) S1) by lia.
    transitivity (take (Z.to_nat w) (take (length (mem b)) (mem b1)));
      [|rewrite Ht1; reflexivity].
    rewrite take_take. f_equal. unfold buf_end in Hw. lia.
  - unfold mem_from. cbn [mem].
    pose proof (store_bytes_append _ _ _ _ w [] S1 ltac:(lia)
                  ltac:(rewrite Z.sub_diag; reflexivity)) as A1.
    rewrite Z.sub_diag in A1. cbn [Z.to_nat Nat.add app] in A1.
    assert (A1' : take (Z.to_nat (w + Z.of_nat (length text) - w)) (drop (Z.to_nat w) m1')
                  = text).
    { replace (Z.to_nat (w + Z.of_nat (length text) - w)) with (length text) by lia.
      rewrite <- (take_app_length text [0]) at 2. rewrite <- A1.
      rewrite take_take. f_equal. rewrite length_app. cbn. lia. }
    pose proof (store_bytes_append _ _ _ _ w text S2 ltac:(lia) A1') as A2.
    assert (A2' : take (Z.to_nat (w + Z.of_nat (length text) + len str - w))
                       (drop (Z.to_nat w) m2) = text ++ bstring_bytes str).
    { rewrite <- A2. f_equal. lia. }
    pose proof (store_bytes_append _ _ _ _ w _ S3 ltac:(lia) A2') as A3.
    rewrite <- app_assoc in A3.
    replace (bulk_of (bstring_bytes str) ++ CRLF)
      with (text ++ bstring_bytes str ++ CRLF).
    + rewrite <- A3. f_equal. cbn [length CRLF]. unfold CRLF_LEN. lia.
    + unfold bulk_of. rewrite Htext, Hpl. rewrite <- !app_assoc. reflexivity.
Qed.

Lemma sized_end31 b : dbuf_sized b -> buf_end b < 2 ^ 31.
Proof.
  intros [Hle _]. destruct Hconfig as (Hi & Hh & Hh0 & Hp & Hm & H32).
  change (2 ^ 32) with (2 * 2 ^ 31) in H32. lia.
Qed.

(** What [_write_bulk] has written, [_parse_bulk] reads. *)
Lemma write_then_parse_bulk b str n b' t0 :
  dbuf_sized b -> 0 <= rpos b -> rpos b = wpos b -> wpos b <= buf_end b ->
  0 <= len str <= Z.of_nat (length (data str)) ->
  11 <= CC_UINT64_MAXLEN -> CC_UINT64_MAXLEN + len str + 5 < 2 ^ 32 ->
  ENOMEM < 0 ->
  _write_bulk b str = Some (n, b') -> 0 <= n ->
  n = Z.of_nat (length (bulk_of (bstring_bytes str) ++ CRLF)) /\
  wpos b' = wpos b + n /\ dbuf_sized b' /\
  exists t,
    _parse_bulk b' t0 = Some (PARSE_OK, t, set_rpos b' (wpos b')) /\
    len t = len str /\ bstring_bytes t = bstring_bytes str.
Proof.
  intros Hs Hr0 Hrw Hwe Hl Hcc Hfit Hneg H Hn.
  destruct (write_bulk_writes b str n b' Hs ltac:(lia) Hl Hcc Hfit Hneg H Hn)
    as (En & Hr' & Hw' & Hwe' & Hs' & _ & Hc).
  pose proof (bstring_bytes_length str Hl) as Hpl.
  pose proof (sized_end31 b' Hs') as H31.
  split; [exact En|]. split; [exact Hw'|]. split; [exact Hs'|].
  set (payload := bstring_bytes str) in *.
  set (ds := dec_u (Z.of_nat (length payload))).
  assert (Ebl : n = 1 + Z.of_nat (length ds) + 2 + Z.of_nat (length payload) + 2).
  { rewrite En, bulk_app_length. reflexivity. }
  assert (Em : mem_from b' (rpos b')
               = [36] ++ ds ++ CRLF ++ payload ++ [CR; LF]
                 ++ drop (Z.to_nat n) (mem_from b' (wpos b))).
  { rewrite Hr', Hrw. rewrite <- (take_drop (Z.to_nat n) (mem_from b' (wpos b))) at 1.
    rewrite Hc. unfold bulk_of. fold ds. rewrite <- !app_assoc. reflexivity. }
  exists (Bstring (Z.of_nat (length payload))
                  (payload ++ [CR; LF] ++ drop (Z.to_nat n) (mem_from b' (wpos b)))).
  split; [|split; [cbn [len]; lia|]].
  - rewrite (parse_bulk_reads b' t0 ds payload CR LF _ ltac:(lia) ltac:(lia) Em).
    + unfold set_rpos. do 3 f_equal. lia.
    + apply dec_u_nonempty.
    + apply dec_u_digits.
    + apply dec_u_val. lia.
    + change (2 ^ 32) with 4294967296 in *. lia.
    + lia.
    + lia.
    + replace (wpos b' - (rpos b' + 1 + Z.of_nat (length ds) + 2))
        with (Z.of_nat (length payload) + 2) by lia.
      rewrite uint32_fits; [lia|]. change (2 ^ 32) with 4294967296 in *. lia.
  - unfold bstring_bytes at 1. cbn [len data]. rewrite Nat2Z.id. apply take_app_length.
Qed.



End ComposeFacts.

(** ** The composer in the configuration of the tests *)

Lemma test_config_ok : dbuf_config_ok 40 16384 (16384 * 2 ^ 8) 8.
Proof. unfold dbuf_config_ok. lia. Defined.

Lemma test_realloc_in_place : realloc_in_place (fun _ => Some (0, [])).
Proof. intros b. right. exists []. reflexivity. Defined.

Lemma fresh_buf_sized : dbuf_sized 40 16384 (16384 * 2 ^ 8) fresh_buf.
Proof. split; [vm_compute; discriminate|]. exists 0. split; [lia|vm_compute; reflexivity]. Defined.




End ComposeFacts.

(** * Properties of the item layer *)

Module ItemFacts.
Import Item.
Import MemFacts.

(** ** Items up to their flags *)

Lemma core_fields it it' :
  core it' = core it ->
  id it' = id it /\ is_raligned it' = is_raligned it /\ klen it' = klen it /\
  vlen it' = vlen it /\ dataflag it' = dataflag it /\
  create_at it' = create_at it /\ expire_at it' = expire_at it /\
  cas it' = cas it /\ payload it' = payload it.
Proof. unfold core. intros [= -> -> -> -> -> -> -> -> ->]. repeat split. Qed.

Lemma core_key_of it it' : core it' = core it -> key_of it' = key_of it.
Proof.
  intros H. apply core_fields in H as (_ & _ & Hk & _ & _ & _ & _ & _ & Hp).
  unfold key_of. rewrite Hk, Hp. reflexivity.
Qed.

Lemma core_value_of it it' : core it' = core it -> value_of it' = value_of it.
Proof.
  intros H. apply core_fields in H as (_ & Hr & Hk & Hv & _ & _ & _ & _ & Hp).
  unfold value_of, item_data. rewrite Hr, Hk, Hv, Hp. reflexivity.
Qed.

Lemma core_expired s s' it it' :
  now s' = now s -> flush_at s' = flush_at s -> core it' = core it ->
  _item_expired s' it' = _item_expired s it.
Proof.
  intros Hn Hf H. apply core_fields in H as (_ & _ & _ & _ & _ & Hc & He & _ & _).
  unfold _item_expired, time_now. rewrite Hn, Hf, Hc, He. reflexivity.
Qed.

Lemma same_items_refl s : same_items s s.
Proof. repeat split. Qed.

Lemma same_items_trans s1 s2 s3 :
  same_items s1 s2 -> same_items s2 s3 -> same_items s1 s3.
Proof.
  intros (A1 & B1 & C1 & D1) (A2 & B2 & C2 & D2).
  repeat split; congruence.
Qed.

Lemma same_items_lookup s s' a it :
  same_items s s' -> slots s !! a = Some it ->
  exists it', slots s' !! a = Some it' /\ core it' = core it.
Proof.
  intros (_ & _ & _ & H) Ha.
  assert (E : (core <$> slots s') !! a = (core <$> slots s) !! a) by (rewrite H; reflexivity).
  rewrite !lookup_fmap, Ha in E. simpl in E.
  destruct (slots s' !! a) as [it'|]; simpl in E; [|discriminate].
  exists it'. split; [reflexivity|congruence].
Qed.

Lemma same_items_lookup_inv s s' a it' :
  same_items s s' -> slots s' !! a = Some it' ->
  exists it, slots s !! a = Some it /\ core it' = core it.
Proof.
  intros (_ & _ & _ & H) Ha.
  assert (E : (core <$> slots s') !! a = (core <$> slots s) !! a) by (rewrite H; reflexivity).
  rewrite !lookup_fmap, Ha in E. simpl in E.
  destruct (slots s !! a) as [it|]; simpl in E; [|discriminate].
  exists it. split; [reflexivity|congruence].
Qed.

(** ** The primitives *)

Lemma update_Some s a f s' :
  update s a f = Some s' ->
  exists it, slots s !! a = Some it /\ s' = set_slots s (<[a := f it]> (slots s)).
Proof.
  unfold update. destruct (slots s !! a) as [it|]; simpl; [|discriminate].
  intros [= <-]. eauto.
Qed.

Lemma update_is_Some s a f it :
  slots s !! a = Some it -> update s a f = Some (set_slots s (<[a := f it]> (slots s))).
Proof. intros H. unfold update. rewrite H. reflexivity. Qed.

(** An assignment to a flag changes no item otherwise. *)
Lemma update_same_items s a f s' :
  (forall it, core (f it) = core it) ->
  update s a f = Some s' -> same_items s s'.
Proof.
  intros Hf H. apply update_Some in H as (it & Ha & ->).
  repeat split. simpl. rewrite fmap_insert, Hf.
  apply insert_id. rewrite lookup_fmap, Ha. reflexivity.
Qed.

Lemma set_hash_table_same_items s l : same_items s (set_hash_table s l).
Proof. repeat split. Qed.

Lemma set_free_q_same_items s l : same_items s (set_free_q s l).
Proof. repeat split. Qed.

Lemma slab_put_item_same_items a s s' :
  slab_put_item a s = Some s' -> same_items s s'.
Proof.
  unfold slab_put_item. intros H.
  destruct (update s a (λ it, set_in_freeq it true)) as [s1|] eqn:E; simpl in H; [|discriminate].
  injection H as <-.
  eapply same_items_trans; [eapply update_same_items; [|exact E]; reflexivity|].
  apply set_free_q_same_items.
Qed.

Lemma hashtable_delete_same_items k s : same_items s (hashtable_delete k s).
Proof.
  unfold hashtable_delete.
  destruct (list_find _ _) as [[i x]|]; [apply set_hash_table_same_items|apply same_items_refl].
Qed.

Lemma hashtable_put_same_items a s s' :
  hashtable_put a s = Some s' -> same_items s s'.
Proof.
  unfold hashtable_put. intros H.
  destruct (slots s !! a) as [it|]; simpl in H; [|discriminate].
  destruct (hashtable_get (key_of it) s) as [p|].
  - destruct (update (hashtable_delete (key_of it) s) p (λ it, set_is_linked it false))
      as [s1|] eqn:E1; simpl in H; [|discriminate].
    destruct (slab_put_item p s1) as [s2|] eqn:E2; simpl in H; [|discriminate].
    injection H as <-.
    eapply same_items_trans; [apply (hashtable_delete_same_items (key_of it))|].
    eapply same_items_trans; [eapply update_same_items; [|exact E1]; reflexivity|].
    eapply same_items_trans; [eapply slab_put_item_same_items; exact E2|].
    apply set_hash_table_same_items.
  - simpl in H. injection H as <-. apply set_hash_table_same_items.
Qed.

Lemma item_link_same_items a s s' : _item_link a s = Some s' -> same_items s s'.
Proof.
  unfold _item_link. intros H.
  destruct (update s a (λ it, set_is_linked it true)) as [s1|] eqn:E; simpl in H; [|discriminate].
  eapply same_items_trans; [eapply update_same_items; [|exact E]; reflexivity|].
  eapply hashtable_put_same_items; exact H.
Qed.

Lemma item_unlink_same_items a s s' : _item_unlink a s = Some s' -> same_items s s'.
Proof.
  unfold _item_unlink. intros H.
  destruct (slots s !! a) as [it|]; simpl in H; [|discriminate].
  destruct (is_linked it).
  - destruct (update s a (λ it, set_is_linked it false)) as [s1|] eqn:E; simpl in H; [|discriminate].
    eapply same_items_trans; [eapply update_same_items; [|exact E]; reflexivity|].
    eapply same_items_trans; [apply (hashtable_delete_same_items (key_of it))|].
    eapply slab_put_item_same_items; exact H.
  - simpl in H. eapply slab_put_item_same_items; exact H.
Qed.

(** ** The hash table *)

Lemma key_matches_same s s' k a :
  same_items s s' -> key_matches s' k a = key_matches s k a.
Proof.
  intros H. unfold key_matches.
  destruct (slots s !! a) as [it|] eqn:E.
  - destruct (same_items_lookup s s' a it H E) as (it' & -> & Hc).
    rewrite (core_key_of _ _ Hc). reflexivity.
  - destruct (slots s' !! a) as [it'|] eqn:E'; [|reflexivity].
    destruct (same_items_lookup_inv s s' a it' H E') as (it & Hit & _). congruence.
Qed.

Lemma list_find_key_same s s' k l :
  same_items s s' ->
  list_find (λ a, key_matches s' k a = true) l = list_find (λ a, key_matches s k a = true) l.
Proof.
  intros H. apply list_find_ext. intros a. rewrite (key_matches_same s s' k a H). reflexivity.
Qed.

Lemma hashtable_get_same s s' k :
  same_items s s' -> hash_table s' = hash_table s ->
  hashtable_get k s' = hashtable_get k s.
Proof.
  intros H E. unfold hashtable_get. rewrite E, (list_find_key_same s s' k _ H). reflexivity.
Qed.

Lemma hashtable_get_Some k s a :
  hashtable_get k s = Some a ->
  exists i it, list_find (λ a, key_matches s k a = true) (hash_table s) = Some (i, a) /\
               hash_table s !! i = Some a /\
               slots s !! a = Some it /\ key_of it = k.
Proof.
  unfold hashtable_get. intros H.
  destruct (list_find _ _) as [[i x]|] eqn:E; simpl in H; [|discriminate].
  injection H as ->. pose proof E as E0.
  apply list_find_Some in E as (Hi & Hm & _).
  unfold key_matches in Hm. destruct (slots s !! a) as [it|]; [|discriminate].
  apply bool_decide_eq_true in Hm. eauto 10.
Qed.

Lemma hashtable_get_head k s a l it :
  hash_table s = a :: l -> slots s !! a = Some it -> key_of it = k ->
  hashtable_get k s = Some a.
Proof.
  intros Hh Ha Hk. unfold hashtable_get. rewrite Hh. simpl.
  rewrite decide_True; [reflexivity|].
  unfold key_matches. rewrite Ha. apply bool_decide_eq_true. exact Hk.
Qed.

(** ** Unlinking and expiry *)

Lemma item_unlink_total a s it :
  slots s !! a = Some it -> exists s', _item_unlink a s = Some s'.
Proof.
  intros Ha. unfold _item_unlink. rewrite Ha. cbn [mbind option_bind].
  assert (Hput : forall s1 it1, slots s1 !! a = Some it1 -> exists s', slab_put_item a s1 = Some s').
  { intros s1 it1 H1. unfold slab_put_item. rewrite (update_is_Some _ _ _ _ H1). simpl. eauto. }
  destruct (is_linked it).
  - rewrite (update_is_Some _ _ _ _ Ha). cbn [mbind option_bind].
    eapply Hput. unfold hashtable_delete.
    destruct (list_find _ _) as [[i x]|]; simpl; apply lookup_insert_eq.
  - simpl. eapply Hput. exact Ha.
Qed.

Lemma hashtable_delete_subset k s x :
  x ∈ hash_table (hashtable_delete k s) -> x ∈ hash_table s.
Proof.
  unfold hashtable_delete. destruct (list_find _ _) as [[i y]|]; simpl; [|auto].
  apply list_elem_of_delete_inv.
Qed.

Lemma item_unlink_table a s s' x :
  _item_unlink a s = Some s' -> x ∈ hash_table s' -> x ∈ hash_table s.
Proof.
  unfold _item_unlink, slab_put_item. intros H.
  destruct (slots s !! a) as [it|]; simpl in H; [|discriminate].
  destruct (is_linked it).
  - destruct (update s a _) as [s1|] eqn:E1; simpl in H; [|discriminate].
    apply update_Some in E1 as (it1 & _ & ->).
    destruct (update _ a _) as [s2|] eqn:E2; simpl in H; [|discriminate].
    apply update_Some in E2 as (it2 & _ & ->). injection H as <-. simpl.
    intros Hx. apply hashtable_delete_subset in Hx. exact Hx.
  - simpl in H. destruct (update s a _) as [s2|] eqn:E2; simpl in H; [|discriminate].
    apply update_Some in E2 as (it2 & _ & ->). injection H as <-. simpl. auto.
Qed.

Lemma same_items_table_ok s s' :
  same_items s s' -> (forall x, x ∈ hash_table s' -> x ∈ hash_table s) ->
  table_ok s -> table_ok s'.
Proof.
  intros H Hsub Hok a Ha. destruct (Hok a (Hsub a Ha)) as [it Hit].
  destruct (same_items_lookup s s' a it H Hit) as (it' & -> & _). eauto.
Qed.

Lemma same_items_created_by s s' t :
  same_items s s' -> created_by t s -> created_by t s'.
Proof.
  intros H Hc a it' Ha.
  destruct (same_items_lookup_inv s s' a it' H Ha) as (it & Hit & Hcore).
  apply core_fields in Hcore as (_ & _ & _ & _ & _ & -> & _). eapply Hc; exact Hit.
Qed.

(** Unlinking a linked item that the table finds under its key: the item
    leaves the chain at the place it was found, loses [is_linked], gains
    [in_freeq] and heads the free queue. *)
Lemma item_unlink_linked a s it i :
  slots s !! a = Some it -> is_linked it = true ->
  list_find (λ x, key_matches s (key_of it) x = true) (hash_table s) = Some (i, a) ->
  _item_unlink a s =
  Some (MkStore (now s) (flush_at s) (cas_id s)
          (<[a := set_in_freeq (set_is_linked it false) true]> (slots s))
          (delete i (hash_table s)) (a :: free_q s)
          (carve s) (pages_left s) (brk s)).
Proof.
  intros Ha Hl Hf. unfold _item_unlink. rewrite Ha. cbn [mbind option_bind].
  rewrite Hl, (update_is_Some _ _ _ _ Ha). cbn [mbind option_bind].
  set (s1 := set_slots s (<[a:=set_is_linked it false]> (slots s))).
  assert (Hs1 : same_items s s1).
  { eapply (update_same_items s a (λ it, set_is_linked it false)); [reflexivity|].
    exact (update_is_Some s a (λ it, set_is_linked it false) it Ha). }
  unfold hashtable_delete.
  rewrite (list_find_key_same s s1 _ _ Hs1).
  change (hash_table s1) with (hash_table s). rewrite Hf.
  unfold slab_put_item, update. simpl. rewrite lookup_insert_eq. simpl.
  rewrite insert_insert_eq. reflexivity.
Qed.

(** [item_get] when the table finds an expired item. *)
Lemma item_get_expired key s a it :
  hashtable_get (bstring_bytes key) s = Some a ->
  slots s !! a = Some it -> _item_expired s it = true ->
  exists s', item_get key s = Some (None, s') /\ _item_unlink a s = Some s'.
Proof.
  intros Hg Ha He. unfold item_get. rewrite Hg, Ha. cbn [mbind option_bind].
  rewrite He. destruct (item_unlink_total a s it Ha) as [s' Hs'].
  rewrite Hs'. simpl. eauto.
Qed.

(** After a flush that no item was created after, [item_get] finds
    nothing, and this stays so. *)
Lemma item_get_flushed key s :
  table_ok s -> created_by (flush_at s) s ->
  exists s', item_get key s = Some (None, s') /\
             table_ok s' /\ created_by (flush_at s') s'.
Proof.
  intros Hok Hc. destruct (hashtable_get (bstring_bytes key) s) as [a|] eqn:Hg.
  - destruct (hashtable_get_Some _ _ _ Hg) as (i & it & _ & _ & Ha & _).
    assert (He : _item_expired s it = true).
    { unfold _item_expired. apply orb_true_iff. right.
      apply Z.leb_le. eapply Hc; exact Ha. }
    destruct (item_get_expired key s a it Hg Ha He) as (s' & -> & Hu).
    exists s'. split; [reflexivity|].
    pose proof (item_unlink_same_items a s s' Hu) as Hs.
    split.
    + eapply same_items_table_ok; eauto. intros x. eapply item_unlink_table; eauto.
    + destruct Hs as (_ & -> & _). eapply same_items_created_by; eauto.
      eapply item_unlink_same_items; eauto.
  - exists s. unfold item_get. rewrite Hg. auto.
Qed.

Lemma item_gets_flushed ks : forall s,
  table_ok s -> created_by (flush_at s) s ->
  exists s', item_gets ks s = Some (replicate (length ks) None, s').
Proof.
  induction ks as [|k ks IH]; intros s Hok Hc; simpl; [eauto|].
  destruct (item_get_flushed k s Hok Hc) as (s1 & -> & Hok1 & Hc1). simpl.
  destruct (IH s1 Hok1 Hc1) as (s2 & ->). simpl. eauto.
Qed.

(** C10.  Let [item_get]'s lookup find for [key] an item that is linked and
    expired.  Then [item_delete] returns [false], as it does for a key the
    table does not hold, and the state it leaves is not the one it found:
    the item has left the chain, has lost [is_linked], has [in_freeq] set
    and heads the free queue. *)
Theorem item_delete_expired key s a it :
  hashtable_get (bstring_bytes key) s = Some a ->
  slots s !! a = Some it -> is_linked it = true ->
  _item_expired s it = true ->
  exists i s',
    hash_table s !! i = Some a /\
    item_delete key s = Some (false, s') /\
    s' = MkStore (now s) (flush_at s) (cas_id s)
           (<[a := set_in_freeq (set_is_linked it false) true]> (slots s))
           (delete i (hash_table s)) (a :: free_q s)
           (carve s) (pages_left s) (brk s) /\
    s' <> s /\
    (forall s0, hashtable_get (bstring_bytes key) s0 = None ->
                item_delete key s0 = Some (false, s0)).
Proof.
  intros Hg Ha Hl He.
  destruct (hashtable_get_Some _ _ _ Hg) as (i & it0 & Hf & Hi & Ha0 & Hk).
  assert (it0 = it) by congruence. subst it0.
  destruct (item_get_expired key s a it Hg Ha He) as (s' & Hget & Hu).
  rewrite <- Hk in Hf. rewrite (item_unlink_linked a s it i Ha Hl Hf) in Hu.
  exists i, s'. split; [exact Hi|]. split.
  - unfold item_delete. rewrite Hget. reflexivity.
  - split; [congruence|]. split.
    + injection Hu as <-. intros E. apply (f_equal free_q) in E. simpl in E.
      apply (f_equal length) in E. simpl in E. lia.
    + intros s0 H0. unfold item_delete, item_get. rewrite H0. reflexivity.
Qed.

(** ** Slot memory *)

Lemma item_memcpy_Some s a p src n s' :
  item_memcpy s a p src n = Some s' ->
  exists it m, slots s !! a = Some it /\ n <= Z.of_nat (length src) /\
               store_bytes (payload it) p (take (Z.to_nat n) src) = Some m /\
               s' = set_slots s (<[a := set_payload it m]> (slots s)).
Proof.
  unfold item_memcpy. intros H.
  destruct (slots s !! a) as [it|]; simpl in H; [|discriminate].
  destruct (Z.ltb_spec (Z.of_nat (length src)) n); [discriminate|].
  destruct (store_bytes _ _ _) as [m|] eqn:E; simpl in H; [|discriminate].
  injection H as <-. eauto 10.
Qed.

Lemma hashtable_put_head a s s' :
  hashtable_put a s = Some s' -> exists l, hash_table s' = a :: l.
Proof.
  unfold hashtable_put. intros H.
  destruct (slots s !! a) as [it|]; simpl in H; [|discriminate].
  destruct (match hashtable_get (key_of it) s with Some _ => _ | None => _ end) as [s1|];
    simpl in H; [|discriminate].
  injection H as <-. simpl. eauto.
Qed.

Lemma item_link_head a s s' :
  _item_link a s = Some s' -> exists l, hash_table s' = a :: l.
Proof.
  unfold _item_link. intros H. bind_inv H E. eapply hashtable_put_head; exact H.
Qed.

Section ItemFacts.

Variable slabclass : list Z.
Variable ITEM_HDR_SIZE : Z.
Variable slab_size : Z.
Variable SLAB_HDR_SIZE : Z.
Variable SLABCLASS_INVALID_ID : Z.

#[local] Abbreviation item_slabid := (item_slabid slabclass ITEM_HDR_SIZE SLABCLASS_INVALID_ID).
#[local] Abbreviation slab_get_item :=
  (slab_get_item slabclass ITEM_HDR_SIZE slab_size SLAB_HDR_SIZE).
#[local] Abbreviation _item_alloc :=
  (_item_alloc slabclass ITEM_HDR_SIZE slab_size SLAB_HDR_SIZE SLABCLASS_INVALID_ID).
#[local] Abbreviation item_insert :=
  (item_insert slabclass ITEM_HDR_SIZE slab_size SLAB_HDR_SIZE SLABCLASS_INVALID_ID).
#[local] Abbreviation item_annex :=
  (item_annex slabclass ITEM_HDR_SIZE slab_size SLAB_HDR_SIZE SLABCLASS_INVALID_ID).
#[local] Abbreviation item_annex_realloc :=
  (item_annex_realloc slabclass ITEM_HDR_SIZE slab_size SLAB_HDR_SIZE SLABCLASS_INVALID_ID).
#[local] Abbreviation annex_in_place :=
  (annex_in_place slabclass ITEM_HDR_SIZE SLABCLASS_INVALID_ID).
#[local] Abbreviation annex_outcome :=
  (annex_outcome slabclass ITEM_HDR_SIZE SLABCLASS_INVALID_ID).
#[local] Abbreviation mutate :=
  (mutate slabclass ITEM_HDR_SIZE slab_size SLAB_HDR_SIZE SLABCLASS_INVALID_ID).
#[local] Abbreviation resulting_item :=
  (resulting_item slabclass ITEM_HDR_SIZE SLABCLASS_INVALID_ID).

(** The allocator hands out one slot and touches nothing else but its own
    lists. *)
Lemma slab_get_item_Some id s a s1 :
  slab_get_item id s = Some (Some a, s1) ->
  exists it0, slots s1 = <[a := it0]> (slots s) /\ Item.id it0 = id /\
              now s1 = now s /\ flush_at s1 = flush_at s /\
              cas_id s1 = cas_id s /\ hash_table s1 = hash_table s /\
              ((a ∈ free_q s /\ free_q s1 = filter (fun b => b <> a) (free_q s) /\
                brk s1 = brk s) \/
               (a = brk s /\ free_q s1 = free_q s /\ brk s1 = S (brk s))).
Proof.
  unfold Item.slab_get_item. intros H.
  assert (Hcarve : forall rest pages,
            slab_carve slabclass ITEM_HDR_SIZE s id rest pages = Some (Some a, s1) ->
            exists it0, slots s1 = <[a := it0]> (slots s) /\ Item.id it0 = id /\
              now s1 = now s /\ flush_at s1 = flush_at s /\
              cas_id s1 = cas_id s /\ hash_table s1 = hash_table s /\
              ((a ∈ free_q s /\ free_q s1 = filter (fun b => b <> a) (free_q s) /\
                brk s1 = brk s) \/
               (a = brk s /\ free_q s1 = free_q s /\ brk s1 = S (brk s)))).
  { intros rest pages Hc. unfold slab_carve, item_hdr_init in Hc.
    destruct (slabclass !! Z.to_nat id) as [sz|]; simpl in Hc; [|discriminate].
    injection Hc as <- <-. simpl. eexists. repeat split. right. repeat split. }
  destruct (freeq_find s id) as [b|] eqn:Ef.
  - bind_inv H E. injection H as -> ->.
    apply update_Some in E as (it & Hit & ->). simpl in Hit.
    unfold freeq_find in Ef.
    destruct (list_find _ _) as [[i x]|] eqn:El; simpl in Ef; [|discriminate].
    injection Ef as ->. apply list_find_Some in El as (Hin & Hid & _).
    rewrite Hit in Hid. simpl in Hid. injection Hid as Hid.
    exists (set_in_freeq it false). repeat split; [exact Hid|].
    left. repeat split. apply list_elem_of_lookup. eauto.
  - destruct (carve s !! id) as [[|rest]|].
    + destruct (pages_left s) as [|pages]; [discriminate|].
      destruct (slab_nitem _ _ _ _) as [|rest]; [discriminate|]. eapply Hcarve; eauto.
    + eapply Hcarve; eauto.
    + destruct (pages_left s) as [|pages]; [discriminate|].
      destruct (slab_nitem _ _ _ _) as [|rest]; [discriminate|]. eapply Hcarve; eauto.
Qed.

Lemma slab_get_item_None id s s1 :
  slab_get_item id s = Some (None, s1) -> s1 = s.
Proof.
  unfold Item.slab_get_item. intros H.
  assert (Hcarve : forall rest pages,
            slab_carve slabclass ITEM_HDR_SIZE s id rest pages <> Some (None, s1)).
  { intros rest pages Hc. unfold slab_carve in Hc.
    destruct (item_hdr_init _ _ _); simpl in Hc; discriminate. }
  destruct (freeq_find s id) as [b|].
  - bind_inv H E. discriminate.
  - destruct (carve s !! id) as [[|rest]|].
    + destruct (pages_left s) as [|pages]; [congruence|].
      destruct (slab_nitem _ _ _ _) as [|rest]; [congruence|]. edestruct Hcarve; eauto.
    + edestruct Hcarve; eauto.
    + destruct (pages_left s) as [|pages]; [congruence|].
      destruct (slab_nitem _ _ _ _) as [|rest]; [congruence|]. edestruct Hcarve; eauto.
Qed.

(** [_item_alloc] gives a slot of the fitting class, reset, or gives
    nothing and changes nothing. *)
Lemma item_alloc_spec klen vlen s st r s1 :
  _item_alloc klen vlen s = Some (st, r, s1) ->
  match r with
  | Some a =>
      st = ITEM_OK /\
      exists it0, slots s1 = <[a := _item_reset it0]> (slots s) /\
                  Item.id it0 = item_slabid (uint8 klen) (uint32 vlen) /\
                  Item.id it0 <> SLABCLASS_INVALID_ID /\
                  now s1 = now s /\ flush_at s1 = flush_at s /\
                  cas_id s1 = cas_id s /\ hash_table s1 = hash_table s /\
                  ((a ∈ free_q s /\ free_q s1 = filter (fun b => b <> a) (free_q s) /\
                brk s1 = brk s) \/
               (a = brk s /\ free_q s1 = free_q s /\ brk s1 = S (brk s)))
  | None => st <> ITEM_OK /\ s1 = s
  end.
Proof.
  unfold Item._item_alloc. intros H.
  destruct (Z.eqb_spec (item_slabid (uint8 klen) (uint32 vlen)) SLABCLASS_INVALID_ID) as [Ei|Ei].
  - injection H as <- <- <-. split; [discriminate|reflexivity].
  - bind_inv H E. destruct p as [[a|] s2].
    + bind_inv H E2. injection H as <- <- <-. split; [reflexivity|].
      apply slab_get_item_Some in E as (it0 & Hs & Hid & Hn & Hf & Hc & Hh & Hw).
      apply update_Some in E2 as (it & Hit & ->).
      rewrite Hs, lookup_insert_eq in Hit. injection Hit as <-.
      exists it0. simpl. rewrite Hs, insert_insert_eq.
      repeat split; auto; try congruence.
    + injection H as <- <- <-. apply slab_get_item_None in E as ->.
      split; [discriminate|reflexivity].
Qed.

(** Assignments to the item at [a] when the slots are known to be
    [<[a := X]> M]. *)
Lemma update_ins s a f X (M : gmap nat item) :
  slots s = <[a := X]> M ->
  update s a f = Some (set_slots s (<[a := f X]> M)).
Proof.
  intros H. unfold update. rewrite H, lookup_insert_eq. simpl.
  rewrite insert_insert_eq. reflexivity.
Qed.

Lemma item_memcpy_ins s a p src n X (M : gmap nat item) s' :
  slots s = <[a := X]> M ->
  item_memcpy s a p src n = Some s' ->
  exists m, n <= Z.of_nat (length src) /\
            store_bytes (payload X) p (take (Z.to_nat n) src) = Some m /\
            s' = set_slots s (<[a := set_payload X m]> M).
Proof.
  intros H Hc. apply item_memcpy_Some in Hc as (it & m & Hit & Hn & Hst & ->).
  rewrite H, lookup_insert_eq in Hit. injection Hit as <-.
  exists m. rewrite H, insert_insert_eq. auto.
Qed.

Lemma item_set_cas_ins s a X (M : gmap nat item) :
  slots s = <[a := X]> M ->
  item_set_cas a s =
  Some (MkStore (now s) (flush_at s) (uint64 (cas_id s + 1))
          (<[a := set_cas X (uint64 (cas_id s + 1))]> M)
          (hash_table s) (free_q s) (carve s) (pages_left s) (brk s)).
Proof.
  intros H. unfold item_set_cas.
  rewrite (update_ins _ a _ X M) by exact H. reflexivity.
Qed.

Lemma copy_key_ins s a key X (M : gmap nat item) s' :
  slots s = <[a := X]> M ->
  _copy_key a key s = Some s' ->
  exists m, store_bytes (payload X) 0 (take (Z.to_nat (len key)) (data key)) = Some m /\
            s' = set_slots s (<[a := set_klen (set_payload X m) (uint8 (len key))]> M).
Proof.
  intros H Hc. unfold _copy_key in Hc. rewrite H, lookup_insert_eq in Hc.
  cbn [mbind option_bind] in Hc. bind_inv Hc E.
  destruct (item_memcpy_ins _ _ _ _ _ X M _ H E) as (m & _ & Hm & ->).
  erewrite update_ins in Hc by reflexivity. injection Hc as <-.
  exists m. split; [exact Hm|reflexivity].
Qed.

Lemma copy_val_ins s a v X (M : gmap nat item) s' :
  slots s = <[a := X]> M ->
  _copy_val a v s = Some s' ->
  exists m, store_bytes (payload X) (item_data X) (take (Z.to_nat (len v)) (data v)) = Some m /\
            s' = set_slots s (<[a := set_vlen (set_payload X m) (len v)]> M).
Proof.
  intros H Hc. unfold _copy_val in Hc. rewrite H, lookup_insert_eq in Hc.
  cbn [mbind option_bind] in Hc. bind_inv Hc E.
  destruct (item_memcpy_ins _ _ _ _ _ X M _ H E) as (m & _ & Hm & ->).
  erewrite update_ins in Hc by reflexivity. injection Hc as <-.
  exists m. split; [exact Hm|reflexivity].
Qed.

(** [item_insert], when it succeeds: the new item [a] is at the head of the
    table; it holds the key and the value, the time of the call, the
    expiry and the flag given, and the next token. *)
Lemma item_insert_spec key v dataflag expire s s' :
  bstring_ok 255 key -> bstring_ok UINT32_MAX v ->
  item_insert key v dataflag expire s = Some (ITEM_OK, s') ->
  exists a it0 m sp l,
    Item.id it0 = item_slabid (len key) (len v) /\
    Item.id it0 <> SLABCLASS_INVALID_ID /\
    slots sp = <[a := MkItem (Item.id it0) false false false (len key) (len v)
                         dataflag (now s) expire (uint64 (cas_id s + 1)) m]> (slots s) /\
    take (Z.to_nat (len key)) m = bstring_bytes key /\
    take (Z.to_nat (len v)) (drop (Z.to_nat (len key)) m) = bstring_bytes v /\
    length m = length (payload it0) /\
    now sp = now s /\ flush_at sp = flush_at s /\
    cas_id sp = uint64 (cas_id s + 1) /\
    same_items sp s' /\ hash_table s' = a :: l /\
    len key + len v <= Z.of_nat (length m) /\
    hash_table sp = hash_table s /\
    ((a ∈ free_q s /\ free_q sp = filter (fun b => b <> a) (free_q s) /\
      brk sp = brk s) \/
     (a = brk s /\ free_q sp = free_q s /\ brk sp = S (brk s))) /\
    _item_link a sp = Some s'.
Proof.
  intros [Hk Hkd] [Hv Hvd] H. unfold Item.item_insert in H.
  bind_inv H E. destruct p as [[st r] s1].
  apply item_alloc_spec in E. destruct r as [a|]; [|destruct E; congruence].
  destruct E as (_ & it0 & Hs1 & Hid & Hinv & Hn & Hf & Hc & Hh & Hw).
  assert (Eu8 : uint8 (len key) = len key) by (unfold uint8; apply Z.mod_small; lia).
  assert (Eu32 : uint32 (len v) = len v)
    by (unfold uint32; apply Z.mod_small; unfold UINT32_MAX in Hv; lia).
  rewrite Eu8, Eu32 in Hid.
  rewrite (update_ins s1 a _ _ _ Hs1) in H. cbn [mbind option_bind] in H.
  erewrite update_ins in H by reflexivity. cbn [mbind option_bind] in H.
  erewrite update_ins in H by reflexivity. cbn [mbind option_bind] in H.
  bind_inv H Ek. eapply copy_key_ins in Ek; [|reflexivity].
  destruct Ek as (m1 & Hm1 & ->).
  bind_inv H Ev. eapply copy_val_ins in Ev; [|reflexivity].
  destruct Ev as (m2 & Hm2 & ->).
  (* item_set_cas *)
  erewrite item_set_cas_ins in H by reflexivity. cbn [mbind option_bind] in H.
  bind_inv H El. injection H as <-.
  destruct (item_link_head _ _ _ El) as [l Hl].
  cbn in Hm1, Hm2. rewrite Eu8 in Hm2.
  match type of El with _item_link _ ?S = _ => exists a, it0, m2, S, l end.
  split; [exact Hid|]. split; [exact Hinv|].
  split; [cbn -[uint64 uint8]; rewrite Eu8, Hn, Hc; reflexivity|].
  split.
  { rewrite (store_bytes_before _ _ _ _ _ Hm2) by lia.
    pose proof (store_bytes_read _ _ _ _ Hm1) as R.
    rewrite length_take, Nat.min_l in R by lia.
    change (Z.to_nat 0) with 0%nat in R. rewrite drop_0 in R. exact R. }
  split.
  { pose proof (store_bytes_read _ _ _ _ Hm2) as R.
    rewrite length_take, Nat.min_l in R by lia. exact R. }
  split.
  { rewrite (store_bytes_length _ _ _ _ Hm2), (store_bytes_length _ _ _ _ Hm1). reflexivity. }
  split; [exact Hn|]. split; [exact Hf|].
  split; [cbn -[uint64]; rewrite Hc; reflexivity|].
  split; [eapply item_link_same_items; exact El|].
  split; [exact Hl|]. split.
  { pose proof (store_bytes_spec _ _ _ _ Hm2) as (_ & Q & _).
    rewrite length_take, Nat.min_l in Q by lia.
    rewrite (store_bytes_length _ _ _ _ Hm2). lia. }
  split; [exact Hh|]. split; [exact Hw|exact El].
Qed.

(** ** Values in a slot *)

(** Storing right after the [n] bytes at [k] extends them. *)
Lemma store_bytes_extend m p bs m' k n :
  store_bytes m p bs = Some m' -> Z.to_nat p = (k + n)%nat ->
  take (n + length bs) (drop k m') = take n (drop k m) ++ bs.
Proof.
  intros H Hp. apply store_bytes_spec in H as (H0 & H1 & ->). rewrite Hp.
  rewrite drop_app_le by (rewrite length_take; lia).
  rewrite <- take_drop_commute.
  rewrite take_app_add' by (rewrite length_take, length_drop; lia).
  rewrite take_app_length. reflexivity.
Qed.

(** Reading from the place stored to: the bytes stored, then what was
    behind them. *)
Lemma store_bytes_front m p bs m' n :
  store_bytes m p bs = Some m' ->
  take (length bs + n) (drop (Z.to_nat p) m')
  = bs ++ take n (drop (Z.to_nat p + length bs) m).
Proof.
  intros H. apply store_bytes_spec in H as (H0 & H1 & ->).
  rewrite drop_app_length' by (rewrite length_take; lia).
  rewrite take_app_add' by reflexivity. reflexivity.
Qed.

Lemma take_length_Z (l : list Z) n :
  0 <= n <= Z.of_nat (length l) -> length (take (Z.to_nat n) l) = Z.to_nat n.
Proof. intros H. rewrite length_take. lia. Qed.

(** ** [item_update] and the fast path of [item_annex] *)

Lemma item_update_spec a v s s' st :
  item_update a v s = Some (st, s') ->
  exists it m,
    slots s !! a = Some it /\ st = ITEM_OK /\
    store_bytes (payload it) (item_data (set_vlen it (len v)))
                (take (Z.to_nat (len v)) (data v)) = Some m /\
    s' = MkStore (now s) (flush_at s) (uint64 (cas_id s + 1))
           (<[a := set_cas (set_payload (set_vlen it (len v)) m)
                           (uint64 (cas_id s + 1))]> (slots s))
           (hash_table s) (free_q s) (carve s) (pages_left s) (brk s).
Proof.
  unfold item_update. intros H. bind_inv H E.
  apply update_Some in E as (it & Ha & ->).
  cbn [slots set_slots] in H. rewrite lookup_insert_eq in H.
  cbn [mbind option_bind] in H. bind_inv H Em.
  eapply item_memcpy_ins in Em; [|reflexivity]. destruct Em as (m & _ & Hm & ->).
  erewrite item_set_cas_ins in H by reflexivity. cbn [mbind option_bind] in H.
  injection H as <- <-. exists it, m. repeat split; auto.
Qed.

Lemma item_annex_inplace_spec o v append ntotal s s' st :
  item_annex_inplace o v append ntotal s = Some (st, s') ->
  exists oit m,
    slots s !! o = Some oit /\ st = ITEM_OK /\
    len v <= Z.of_nat (length (data v)) /\
    store_bytes (payload oit)
      (if append then item_data oit + vlen oit else item_data oit - len v)
      (take (Z.to_nat (len v)) (data v)) = Some m /\
    s' = MkStore (now s) (flush_at s) (uint64 (cas_id s + 1))
           (<[o := set_cas (set_vlen (set_payload oit m) ntotal)
                           (uint64 (cas_id s + 1))]> (slots s))
           (hash_table s) (free_q s) (carve s) (pages_left s) (brk s).
Proof.
  unfold item_annex_inplace. intros H.
  destruct (slots s !! o) as [oit|] eqn:Ho; cbn [mbind option_bind] in H; [|discriminate].
  bind_inv H Em.
  assert (Hs : slots s = <[o := oit]> (slots s)) by (symmetry; apply insert_id; exact Ho).
  destruct (item_memcpy_ins _ _ _ _ _ oit (slots s) _ Hs Em) as (m & Hlen & Hm & ->).
  erewrite update_ins in H by reflexivity. cbn [mbind option_bind] in H.
  erewrite item_set_cas_ins in H by reflexivity. cbn [mbind option_bind] in H.
  injection H as <- <-. exists oit, m. repeat split; auto.
Qed.

(** The value after the fast path: the old value with the new one behind
    it (append, left-aligned) or before it (prepend, right-aligned). *)
Lemma inplace_value oit v append m :
  item_ok oit -> 0 <= len v <= Z.of_nat (length (data v)) ->
  vlen oit + len v <= UINT32_MAX ->
  is_raligned oit = negb append ->
  store_bytes (payload oit)
    (if append then item_data oit + vlen oit else item_data oit - len v)
    (take (Z.to_nat (len v)) (data v)) = Some m ->
  uint32 (vlen oit + len v) = vlen oit + len v /\
  value_of (set_vlen (set_payload oit m) (vlen oit + len v))
  = (if append then value_of oit ++ bstring_bytes v
     else bstring_bytes v ++ value_of oit) /\
  (append = true ->
   key_of (set_vlen (set_payload oit m) (vlen oit + len v)) = key_of oit).
Proof.
  intros ([Hk Hk255] & Hv & Hfit) Hlen H32 Hal Hm. unfold UINT32_MAX in H32.
  pose proof (store_bytes_spec _ _ _ _ Hm) as (Hp0 & Hp1 & _).
  pose proof (store_bytes_length _ _ _ _ Hm) as Hl.
  rewrite take_length_Z in Hp1 by lia.
  unfold value_of, key_of, item_data in *. cbn [is_raligned klen vlen payload set_vlen set_payload] in *.
  rewrite Hal in *. destruct append; cbn [negb] in *.
  - split; [unfold uint32; apply Z.mod_small; lia|]. split.
    + replace (Z.to_nat (vlen oit + len v))
        with (Z.to_nat (vlen oit) + length (take (Z.to_nat (len v)) (data v)))%nat
        by (rewrite take_length_Z; lia).
      apply store_bytes_extend with (p := klen oit + vlen oit); [exact Hm|lia].
    + intros _. eapply store_bytes_before; [exact Hm|lia].
  - split; [unfold uint32; apply Z.mod_small; lia|]. split; [|discriminate].
    rewrite Hl.
    replace (Z.to_nat (Z.of_nat (length (payload oit)) - (vlen oit + len v)))
      with (Z.to_nat (Z.of_nat (length (payload oit)) - vlen oit - len v)) by lia.
    replace (Z.to_nat (vlen oit + len v))
      with (length (take (Z.to_nat (len v)) (data v)) + Z.to_nat (vlen oit))%nat
      by (rewrite take_length_Z; lia).
    rewrite (store_bytes_front _ _ _ _ _ Hm). f_equal. f_equal. f_equal.
    rewrite take_length_Z by lia. lia.
Qed.

Lemma item_link_alloc n s s' :
  _item_link n s = Some s' ->
  brk s' = brk s /\
  forall x, x ∈ free_q s' -> x ∈ free_q s \/ x ∈ hash_table s.
Proof.
  unfold _item_link, hashtable_put. intros H. bind_inv H E.
  apply update_Some in E as (it0 & _ & ->).
  destruct (slots _ !! n) as [it|]; cbn [mbind option_bind] in H; [|discriminate].
  destruct (hashtable_get (key_of it) _) as [p|] eqn:Eg.
  - bind_inv H E1. bind_inv E1 E2. injection H as <-.
    apply hashtable_get_Some in Eg as (i & _ & _ & Hi & _).
    apply update_Some in E2 as (itp & _ & ->).
    unfold slab_put_item in E1. bind_inv E1 E3. injection E1 as <-.
    apply update_Some in E3 as (itq & _ & ->).
    unfold hashtable_delete. destruct (list_find _ _) as [[j y]|]; simpl.
    + split; [reflexivity|]. intros x Hx. apply elem_of_cons in Hx as [->|Hx]; [|auto].
      right. apply list_elem_of_lookup. eauto.
    + split; [reflexivity|]. intros x Hx. apply elem_of_cons in Hx as [->|Hx]; [|auto].
      right. apply list_elem_of_lookup. eauto.
  - cbn [mbind option_bind] in H. injection H as <-. simpl. auto.
Qed.

(** The item [item_insert] links is the one [item_get] finds, unless it is
    expired. *)
Lemma item_insert_get key v dataflag expire s s' :
  bstring_ok 255 key -> bstring_ok UINT32_MAX v ->
  item_insert key v dataflag expire s = Some (ITEM_OK, s') ->
  exists a it,
    head (hash_table s') = Some a /\ slots s' !! a = Some it /\
    hashtable_get (bstring_bytes key) s' = Some a /\
    key_of it = bstring_bytes key /\ value_of it = bstring_bytes v /\
    create_at it = now s /\ expire_at it = expire /\
    Item.dataflag it = dataflag /\ is_raligned it = false /\
    Item.id it = item_slabid (len key) (len v) /\
    cas it = uint64 (cas_id s + 1) /\ cas_id s' = uint64 (cas_id s + 1) /\
    now s' = now s /\ flush_at s' = flush_at s /\
    (forall b it', slots s' !! b = Some it' -> b <> a ->
       exists it0, slots s !! b = Some it0 /\ core it' = core it0) /\
    item_ok it /\
    (alloc_ok s -> (a ∉ free_q s') /\ a <> brk s').
Proof.
  intros Hk Hv H.
  destruct (item_insert_spec key v dataflag expire s s' Hk Hv H)
    as (a & it0 & m & sp & l & Hid & _ & Hsp & Hkey & Hval & _ & Hn & Hf & Hc & Hsame & Hh
        & Hfit & Hhp & Hw & Hlink).
  assert (Ha : slots sp !! a = Some (MkItem (Item.id it0) false false false (len key) (len v)
                 dataflag (now s) expire (uint64 (cas_id s + 1)) m))
    by (rewrite Hsp; apply lookup_insert_eq).
  destruct (same_items_lookup sp s' a _ Hsame Ha) as (it & Hit & Hcore).
  pose proof (core_key_of _ _ Hcore) as Ek. pose proof (core_value_of _ _ Hcore) as Ev.
  apply core_fields in Hcore as (E1 & E2 & E3 & E4 & E5 & E6 & E7 & E8 & E9).
  cbn [Item.id is_raligned klen vlen Item.dataflag create_at expire_at cas payload] in *.
  assert (Hkey' : key_of it = bstring_bytes key) by (rewrite Ek; exact Hkey).
  assert (Hfr : forall b it', slots s' !! b = Some it' -> b <> a ->
            exists it0, slots s !! b = Some it0 /\ core it' = core it0).
  { intros b it' Hb Hne.
    destruct (same_items_lookup_inv sp s' b it' Hsame Hb) as (itp & Hp & Hcp).
    rewrite Hsp, lookup_insert_ne in Hp by congruence. eauto. }
  exists a, it. rewrite Hh. split; [reflexivity|]. split; [exact Hit|].
  split; [eapply hashtable_get_head; eauto|].
  split; [exact Hkey'|]. split; [rewrite Ev; exact Hval|].
  destruct Hsame as (Sn & Sf & Sc & _).
  repeat (split; [congruence|]). split; [exact Hfr|]. split.
  - destruct Hk as [Hk _], Hv as [Hv _]. unfold item_ok. rewrite E3, E4, E9. lia.
  - intros Hal. destruct (item_link_alloc _ _ _ Hlink) as (Hb & Hq).
    destruct Hw as [(Hin & Efq & Eb)|(-> & Efq & Eb)].
    + destruct (Hal a) as (Hnt & Hlt). split.
      * intros Hx. apply Hq in Hx as [Hx|Hx].
        -- rewrite Efq in Hx. apply list_elem_of_filter in Hx as [Hx _]. congruence.
        -- rewrite Hhp in Hx. apply Hnt; assumption.
      * specialize (Hlt (or_introl Hin)). lia.
    + destruct (Hal (brk s)) as (_ & Hlt). split.
      * intros Hx. apply Hq in Hx as [Hx|Hx].
        -- rewrite Efq in Hx. specialize (Hlt (or_introl Hx)). lia.
        -- rewrite Hhp in Hx. specialize (Hlt (or_intror Hx)). lia.
      * lia.
Qed.

(** An item just created is not expired when the last flush lies in the
    past and its expiry, if it has one, does not. *)
Lemma item_get_fresh key s a it :
  hashtable_get (bstring_bytes key) s = Some a -> slots s !! a = Some it ->
  flush_at s < create_at it -> (expire_at it = 0 \/ now s <= expire_at it) ->
  item_get key s = Some (Some a, s).
Proof.
  intros Hg Ha Hf He. unfold item_get. rewrite Hg, Ha. cbn [mbind option_bind].
  assert (E : _item_expired s it = false).
  { unfold _item_expired, time_now. apply orb_false_iff. split.
    - apply andb_false_iff. destruct He as [->|He]; [left; reflexivity|right].
      apply Z.ltb_ge. exact He.
    - apply Z.leb_gt. exact Hf. }
  rewrite E. reflexivity.
Qed.

(** C3 (amended).  Let no item of [s] be from the future and let the clock
    not run backwards.  After [item_flush] every [item_get], whatever the
    keys asked for and however many, returns no item.  An [item_insert] in a
    later state [s2] is seen by [item_get], with the value inserted,
    provided the clock has moved on since the flush ([flush_at s2 < now s2]);
    an insert in the very second of the flush is not promised to be seen. *)
Theorem flush_hides_then_insert_shows s clock ks key v dataflag expire :
  table_ok s -> created_by (now s) s -> now s <= clock ->
  bstring_ok 255 key -> bstring_ok UINT32_MAX v ->
  (exists s', item_gets ks (item_flush clock s) = Some (replicate (length ks) None, s')) /\
  (forall s2 s3,
     flush_at s2 = clock -> clock < now s2 ->
     expire = 0 \/ now s2 <= expire ->
     item_insert key v dataflag expire s2 = Some (ITEM_OK, s3) ->
     exists a it, item_get key s3 = Some (Some a, s3) /\
                  slots s3 !! a = Some it /\
                  key_of it = bstring_bytes key /\ value_of it = bstring_bytes v).
Proof.
  intros Hok Hc Hclk Hk Hv. split.
  - apply item_gets_flushed.
    + exact Hok.
    + intros a it Ha. simpl. specialize (Hc a it Ha). lia.
  - intros s2 s3 Hf Hlt He Hi.
    destruct (item_insert_get key v dataflag expire s2 s3 Hk Hv Hi)
      as (a & it & _ & Ha & Hg & Hkey & Hval & Hcr & Hex & _ & _ & _ & _ & _ & Hn & Hfl & _).
    exists a, it. split; [|auto].
    apply (item_get_fresh key s3 a it Hg Ha).
    + rewrite Hfl, Hcr, Hf. exact Hlt.
    + rewrite Hex, Hn. exact He.
Qed.

(** ** Items put aside *)

Lemma unlinked_update s b f s' a :
  update s b f = Some s' ->
  b <> a \/ (forall it, is_linked it = false -> in_freeq it = true ->
                        is_linked (f it) = false /\ in_freeq (f it) = true) ->
  unlinked s a -> unlinked s' a.
Proof.
  intros H Hf (Hq & it & Ha & Hl & Hi). apply update_Some in H as (itb & Hb & ->).
  split; [exact Hq|]. simpl.
  destruct (decide (b = a)) as [->|Hne].
  - destruct Hf as [Hf|Hf]; [congruence|].
    assert (itb = it) by congruence. subst itb.
    exists (f it). rewrite lookup_insert_eq. destruct (Hf it Hl Hi). auto.
  - exists it. rewrite lookup_insert_ne by exact Hne. auto.
Qed.

Lemma unlinked_slab_put_item p s s' a :
  slab_put_item p s = Some s' -> unlinked s a -> unlinked s' a.
Proof.
  unfold slab_put_item. intros H Hu. bind_inv H E. injection H as <-.
  eapply unlinked_update in Hu; [|exact E|right; intros; auto].
  destruct Hu as (Hq & Hs). split; [simpl; apply list_elem_of_further; exact Hq|exact Hs].
Qed.

Lemma unlinked_hashtable_delete k s a :
  unlinked s a -> unlinked (hashtable_delete k s) a.
Proof.
  unfold hashtable_delete. destruct (list_find _ _) as [[i x]|]; auto.
Qed.

Lemma item_unlink_unlinked a s s' : _item_unlink a s = Some s' -> unlinked s' a.
Proof.
  unfold _item_unlink, slab_put_item. intros H.
  destruct (slots s !! a) as [it|] eqn:Ha; cbn [mbind option_bind] in H; [|discriminate].
  destruct (is_linked it) eqn:Hl.
  - rewrite (update_is_Some _ _ _ _ Ha) in H. cbn [mbind option_bind] in H.
    unfold hashtable_delete in H.
    destruct (list_find _ _) as [[i x]|]; unfold update in H; simpl in H;
      rewrite lookup_insert_eq in H; simpl in H; injection H as <-;
      (split; [simpl; apply list_elem_of_here|]); simpl; eexists;
      rewrite lookup_insert_eq; repeat split.
  - cbn [mbind option_bind] in H. rewrite (update_is_Some _ _ _ _ Ha) in H.
    cbn [mbind option_bind] in H. injection H as <-.
    split; [simpl; apply list_elem_of_here|]. simpl. eexists.
    rewrite lookup_insert_eq. repeat split. exact Hl.
Qed.

Lemma item_link_unlinked n s s' a :
  _item_link n s = Some s' -> n <> a -> unlinked s a -> unlinked s' a.
Proof.
  unfold _item_link, hashtable_put. intros H Hne Hu.
  bind_inv H E. eapply unlinked_update in Hu; [|exact E|left; exact Hne].
  destruct (slots s0 !! n) as [it|]; cbn [mbind option_bind] in H; [|discriminate].
  destruct (hashtable_get (key_of it) s0) as [p|].
  - bind_inv H E1. bind_inv E1 E2.
    injection H as <-.
    apply (unlinked_hashtable_delete (key_of it)) in Hu.
    eapply unlinked_update in Hu; [|exact E2|right; intros; auto].
    eapply unlinked_slab_put_item in Hu; [|exact E1]. exact Hu.
  - cbn [mbind option_bind] in H. injection H as <-. exact Hu.
Qed.

(** ** The slow path of [item_annex] *)

Lemma copy_key_item_ins s n o X oit (M : gmap nat item) s' :
  slots s = <[n := X]> M -> M !! o = Some oit -> n <> o ->
  _copy_key_item n o s = Some s' ->
  exists m, klen oit <= Z.of_nat (length (payload oit)) /\
            store_bytes (payload X) 0 (take (Z.to_nat (klen oit)) (payload oit)) = Some m /\
            s' = set_slots s (<[n := set_klen (set_payload X m) (klen oit)]> M).
Proof.
  intros H Ho Hne Hc. unfold _copy_key_item in Hc.
  rewrite H, lookup_insert_eq, lookup_insert_ne, Ho in Hc by exact Hne.
  cbn [mbind option_bind] in Hc. bind_inv Hc E.
  destruct (item_memcpy_ins _ _ _ _ _ X M _ H E) as (m & Hl & Hm & ->).
  erewrite update_ins in Hc by reflexivity. injection Hc as <-.
  unfold item_key in *. change (Z.to_nat 0) with 0%nat in *. rewrite drop_0 in *.
  exists m. auto.
Qed.

Lemma item_annex_realloc_spec o v append ntotal s s' st oit :
  slots s !! o = Some oit -> o ∉ free_q s -> o <> brk s ->
  item_ok oit -> 0 <= len v <= Z.of_nat (length (data v)) ->
  ntotal = vlen oit + len v -> ntotal <= UINT32_MAX ->
  item_annex_realloc o v append ntotal s = Some (st, s') ->
  (st <> ITEM_OK /\ s' = s) \/
  (st = ITEM_OK /\
   exists n it0 m sp l,
     n <> o /\ Item.id it0 = item_slabid (klen oit) ntotal /\
     slots sp = <[n := MkItem (Item.id it0) false false (negb append) (klen oit) ntotal
                          (dataflag oit) (now s) (expire_at oit)
                          (uint64 (cas_id s + 1)) m]> (slots s) /\
     length m = length (payload it0) /\
     (append = true \/ klen oit + ntotal <= Z.of_nat (length m) ->
      take (Z.to_nat (klen oit)) m = key_of oit) /\
     take (Z.to_nat ntotal)
       (drop (Z.to_nat (if append then klen oit else Z.of_nat (length m) - ntotal)) m)
     = (if append then value_of oit ++ bstring_bytes v
        else bstring_bytes v ++ value_of oit) /\
     now sp = now s /\ flush_at sp = flush_at s /\
     cas_id sp = uint64 (cas_id s + 1) /\
     same_items sp s' /\ hash_table s' = n :: l /\ unlinked s' o).
Proof.
  intros Ho Hnq Hnb ([Hk Hk255] & Hv & Hfit) Hlen -> Hnt H.
  unfold Item.item_annex_realloc in H. rewrite Ho in H. cbn [mbind option_bind] in H.
  bind_inv H E. destruct p as [[st0 r] s1].
  apply item_alloc_spec in E. destruct r as [n|]; [|left; destruct E; split; congruence].
  right. destruct E as (-> & it0 & Hs1 & Hid & Hinv & Hn & Hf & Hc & Hh & Hw).
  assert (Hne : n <> o) by (destruct Hw as [(Hw & _)|(Hw & _)]; congruence).
  assert (Eu8 : uint8 (klen oit) = klen oit) by (unfold uint8; apply Z.mod_small; lia).
  assert (Eu32 : uint32 (vlen oit + len v) = vlen oit + len v)
    by (unfold uint32; apply Z.mod_small; unfold UINT32_MAX in Hnt; lia).
  rewrite Eu8, Eu32 in Hid.
  bind_inv H Ek.
  destruct (copy_key_item_ins _ _ _ _ _ _ _ Hs1 Ho Hne Ek) as (m1 & Hkl & Hm1 & ->). clear Ek.
  erewrite update_ins in H by reflexivity. cbn [mbind option_bind] in H.
  erewrite update_ins in H by reflexivity. cbn [mbind option_bind] in H.
  erewrite update_ins in H by reflexivity. cbn [mbind option_bind] in H.
  erewrite item_set_cas_ins in H by reflexivity. cbn [mbind option_bind] in H.
  cbn [slots] in H. rewrite (lookup_insert_ne _ n o), Ho in H by exact Hne.
  cbn [mbind option_bind] in H.
  bind_inv H Ecp. bind_inv H Ev. bind_inv H Eu. bind_inv H El.
  injection H as <- <-.
  destruct (item_link_head _ _ _ El) as [l Hl].
  pose proof (item_unlink_unlinked _ _ _ Eu) as Hun.
  pose proof (item_link_unlinked _ _ _ _ El Hne Hun) as Hun'.
  pose proof (item_unlink_same_items _ _ _ Eu) as Hsame1.
  pose proof (item_link_same_items _ _ _ El) as Hsame2.
  pose proof (same_items_trans _ _ _ Hsame1 Hsame2) as Hsame.
  split; [reflexivity|].
  destruct append.
  - (* append: old value, then new, behind the key *)
    rewrite lookup_insert_eq in Ecp. cbn [mbind option_bind] in Ecp.
    bind_inv Ecp E1. eapply item_memcpy_ins in E1; [|reflexivity].
    destruct E1 as (m2 & Hl2 & Hm2 & ->).
    cbn [slots set_slots] in Ecp. rewrite lookup_insert_eq in Ecp.
    cbn [mbind option_bind] in Ecp.
    eapply item_memcpy_ins in Ecp; [|reflexivity].
    destruct Ecp as (m3 & Hl3 & Hm3 & ->).
    apply update_Some in Ev as (itn & Hitn & ->).
    cbn [slots set_slots] in Hitn. rewrite lookup_insert_eq in Hitn. injection Hitn as <-.
    unfold value_of, item_data in *.
    cbn [is_raligned klen vlen payload set_payload set_cas set_dataflag set_create_at
         set_expire_at set_klen _item_reset] in Hm2, Hm3.
    match type of Eu with _item_unlink _ ?S = _ => exists n, it0, m3, S, l end.
    split; [exact Hne|]. split; [exact Hid|].
    split; [cbn -[uint64]; rewrite insert_insert_eq, Hn, Hc; reflexivity|].
    split.
    { rewrite (store_bytes_length _ _ _ _ Hm3), (store_bytes_length _ _ _ _ Hm2),
        (store_bytes_length _ _ _ _ Hm1). reflexivity. }
    split.
    { intros _. rewrite (store_bytes_before _ _ _ _ _ Hm3) by lia.
      rewrite (store_bytes_before _ _ _ _ _ Hm2) by lia.
      pose proof (store_bytes_read _ _ _ _ Hm1) as R.
      rewrite take_length_Z in R by lia.
      change (Z.to_nat 0) with 0%nat in R. rewrite drop_0 in R. exact R. }
    split.
    { replace (Z.to_nat (vlen oit + len v))
        with (Z.to_nat (vlen oit) + length (take (Z.to_nat (len v)) (data v)))%nat
        by (rewrite take_length_Z; lia).
      rewrite (store_bytes_extend _ _ _ _ (Z.to_nat (klen oit)) (Z.to_nat (vlen oit)) Hm3) by lia.
      f_equal. pose proof (store_bytes_read _ _ _ _ Hm2) as R.
      rewrite take_length_Z in R by lia. exact R. }
    split; [exact Hn|]. split; [exact Hf|].
    split; [cbn -[uint64]; rewrite Hc; reflexivity|].
    split; [exact Hsame|]. split; [exact Hl|exact Hun'].
  - (* prepend: new value, then old, at the end of the slot *)
    erewrite update_ins in Ecp by reflexivity. cbn [mbind option_bind] in Ecp.
    cbn [slots set_slots] in Ecp. rewrite lookup_insert_eq in Ecp.
    cbn [mbind option_bind] in Ecp.
    bind_inv Ecp E1. eapply item_memcpy_ins in E1; [|reflexivity].
    destruct E1 as (m2 & Hl2 & Hm2 & ->).
    cbn [slots set_slots] in Ecp. rewrite lookup_insert_eq in Ecp.
    cbn [mbind option_bind] in Ecp.
    eapply item_memcpy_ins in Ecp; [|reflexivity].
    destruct Ecp as (m3 & Hl3 & Hm3 & ->).
    apply update_Some in Ev as (itn & Hitn & ->).
    cbn [slots set_slots] in Hitn. rewrite lookup_insert_eq in Hitn. injection Hitn as <-.
    unfold value_of, item_data in *.
    cbn [is_raligned klen vlen payload set_payload set_cas set_dataflag set_create_at
         set_expire_at set_klen set_is_raligned _item_reset] in Hm2, Hm3.
    pose proof (store_bytes_length _ _ _ _ Hm1) as L1.
    pose proof (store_bytes_length _ _ _ _ Hm2) as L2.
    pose proof (store_bytes_length _ _ _ _ Hm3) as L3.
    cbn [payload _item_reset] in L1.
    pose proof (store_bytes_spec _ _ _ _ Hm2) as (P2 & Q2 & _).
    pose proof (store_bytes_spec _ _ _ _ Hm3) as (P3 & Q3 & _).
    rewrite take_length_Z in Q2, Q3 by lia.
    match type of Eu with _item_unlink _ ?S = _ => exists n, it0, m3, S, l end.
    split; [exact Hne|]. split; [exact Hid|].
    split; [cbn -[uint64]; rewrite insert_insert_eq, Hn, Hc; reflexivity|].
    split; [congruence|].
    split.
    { intros [Hx|Hx]; [discriminate|].
      rewrite (store_bytes_before _ _ _ _ _ Hm3) by lia.
      rewrite (store_bytes_before _ _ _ _ _ Hm2) by lia.
      pose proof (store_bytes_read _ _ _ _ Hm1) as R.
      rewrite take_length_Z in R by lia.
      change (Z.to_nat 0) with 0%nat in R. rewrite drop_0 in R. exact R. }
    split.
    { replace (Z.to_nat (vlen oit + len v))
        with (Z.to_nat (len v)
              + length (take (Z.to_nat (vlen oit))
                          (drop (Z.to_nat (if is_raligned oit
                                           then Z.of_nat (length (payload oit)) - vlen oit
                                           else klen oit)) (payload oit))))%nat
        by (rewrite take_length_Z; lia).
      rewrite (store_bytes_extend _ _ _ _
                 (Z.to_nat (Z.of_nat (length m3) - (vlen oit + len v)))
                 (Z.to_nat (len v)) Hm3) by lia.
      f_equal. pose proof (store_bytes_read _ _ _ _ Hm2) as R.
      rewrite take_length_Z in R by lia.
      replace (Z.to_nat (Z.of_nat (length m3) - (vlen oit + len v)))
        with (Z.to_nat (Z.of_nat (length m1) - 0 - (vlen oit + len v))) by lia.
      exact R. }
    split; [exact Hn|]. split; [exact Hf|].
    split; [cbn -[uint64]; rewrite Hc; reflexivity|].
    split; [exact Hsame|]. split; [exact Hl|exact Hun'].
Qed.

(** The three ways of [item_annex]. *)
Lemma item_annex_paths o oit v append s st s' :
  slots s !! o = Some oit -> item_ok oit -> (o ∉ free_q s) -> o <> brk s ->
  0 <= len v <= Z.of_nat (length (data v)) -> vlen oit + len v <= UINT32_MAX ->
  item_annex o v append s = Some (st, s') ->
  annex_outcome o oit v append s st s'.
Proof.
  intros Ho Hok Hnq Hnb Hlen H32 H.
  assert (Eu32 : uint32 (vlen oit + len v) = vlen oit + len v).
  { destruct Hok as (_ & Hv & _). unfold uint32, UINT32_MAX in *.
    apply Z.mod_small; lia. }
  unfold Item.item_annex in H. rewrite Ho in H. cbn [mbind option_bind] in H.
  unfold Item.annex_outcome, Item.annex_in_place. cbv zeta. rewrite Eu32 in *.
  destruct (item_slabid (klen oit) (vlen oit + len v) =? SLABCLASS_INVALID_ID).
  { injection H as <- <-. auto. }
  assert (Hfast : forall al, is_raligned oit = negb al ->
            item_annex_inplace o v al (vlen oit + len v) s = Some (st, s') ->
            st = ITEM_OK /\
            now s' = now s /\ flush_at s' = flush_at s /\
            hash_table s' = hash_table s /\ free_q s' = free_q s /\
            carve s' = carve s /\ pages_left s' = pages_left s /\ brk s' = brk s /\
            exists it',
              slots s' = <[o := it']> (slots s) /\
              Item.id it' = Item.id oit /\ is_raligned it' = negb al /\
              is_raligned oit = negb al /\
              vlen it' = vlen oit + len v /\
              value_of it' = (if al then value_of oit ++ bstring_bytes v
                              else bstring_bytes v ++ value_of oit) /\
              (al = true -> key_of it' = key_of oit) /\
              klen it' = klen oit /\ create_at it' = create_at oit /\
              expire_at it' = expire_at oit /\ dataflag it' = dataflag oit).
  { intros al Hal Hi.
    apply item_annex_inplace_spec in Hi as (oit' & m & Ho' & -> & _ & Hm & ->).
    assert (oit' = oit) by congruence. subst oit'.
    destruct (inplace_value oit v al m Hok Hlen H32 Hal Hm) as (_ & Hval & Hkey).
    split; [reflexivity|]. cbn [now flush_at hash_table free_q carve pages_left brk slots].
    repeat (split; [reflexivity|]).
    eexists. split; [reflexivity|]. cbn [Item.id is_raligned vlen klen create_at expire_at
                                         dataflag set_cas set_vlen set_payload].
    split; [reflexivity|]. split; [exact Hal|]. split; [exact Hal|].
    split; [reflexivity|]. split; [exact Hval|]. split; [exact Hkey|].
    repeat split. }
  assert (Hslow : item_annex_realloc o v append (vlen oit + len v) s = Some (st, s') ->
            (st <> ITEM_OK /\ s' = s) \/
            (st = ITEM_OK /\
             exists n nit,
               n <> o /\ head (hash_table s') = Some n /\ slots s' !! n = Some nit /\
               Item.id nit = item_slabid (klen oit) (vlen oit + len v) /\
               is_raligned nit = negb append /\
               vlen nit = vlen oit + len v /\
               value_of nit = (if append then value_of oit ++ bstring_bytes v
                               else bstring_bytes v ++ value_of oit) /\
               (append = true \/
                klen oit + (vlen oit + len v) <= Z.of_nat (length (payload nit)) ->
                key_of nit = key_of oit) /\
               create_at nit = now s /\ expire_at nit = expire_at oit /\
               dataflag nit = dataflag oit /\
               now s' = now s /\ flush_at s' = flush_at s /\
               unlinked s' o)).
  { intros Hr.
    destruct (item_annex_realloc_spec o v append _ s s' st oit Ho Hnq Hnb Hok Hlen eq_refl H32 Hr)
      as [Hfail|(-> & n & it0 & m & sp & l & Hne & Hid & Hsp & Hlm & Hkey & Hval
                & Hn & Hf & Hc & Hsame & Hh & Hun)]; [left; exact Hfail|right].
    split; [reflexivity|].
    assert (Hx : slots sp !! n = Some (MkItem (Item.id it0) false false (negb append) (klen oit)
                   (vlen oit + len v) (dataflag oit) (now s) (expire_at oit)
                   (uint64 (cas_id s + 1)) m)) by (rewrite Hsp; apply lookup_insert_eq).
    destruct (same_items_lookup sp s' n _ Hsame Hx) as (nit & Hnit & Hcore).
    pose proof (core_key_of _ _ Hcore) as Ek. pose proof (core_value_of _ _ Hcore) as Ev.
    apply core_fields in Hcore as (E1 & E2 & E3 & E4 & E5 & E6 & E7 & E8 & E9).
    cbn [Item.id is_raligned klen vlen Item.dataflag create_at expire_at cas payload] in *.
    exists n, nit. split; [exact Hne|]. split; [rewrite Hh; reflexivity|].
    split; [exact Hnit|]. split; [congruence|]. split; [exact E2|]. split; [exact E4|].
    split.
    { rewrite Ev. unfold value_of at 1. unfold item_data.
      cbn [is_raligned klen vlen payload].
      destruct append; cbn [negb]; exact Hval. }
    split.
    { intros Hc'. rewrite Ek. unfold key_of at 1. cbn [klen payload].
      apply Hkey. rewrite E9 in Hc'. exact Hc'. }
    destruct Hsame as (Sn & Sf & _).
    repeat (split; [congruence|]). exact Hun. }
  destruct append.
  - destruct (item_slabid (klen oit) (vlen oit + len v) =? Item.id oit);
      cbn [andb] in *; [|apply Hslow; exact H].
    destruct (is_raligned oit) eqn:Hr; cbn [negb] in *; [apply Hslow; exact H|].
    apply (Hfast true); [reflexivity|exact H].
  - destruct (item_slabid (klen oit) (vlen oit + len v) =? Item.id oit);
      cbn [andb] in *; [|apply Hslow; exact H].
    destruct (is_raligned oit) eqn:Hr; [|apply Hslow; exact H].
    apply (Hfast false); [reflexivity|exact H].
Qed.

(** Insert, look up, append, look up again: the value found is the value
    inserted with the value appended behind it. *)
Lemma insert_annex_get s0 key v1 v2 s1 a s1' s2 :
  alloc_ok s0 -> flush_at s0 < now s0 ->
  bstring_ok 255 key -> bstring_ok UINT32_MAX v1 -> bstring_ok UINT32_MAX v2 ->
  len v1 + len v2 <= UINT32_MAX ->
  item_insert key v1 0 0 s0 = Some (ITEM_OK, s1) ->
  item_get key s1 = Some (Some a, s1') ->
  item_annex a v2 true s1' = Some (ITEM_OK, s2) ->
  exists b it, item_get key s2 = Some (Some b, s2) /\
               slots s2 !! b = Some it /\
               value_of it = bstring_bytes v1 ++ bstring_bytes v2.
Proof.
  intros Hal Hfl Hk Hv1 Hv2 H32 Hi Hg Ha.
  destruct (item_insert_get key v1 0 0 s0 s1 Hk Hv1 Hi)
    as (a0 & it & Hh & Hit & Hget & Hkey & Hval & Hcr & Hex & _ & Hral & _ & _ & _
        & Hn & Hf & _ & Hok & Hlive).
  assert (Hg0 : item_get key s1 = Some (Some a0, s1)).
  { apply (item_get_fresh key s1 a0 it Hget Hit); [rewrite Hf, Hcr; exact Hfl|].
    left. exact Hex. }
  rewrite Hg0 in Hg. injection Hg as <- <-.
  destruct (Hlive Hal) as (Hnq & Hnb).
  assert (Hvl : vlen it = len v1).
  { assert (E : length (value_of it) = length (bstring_bytes v1)) by (rewrite Hval; reflexivity).
    destruct Hok as ([Hk0 _] & Hv0 & Hfit). destruct Hv1 as [Hv1 Hd1].
    unfold value_of, bstring_bytes, item_data in E. rewrite Hral in E.
    rewrite !length_take, length_drop in E. lia. }
  destruct Hv2 as [Hv2 Hd2].
  assert (Hlen2 : 0 <= len v2 <= Z.of_nat (length (data v2))) by lia.
  assert (H32' : vlen it + len v2 <= UINT32_MAX) by (rewrite Hvl; exact H32).
  pose proof (item_annex_paths a0 it v2 true s1 ITEM_OK s2 Hit Hok Hnq Hnb Hlen2 H32' Ha) as Hp.
  unfold Item.annex_outcome in Hp. cbv zeta in Hp.
  destruct (item_slabid (klen it) (vlen it + len v2) =? SLABCLASS_INVALID_ID);
    [destruct Hp; discriminate|].
  destruct (Item.annex_in_place _ _ _ it v2 true).
  - destruct Hp as (_ & Hn2 & Hf2 & Hh2 & _ & _ & _ & _ & it' & Hs2 & _ & _ & _ & _
                    & Hval' & Hkey' & _ & Hcr' & Hex' & _).
    assert (Hit' : slots s2 !! a0 = Some it') by (rewrite Hs2; apply lookup_insert_eq).
    exists a0, it'. split; [|split; [exact Hit'|rewrite Hval', Hval; reflexivity]].
    destruct (hash_table s1) as [|x l] eqn:El; [discriminate|]. injection Hh as ->.
    apply (item_get_fresh key s2 a0 it').
    + eapply hashtable_get_head; [rewrite Hh2; reflexivity|exact Hit'|].
      rewrite Hkey' by reflexivity. exact Hkey.
    + exact Hit'.
    + rewrite Hf2, Hf, Hcr', Hcr. exact Hfl.
    + left. rewrite Hex'. exact Hex.
  - destruct Hp as [[Hp _]|(_ & n & nit & _ & Hh2 & Hnit & _ & _ & _ & Hval' & Hkey'
                            & Hcr' & Hex' & _ & Hn2 & Hf2 & _)]; [congruence|].
    exists n, nit. split; [|split; [exact Hnit|rewrite Hval', Hval; reflexivity]].
    destruct (hash_table s2) as [|x l] eqn:El; [discriminate|]. injection Hh2 as ->.
    apply (item_get_fresh key s2 n nit).
    + eapply hashtable_get_head; [exact El|exact Hnit|].
      rewrite Hkey' by (left; reflexivity). exact Hkey.
    + exact Hnit.
    + rewrite Hf2, Hf, Hcr', Hn. exact Hfl.
    + left. rewrite Hex'. exact Hex.
Qed.


(** ** CAS tokens *)

Lemma cas_back_refl s : cas_back s s.
Proof. split; [reflexivity|]. intros b it' H. right. eauto. Qed.

Lemma cas_back_trans s1 s2 s3 : cas_back s1 s2 -> cas_back s2 s3 -> cas_back s1 s3.
Proof.
  intros (E1 & H1) (E2 & H2). split; [congruence|].
  intros b it3 Hb. destruct (H2 b it3 Hb) as [Hz|(it2 & Hb2 & Ec)]; [left; exact Hz|].
  destruct (H1 b it2 Hb2) as [Hz|(it1 & Hb1 & Ec1)]; [left; congruence|].
  right. exists it1. split; [exact Hb1|congruence].
Qed.

Lemma cas_keep_refl s : cas_keep s s.
Proof. split; [apply cas_back_refl|]. eauto. Qed.

Lemma cas_keep_trans s1 s2 s3 : cas_keep s1 s2 -> cas_keep s2 s3 -> cas_keep s1 s3.
Proof.
  intros (B1 & K1) (B2 & K2). split; [eapply cas_back_trans; eauto|].
  intros b it Hb. destruct (K1 b it Hb) as (it2 & Hb2 & E2).
  destruct (K2 b it2 Hb2) as (it3 & Hb3 & E3). exists it3. split; [exact Hb3|congruence].
Qed.

Lemma same_items_cas_keep s s' : same_items s s' -> cas_keep s s'.
Proof.
  intros H. pose proof H as (_ & _ & Hc & _). split; [split; [exact Hc|]|].
  - intros b it' Hb. right.
    destruct (same_items_lookup_inv s s' b it' H Hb) as (it & Hit & Hcore).
    apply core_fields in Hcore as (_ & _ & _ & _ & _ & _ & _ & E & _). eauto.
  - intros b it Hb.
    destruct (same_items_lookup s s' b it H Hb) as (it' & Hit & Hcore).
    apply core_fields in Hcore as (_ & _ & _ & _ & _ & _ & _ & E & _). eauto.
Qed.

(** An assignment to a field other than the token. *)
Lemma update_cas_keep s a f s' :
  (forall it, cas (f it) = cas it) -> update s a f = Some s' -> cas_keep s s'.
Proof.
  intros Hf H. apply update_Some in H as (it & Ha & ->).
  split; [split; [reflexivity|]|]; simpl.
  - intros b it' Hb. right. destruct (decide (a = b)) as [<-|Hne].
    + rewrite lookup_insert_eq in Hb. injection Hb as <-. exists it. auto.
    + rewrite lookup_insert_ne in Hb by exact Hne. eauto.
  - intros b it0 Hb. destruct (decide (a = b)) as [<-|Hne].
    + rewrite lookup_insert_eq. assert (it0 = it) by congruence. subst. eauto.
    + rewrite lookup_insert_ne by exact Hne. eauto.
Qed.

Lemma item_memcpy_cas_keep s a p src n s' :
  item_memcpy s a p src n = Some s' -> cas_keep s s'.
Proof.
  intros H. apply item_memcpy_Some in H as (it & m & Ha & _ & _ & ->).
  apply (update_cas_keep s a (fun it => set_payload it m)); [reflexivity|].
  unfold update. rewrite Ha. reflexivity.
Qed.

Lemma copy_key_cas_keep a key s s' : _copy_key a key s = Some s' -> cas_keep s s'.
Proof.
  unfold _copy_key. intros H.
  destruct (slots s !! a); cbn [mbind option_bind] in H; [|discriminate].
  bind_inv H E. eapply cas_keep_trans; [eapply item_memcpy_cas_keep; exact E|].
  eapply update_cas_keep; [|exact H]. reflexivity.
Qed.

Lemma copy_val_cas_keep a v s s' : _copy_val a v s = Some s' -> cas_keep s s'.
Proof.
  unfold _copy_val. intros H.
  destruct (slots s !! a); cbn [mbind option_bind] in H; [|discriminate].
  bind_inv H E. eapply cas_keep_trans; [eapply item_memcpy_cas_keep; exact E|].
  eapply update_cas_keep; [|exact H]. reflexivity.
Qed.

Lemma copy_key_item_cas_keep n o s s' : _copy_key_item n o s = Some s' -> cas_keep s s'.
Proof.
  unfold _copy_key_item. intros H.
  destruct (slots s !! n); cbn [mbind option_bind] in H; [|discriminate].
  destruct (slots s !! o); cbn [mbind option_bind] in H; [|discriminate].
  bind_inv H E. eapply cas_keep_trans; [eapply item_memcpy_cas_keep; exact E|].
  eapply update_cas_keep; [|exact H]. reflexivity.
Qed.

(** [item_set_cas]: the counter goes up by one and the item gets the new
    count. *)
Lemma item_set_cas_Some a s s' :
  item_set_cas a s = Some s' ->
  exists it, slots s !! a = Some it /\
             cas_id s' = uint64 (cas_id s + 1) /\
             slots s' = <[a := set_cas it (uint64 (cas_id s + 1))]> (slots s).
Proof.
  unfold item_set_cas. intros H. apply update_Some in H as (it & Ha & ->).
  exists it. auto.
Qed.

(** An [update] that leaves the token alone, in a hypothesis. *)
Ltac keep_update E := eapply update_cas_keep in E; [|intros; reflexivity].

Lemma slab_get_item_cas_back id s r s1 :
  slab_get_item id s = Some (r, s1) -> cas_back s s1.
Proof.
  unfold Item.slab_get_item. intros H.
  assert (Hcarve : forall rest pages,
            slab_carve slabclass ITEM_HDR_SIZE s id rest pages = Some (r, s1) ->
            cas_back s s1).
  { intros rest pages Hc. unfold slab_carve, item_hdr_init in Hc.
    destruct (slabclass !! Z.to_nat id) as [sz|]; simpl in Hc; [|discriminate].
    injection Hc as <- <-. split; [reflexivity|]. simpl. intros b it' Hb.
    destruct (decide (brk s = b)) as [<-|Hne].
    - rewrite lookup_insert_eq in Hb. injection Hb as <-. left. reflexivity.
    - rewrite lookup_insert_ne in Hb by exact Hne. right. eauto. }
  destruct (freeq_find s id) as [b|].
  - bind_inv H E. injection H as <- <-.
    keep_update E. destruct E as [[Ec Hb] _]. split; [exact Ec|exact Hb].
  - destruct (carve s !! id) as [[|rest]|].
    + destruct (pages_left s) as [|pages]; [injection H as <- <-; apply cas_back_refl|].
      destruct (slab_nitem _ _ _ _) as [|rest]; [injection H as <- <-; apply cas_back_refl|].
      eapply Hcarve; eauto.
    + eapply Hcarve; eauto.
    + destruct (pages_left s) as [|pages]; [injection H as <- <-; apply cas_back_refl|].
      destruct (slab_nitem _ _ _ _) as [|rest]; [injection H as <- <-; apply cas_back_refl|].
      eapply Hcarve; eauto.
Qed.

Lemma item_alloc_cas_back klen vlen s st r s1 :
  _item_alloc klen vlen s = Some (st, r, s1) ->
  cas_back s s1 /\ (r = None -> st <> ITEM_OK).
Proof.
  unfold Item._item_alloc. intros H.
  destruct (_ =? SLABCLASS_INVALID_ID).
  - injection H as <- <- <-. split; [apply cas_back_refl|discriminate].
  - bind_inv H E. destruct p as [[a|] s2].
    + bind_inv H E2. injection H as <- <- <-. split; [|discriminate].
      apply slab_get_item_cas_back in E.
      keep_update E2. destruct E2 as [E2 _]. eapply cas_back_trans; eauto.
    + injection H as <- <- <-. split; [|discriminate].
      eapply slab_get_item_cas_back; eauto.
Qed.

(** Every mutation that succeeds is: steps that assign no token, then
    [item_set_cas] on the resulting item, then steps that keep every
    token. *)
Lemma mutate_set_cas m s s' :
  mutate m s = Some (ITEM_OK, s') ->
  exists a sa sb,
    cas_back s sa /\ item_set_cas a sa = Some sb /\ cas_keep sb s' /\
    resulting_item m s s' = Some a.
Proof.
  destruct m as [key v dataflag expire|a v|o v append]; cbn [Item.mutate Item.resulting_item].
  - (* item_insert *)
    unfold Item.item_insert. intros H. bind_inv H E. destruct p as [[st r] s1].
    apply item_alloc_cas_back in E as (B1 & Hr).
    destruct r as [a|]; [|injection H as -> _; destruct (Hr eq_refl); reflexivity].
    bind_inv H E1. bind_inv H E2. bind_inv H E3. bind_inv H E4. bind_inv H E5.
    bind_inv H E6. bind_inv H E7. injection H as <-.
    keep_update E1. keep_update E2. keep_update E3.
    apply copy_key_cas_keep in E4. apply copy_val_cas_keep in E5.
    destruct (item_link_head _ _ _ E7) as [l Hl].
    apply item_link_same_items, same_items_cas_keep in E7.
    eexists a, _, _. split; [|split; [exact E6|split; [exact E7|rewrite Hl; reflexivity]]].
    eapply cas_back_trans; [exact B1|].
    apply (cas_keep_trans _ _ _ E1) in E2. apply (cas_keep_trans _ _ _ E2) in E3.
    apply (cas_keep_trans _ _ _ E3) in E4. apply (cas_keep_trans _ _ _ E4) in E5.
    apply E5.
  - (* item_update *)
    unfold item_update. intros H. bind_inv H E1.
    destruct (slots s0 !! a); cbn [mbind option_bind] in H; [|discriminate].
    bind_inv H E2. bind_inv H E3. injection H as <-.
    keep_update E1.
    apply item_memcpy_cas_keep in E2.
    eexists a, _, _. split; [|split; [exact E3|split; [apply cas_keep_refl|reflexivity]]].
    apply (cas_keep_trans _ _ _ E1) in E2. apply E2.
  - (* item_annex *)
    unfold Item.item_annex. intros H.
    destruct (slots s !! o) as [oit|] eqn:Ho; cbn [mbind option_bind] in H; [|discriminate].
    unfold Item.annex_in_place.
    destruct (_ =? SLABCLASS_INVALID_ID); [discriminate|].
    assert (Hfast : item_annex_inplace o v append (uint32 (vlen oit + len v)) s
                    = Some (ITEM_OK, s') ->
              exists a sa sb, cas_back s sa /\ item_set_cas a sa = Some sb /\
                              cas_keep sb s' /\ Some o = Some a).
    { unfold item_annex_inplace. rewrite Ho. cbn [mbind option_bind]. intros Hi.
      bind_inv Hi E1. bind_inv Hi E2. bind_inv Hi E3. injection Hi as <-.
      apply item_memcpy_cas_keep in E1.
      keep_update E2.
      eexists o, _, _. split; [|split; [exact E3|split; [apply cas_keep_refl|reflexivity]]].
      apply (cas_keep_trans _ _ _ E1) in E2. apply E2. }
    assert (Hslow : item_annex_realloc o v append (uint32 (vlen oit + len v)) s
                    = Some (ITEM_OK, s') ->
              exists a sa sb, cas_back s sa /\ item_set_cas a sa = Some sb /\
                              cas_keep sb s' /\ head (hash_table s') = Some a).
    { unfold Item.item_annex_realloc. rewrite Ho. cbn [mbind option_bind]. intros Hi.
      bind_inv Hi E. destruct p as [[st r] s1].
      apply item_alloc_cas_back in E as (B1 & Hr).
      destruct r as [n|]; [|injection Hi as -> _; destruct (Hr eq_refl); reflexivity].
      bind_inv Hi E1. bind_inv Hi E2. bind_inv Hi E3. bind_inv Hi E4. bind_inv Hi E5.
      destruct (slots s5 !! o) as [oit'|]; cbn [mbind option_bind] in Hi; [|discriminate].
      bind_inv Hi E6. bind_inv Hi E7. bind_inv Hi E8. bind_inv Hi E9.
      injection Hi as -> <-.
      apply copy_key_item_cas_keep in E1.
      keep_update E2. keep_update E3. keep_update E4. keep_update E7.
      destruct (item_link_head _ _ _ E9) as [l Hl].
      apply item_unlink_same_items, same_items_cas_keep in E8.
      apply item_link_same_items, same_items_cas_keep in E9.
      assert (K6 : cas_keep s5 s6).
      { destruct append.
        - destruct (slots s5 !! n); cbn [mbind option_bind] in E6; [|discriminate].
          bind_inv E6 F1.
          destruct (slots s10 !! n); cbn [mbind option_bind] in E6; [|discriminate].
          apply item_memcpy_cas_keep in F1, E6. eapply cas_keep_trans; eauto.
        - bind_inv E6 F0.
          destruct (slots s10 !! n); cbn [mbind option_bind] in E6; [|discriminate].
          bind_inv E6 F1.
          destruct (slots s11 !! n); cbn [mbind option_bind] in E6; [|discriminate].
          keep_update F0.
          apply item_memcpy_cas_keep in F1, E6.
          eapply cas_keep_trans; [exact F0|]. eapply cas_keep_trans; eauto. }
      eexists n, _, _. split; [|split; [exact E5|split; [|rewrite Hl; reflexivity]]].
      - eapply cas_back_trans; [exact B1|].
        apply (cas_keep_trans _ _ _ E1) in E2. apply (cas_keep_trans _ _ _ E2) in E3.
        apply (cas_keep_trans _ _ _ E3) in E4. apply E4.
      - eapply cas_keep_trans; [exact K6|]. eapply cas_keep_trans; [exact E7|].
        eapply cas_keep_trans; eauto. }
    destruct append.
    + destruct ((_ =? Item.id oit) && negb (is_raligned oit)); [apply Hfast|apply Hslow]; exact H.
    + destruct ((_ =? Item.id oit) && is_raligned oit); [apply Hfast|apply Hslow]; exact H.
Qed.


End ItemFacts.

(** ** The theorems at work in the small configuration *)

Lemma test_store_table_ok : table_ok test_store.
Proof. intros a Ha. vm_compute in Ha. apply elem_of_nil in Ha. destruct Ha. Defined.

Lemma test_store_created : created_by (now test_store) test_store.
Proof. intros a it Ha. vm_compute in Ha. discriminate Ha. Defined.

Lemma test_store_alloc_ok : alloc_ok test_store.
Proof.
  intros a. split.
  - intros Ha. vm_compute in Ha. apply elem_of_nil in Ha. destruct Ha.
  - intros [Ha|Ha]; vm_compute in Ha; apply elem_of_nil in Ha; destruct Ha.
Defined.

Lemma str2bstr_ok max s :
  Z.of_nat (length (bytes s)) <= max -> bstring_ok max (str2bstr s).
Proof. intros H. unfold bstring_ok, str2bstr. simpl. lia. Defined.

(** Counterexample to C3 as stated: flush, then insert at once, then get.
    The clock has not moved between the flush and the insert, the item is
    created at [flush_at], and [item_get] takes it for flushed. *)
Lemma insert_right_after_flush_hidden :
  exists s1 s2,
    test_insert (str2bstr "k") (str2bstr "v1") 0 0 (item_flush 5 test_store)
    = Some (ITEM_OK, s1) /\
    hashtable_get (bytes "k") s1 = Some 0%nat /\
    item_get (str2bstr "k") s1 = Some (None, s2).
Proof.
  eexists _, _. split; [vm_compute; reflexivity|].
  split; vm_compute; reflexivity.
Qed.

(** Witness of [flush_hides_then_insert_shows]: flush at 5, a get, and an
    insert when the clock reads 6. *)
Lemma flush_hides_then_insert_shows_witness :
  table_ok test_store /\ created_by (now test_store) test_store /\
  now test_store <= 5 /\
  bstring_ok 255 (str2bstr "k") /\ bstring_ok UINT32_MAX (str2bstr "v1") /\
  (exists s', item_gets [str2bstr "k"] (item_flush 5 test_store) = Some ([None], s')) /\
  (forall s3,
     test_insert (str2bstr "k") (str2bstr "v1") 0 0 (time_update 6 (item_flush 5 test_store))
     = Some (ITEM_OK, s3) ->
     exists a it, item_get (str2bstr "k") s3 = Some (Some a, s3) /\
                  slots s3 !! a = Some it /\
                  key_of it = bytes "k" /\ value_of it = bytes "v1").
Proof.
  pose proof (flush_hides_then_insert_shows [64; 96; 128] 40 1024 32 255
                test_store 5 [str2bstr "k"] (str2bstr "k") (str2bstr "v1") 0 0
                test_store_table_ok test_store_created ltac:(vm_compute; discriminate)
                (str2bstr_ok 255 "k" ltac:(vm_compute; discriminate))
                (str2bstr_ok UINT32_MAX "v1" ltac:(vm_compute; discriminate))) as [H1 H2].
  split; [exact test_store_table_ok|]. split; [exact test_store_created|].
  split; [vm_compute; discriminate|].
  split; [apply str2bstr_ok; vm_compute; discriminate|].
  split; [apply str2bstr_ok; vm_compute; discriminate|].
  split; [exact H1|].
  intros s3 Hi. apply (H2 (time_update 6 (item_flush 5 test_store)) s3);
    [reflexivity|reflexivity|left; reflexivity|exact Hi].
Defined.

(** Witness of [item_delete_expired]: the item of [test_store_k] after a
    flush. *)
Lemma item_delete_expired_witness :
  hashtable_get (bstring_bytes (str2bstr "k")) (item_flush 5 test_store_k) = Some 0%nat /\
  slots (item_flush 5 test_store_k) !! 0%nat = Some test_item /\
  is_linked test_item = true /\
  _item_expired (item_flush 5 test_store_k) test_item = true /\
  exists s', item_delete (str2bstr "k") (item_flush 5 test_store_k) = Some (false, s') /\
             hash_table s' = [] /\ free_q s' = [0%nat] /\
             s' <> item_flush 5 test_store_k.
Proof.
  assert (H1 : hashtable_get (bstring_bytes (str2bstr "k")) (item_flush 5 test_store_k)
               = Some 0%nat) by (vm_compute; reflexivity).
  assert (H2 : slots (item_flush 5 test_store_k) !! 0%nat = Some test_item)
    by (vm_compute; reflexivity).
  assert (H3 : is_linked test_item = true) by reflexivity.
  assert (H4 : _item_expired (item_flush 5 test_store_k) test_item = true) by reflexivity.
  repeat (split; [assumption|]).
  destruct (item_delete_expired (str2bstr "k") (item_flush 5 test_store_k) 0 test_item
              H1 H2 H3 H4) as (i & s' & Hi & Hd & Hs & Hne & _).
  exists s'. split; [exact Hd|]. split; [|split; [|exact Hne]].
  - destruct i as [|i]; [|vm_compute in Hi; discriminate Hi]. rewrite Hs. reflexivity.
  - rewrite Hs. reflexivity.
Defined.



End ItemFacts.
